(** * fireplace.py: relay sequencing core of the fireplace CLI

    A shallow embedding of [src/fireplace.py]: the channel resolver, the
    relay handle, the interruptible timer, the boot guard, the four
    activation patterns and the command dispatch of [main], followed by
    the properties of the specification that concern them.

    Modelling conventions.
    - Python [str] values are [string]s read as ASCII text.
    - Python [int] is [Z]; Python [float] durations and clock readings
      are exact rationals [Q] (no rounding, no NaN, no infinities).  The
      two limits of the runtime that the command line can reach are kept:
      [int(str)] refuses more than 4300 digits, and an [int] too large
      for a float raises [OverflowError] when it is divided by a float.
    - [main] is modelled from the namespace that [parse_args] returned;
      [argparse] itself ([--help], usage errors) is not part of the model.
    - The operator's interrupt is delivered while the program sleeps: the
      clock moves only in [time.sleep], and a signal whose instant is not
      after the current clock reading is raised by the next sleep.
    - Effects (the monotonic clock, standard output, GPIO writes, the
      operator's interrupt, exceptions) are threaded through an explicit
      [world] by a small state-and-exception monad. *)

From Stdlib Require Import ZArith QArith Qminmax Qreduction Qround.
From Stdlib Require Import String Ascii List Bool Lia Lqa.
Import ListNotations.

Local Open Scope string_scope.
Local Open Scope Z_scope.

(** ** Text primitives of the Python runtime *)

Module Text.

(** [str.isspace] on ASCII: TAB..CR, FS..US and the blank. *)
Definition is_space (c : ascii) : bool :=
  let n := nat_of_ascii c in
  ((9 <=? n)%nat && (n <=? 13)%nat) || ((28 <=? n)%nat && (n <=? 32)%nat).

Fixpoint lstrip (s : string) : string :=
  match s with
  | EmptyString => EmptyString
  | String c r => if is_space c then lstrip r else s
  end.

Fixpoint rstrip (s : string) : string :=
  match s with
  | EmptyString => EmptyString
  | String c r =>
      match rstrip r with
      | EmptyString => if is_space c then EmptyString else String c EmptyString
      | r' => String c r'
      end
  end.

(** [s.strip()] *)
Definition strip (s : string) : string := rstrip (lstrip s).

Definition is_digit (c : ascii) : bool :=
  let n := nat_of_ascii c in (48 <=? n)%nat && (n <=? 57)%nat.

Definition digit_value (c : ascii) : Z := Z.of_nat (nat_of_ascii c) - 48.

(** The digit part of an integer literal as [int(str)] reads it: decimal
    digits, single underscores allowed between two digits only. *)
Fixpoint digits (acc : Z) (after_digit : bool) (s : string) : option Z :=
  match s with
  | EmptyString => if after_digit then Some acc else None
  | String c r =>
      if is_digit c then digits (10 * acc + digit_value c) true r
      else if Ascii.eqb c "_"%char then
        if after_digit then digits acc false r else None
      else None
  end.

(** The decimal digits of a string: what CPython (3.11 and later, with
    the default [sys.int_max_str_digits]) counts against its limit on
    the conversion of a [str] to an [int]. *)
Fixpoint digit_count (s : string) : Z :=
  match s with
  | EmptyString => 0
  | String c r => (if is_digit c then 1 else 0) + digit_count r
  end.

Definition int_max_str_digits : Z := 4300.

(** An integer literal: an optional sign, then the digit part. *)
Definition literal (t : string) : option Z :=
  match t with
  | String "-"%char r => option_map Z.opp (digits 0 false r)
  | String "+"%char r => digits 0 false r
  | t => digits 0 false t
  end.

(** [int(s)] for a [str] argument; [None] stands for [ValueError], raised
    for a literal of more than 4300 digits and for a malformed one. *)
Definition int (s : string) : option Z :=
  let t := strip s in
  if int_max_str_digits <? digit_count t then None else literal t.

(** [sep.join(parts)] *)
Fixpoint join (sep : string) (parts : list string) : string :=
  match parts with
  | [] => ""
  | [p] => p
  | p :: rest => p ++ sep ++ join sep rest
  end.

Fixpoint insert_sorted (x : string) (l : list string) : list string :=
  match l with
  | [] => [x]
  | y :: r => if String.leb x y then x :: l else y :: insert_sorted x r
  end.

(** [sorted(names)] *)
Definition sorted (l : list string) : list string :=
  fold_right insert_sorted [] l.

(** [s.split(",")] *)
Fixpoint split_comma (s : string) : list string :=
  match s with
  | EmptyString => [EmptyString]
  | String c r =>
      if Ascii.eqb c ","%char then EmptyString :: split_comma r
      else match split_comma r with
           | [] => [String c EmptyString]
           | h :: t => String c h :: t
           end
  end.

End Text.

(** ** Relay tables *)

(** A [dict] literal, kept in insertion order. *)
Definition dict (V : Type) : Type := list (string * V).

Fixpoint get {V : Type} (d : dict V) (k : string) : option V :=
  match d with
  | [] => None
  | (k', v) :: r => if String.eqb k k' then Some v else get r k
  end.

Definition keys {V : Type} (d : dict V) : list string := map fst d.

Definition KNOWN_RELAYS : dict Z :=
  [ ("low_flame", 4); ("high_flame", 22); ("aux_1", 6); ("aux_2", 26) ].

Definition RELAY_ALIASES : dict string :=
  [ ("main_burner", "low_flame"); ("main", "low_flame");
    ("relay_gpio4", "low_flame"); ("relay_gpio22", "high_flame");
    ("relay_gpio6", "aux_1"); ("relay_gpio26", "aux_2");
    ("gpio4", "low_flame"); ("gpio22", "high_flame");
    ("gpio6", "aux_1"); ("gpio26", "aux_2");
    ("r4", "low_flame"); ("r22", "high_flame");
    ("r6", "aux_1"); ("r26", "aux_2") ].

(** Decimal rendering of an [int] inside an f-string. *)
Module Show.

Definition digit_char (d : Z) : ascii := ascii_of_nat (Z.to_nat (48 + d)).

Fixpoint pos_digits (fuel : nat) (n : Z) (acc : string) : string :=
  match fuel with
  | O => acc
  | S k =>
      let acc' := String (digit_char (n mod 10)) acc in
      if n <? 10 then acc' else pos_digits k (n / 10) acc'
  end.

Definition int (n : Z) : string :=
  if n <? 0 then String "-"%char (pos_digits (Z.to_nat (- n)) (- n) "")
  else pos_digits (S (Z.to_nat n)) n "".

End Show.

Definition _relay_name_for_pin (pin : Z) : string :=
  match find (fun np => Z.eqb (snd np) pin) KNOWN_RELAYS with
  | Some (name, _) => name
  | None => "gpio" ++ Show.int pin
  end.

(** ** Channel resolver *)

(** The argument of [_resolve_relay_ref]: [Optional[str | int]]. *)
Inductive relay_ref : Type :=
| RNone
| RInt (n : Z)
| RStr (s : string).

(** Outcome of a function that either returns or raises
    [SystemExit(message)]. *)
Inductive exits (A : Type) : Type :=
| Returns (a : A)
| SystemExitMsg (msg : string).
Arguments Returns {A} a.
Arguments SystemExitMsg {A} msg.

Definition unknown_relay_message (s : string) : string :=
  "Unknown relay '" ++ s ++ "'. Use one of: "
    ++ Text.join ", " (Text.sorted (keys KNOWN_RELAYS))
    ++ " (or a BCM pin number)".

Definition _resolve_relay_ref (value : relay_ref) : exits (option Z) :=
  match value with
  | RNone => Returns None
  | RInt n => Returns (Some n)
  | RStr v =>
      let s := Text.strip v in
      if String.eqb s "" then Returns None
      else
        let s := match get RELAY_ALIASES s with
                 | Some target => target
                 | None => s
                 end in
        match get KNOWN_RELAYS s with
        | Some pin => Returns (Some pin)
        | None =>
            match Text.int s with
            | Some n => Returns (Some n)
            | None => SystemExitMsg (unknown_relay_message s)
            end
        end
  end.

(** [a or b] on two resolver results: [None] and [0] are falsy. *)
Definition truthy (v : option Z) : bool :=
  match v with
  | Some n => negb (n =? 0)
  | None => false
  end.

Definition resolve_or (preferred legacy : relay_ref) : exits (option Z) :=
  match _resolve_relay_ref preferred with
  | SystemExitMsg m => SystemExitMsg m
  | Returns a =>
      if truthy a then Returns a else _resolve_relay_ref legacy
  end.

(** ** The world a command runs in *)

Local Open Scope Q_scope.

Definition Qltb (x y : Q) : bool := negb (Qle_bool y x).

Inductive action : Type := OPEN | CLOSE.

(** One call of [Relay.open] or [Relay.close], stamped with the
    monotonic clock at the call. *)
Record op : Type := Op { op_at : Q; op_pin : Z; op_action : action }.

(** What [print] writes.  Lines are kept structured; the colour escapes
    of [_color] are not part of the model. *)
Inductive line : Type :=
| DryRunRelay (pin : Z) (name : string) (a : action)
| GuardSkipped (min_uptime_seconds : Q)
| GuardWaiting (remaining : Q)
| HoldingRelay
| MaintainedActive
| Probing
| ProbePhase (pin : Z) (name : string) (a : action) (seconds : Q)
| Interrupted
| KnownRelaysJson (table : list (string * Z))
| Text (s : string).

(** The exceptions that can leave [main].  [OverflowError] is that of
    an [int] too large to convert to float; [PinUnavailable] stands for
    what gpiozero raises when [OutputDevice(pin, ...)] cannot be
    constructed, [DeviceError] for what it raises when a write to a
    constructed device fails. *)
Inductive exn : Type :=
| KeyboardInterrupt
| SystemExit (msg : string)
| RuntimeError (msg : string)
| ArgumentTypeError (msg : string)
| AssertionError
| OverflowError
| PinUnavailable (pin : Z)
| DeviceError (pin : Z).

(** [Running]: the bound on the iterations of a [while True] loop was
    reached with the loop still going. *)
Inductive outcome (A : Type) : Type :=
| Ret (a : A)
| Raise (e : exn)
| Running.
Arguments Ret {A} a.
Arguments Raise {A} e.
Arguments Running {A}.

Record world : Type := World {
  monotonic : Q;              (* time.monotonic() *)
  sigint : option Q;          (* instant at which SIGINT is delivered *)
  proc_uptime : option Q;     (* first field of /proc/uptime, if readable *)
  gpiozero : bool;            (* whether gpiozero can be imported *)
  write_fails : nat -> bool;  (* whether the n-th device write raises *)
  writes : nat;               (* device writes attempted so far *)
  trace : list op;            (* relay operations called so far *)
  stdout : list line;
  device_fails : nat -> bool; (* whether the n-th OutputDevice(...) raises *)
  devices : nat               (* OutputDevice constructions attempted so far *)
}.

Definition set_clock (t : Q) (w : world) : world :=
  World t (sigint w) (proc_uptime w) (gpiozero w) (write_fails w)
        (writes w) (trace w) (stdout w)
        (device_fails w) (devices w).

Definition clear_sigint (w : world) : world :=
  World (monotonic w) None (proc_uptime w) (gpiozero w) (write_fails w)
        (writes w) (trace w) (stdout w)
        (device_fails w) (devices w).

Definition count_write (w : world) : world :=
  World (monotonic w) (sigint w) (proc_uptime w) (gpiozero w) (write_fails w)
        (S (writes w)) (trace w) (stdout w)
        (device_fails w) (devices w).

Definition add_op (o : op) (w : world) : world :=
  World (monotonic w) (sigint w) (proc_uptime w) (gpiozero w) (write_fails w)
        (writes w) (trace w ++ [o]) (stdout w)
        (device_fails w) (devices w).

Definition count_device (w : world) : world :=
  World (monotonic w) (sigint w) (proc_uptime w) (gpiozero w) (write_fails w)
        (writes w) (trace w) (stdout w)
        (device_fails w) (S (devices w)).

Definition add_line (l : line) (w : world) : world :=
  World (monotonic w) (sigint w) (proc_uptime w) (gpiozero w) (write_fails w)
        (writes w) (trace w) (stdout w ++ [l])
        (device_fails w) (devices w).

(** ** State and exception monad *)

Definition M (A : Type) : Type := world -> outcome A * world.

Definition ret {A : Type} (a : A) : M A := fun w => (Ret a, w).

Definition raise {A : Type} (e : exn) : M A := fun w => (Raise e, w).

Definition bind {A B : Type} (m : M A) (k : A -> M B) : M B :=
  fun w =>
    match m w with
    | (Ret a, w') => k a w'
    | (Raise e, w') => (Raise e, w')
    | (Running, w') => (Running, w')
    end.

Notation "x <- m ;; k" := (bind m (fun x => k))
  (at level 61, m at next level, right associativity).
Notation "m ;; k" := (bind m (fun _ => k))
  (at level 61, right associativity).

(** [try: body  except KeyboardInterrupt: pass] *)
Definition except_KeyboardInterrupt_pass (body : M unit) : M unit :=
  fun w =>
    match body w with
    | (Raise KeyboardInterrupt, w') => (Ret tt, w')
    | r => r
    end.

Definition lift_exits {A : Type} (r : exits A) : M A :=
  match r with
  | Returns a => ret a
  | SystemExitMsg m => raise (SystemExit m)
  end.

Fixpoint for_each {A : Type} (l : list A) (body : A -> M unit) : M unit :=
  match l with
  | [] => ret tt
  | x :: r => body x ;; for_each r body
  end.

Definition print (l : line) : M unit := fun w => (Ret tt, add_line l w).

Definition time_monotonic : M Q := fun w => (Ret (monotonic w), w).

(** [time.sleep(d)].  The clock moves only here.  The handler installed
    under [__main__] turns SIGINT into [KeyboardInterrupt], raised out of
    the sleep during which the signal arrives.  Relay calls and prints
    take no time in this model, so a signal whose instant is not after
    the current reading is raised by the next sleep as well; statements
    about where an interrupt strikes place it strictly inside a wait.
    Clock readings are kept in lowest terms. *)
Definition time_sleep (d : Q) : M unit :=
  fun w =>
    let wake := monotonic w + d in
    match sigint w with
    | Some t =>
        if Qltb t wake
        then (Raise KeyboardInterrupt,
              clear_sigint (set_clock (Qred (Qmax (monotonic w) t)) w))
        else (Ret tt, set_clock (Qred wake) w)
    | None => (Ret tt, set_clock (Qred wake) w)
    end.

(** ** Interruptible timer *)

Definition _read_uptime_seconds : M (option Q) :=
  fun w => (Ret (proc_uptime w), w).

Fixpoint sleep_loop (fuel : nat) (end_ : Q) : M unit :=
  match fuel with
  | O => fun w => (Running, w)
  | S k =>
      now <- time_monotonic ;;
      let remaining := end_ - now in
      if Qle_bool remaining 0 then ret tt
      else time_sleep (Qmin 0.2 remaining) ;; sleep_loop k end_
  end.

(** Number of turns of the [while True] loop that always suffices
    (see [slices_enough] and [_sleep_with_sigint_spec]). *)
Definition slices (seconds : Q) : nat :=
  S (Z.to_nat (Qceiling (Qmax 0 seconds / 0.2))).

Definition _sleep_with_sigint (seconds : Q) : M unit :=
  now <- time_monotonic ;;
  let end_ := now + Qmax 0.0 seconds in
  sleep_loop (slices seconds) end_.

(** [while True: time.sleep(1)], cut after [fuel] turns. *)
Fixpoint sleep_forever (fuel : nat) : M unit :=
  match fuel with
  | O => fun w => (Running, w)
  | S k => time_sleep 1 ;; sleep_forever k
  end.

(** ** Relay handle *)

Record RelayConfig : Type := { pin : Z; active_low : bool }.

Record Relay : Type := { _cfg : RelayConfig; _dry_run : bool }.

(** [Relay(cfg, dry_run=...)]: the live handle needs gpiozero, and
    [OutputDevice(cfg.pin, ...)] may raise in its turn (the pin is held
    by a device that is still alive, as with a pin repeated in the probe
    list, or it is no pin of the board); the exception is not caught.
    The device is created deactivated ([initial_value=False]); its
    creation is not counted as a relay operation. *)
Definition Relay_init (cfg : RelayConfig) (dry_run : bool) : M Relay :=
  fun w =>
    if dry_run then (Ret {| _cfg := cfg; _dry_run := true |}, w)
    else if gpiozero w then
      if device_fails w (devices w)
      then (Raise (PinUnavailable (pin cfg)), count_device w)
      else (Ret {| _cfg := cfg; _dry_run := false |}, count_device w)
    else (Raise (RuntimeError
            "gpiozero is required on the Pi (sudo apt install python3-gpiozero), or use --dry-run"),
          w).

(** [self._dev.off()] / [self._dev.on()] *)
Definition device_write (p : Z) : M unit :=
  fun w =>
    if write_fails w (writes w) then (Raise (DeviceError p), count_write w)
    else (Ret tt, count_write w).

Definition relay_call (r : Relay) (a : action) : M unit :=
  fun w =>
    let p := pin (_cfg r) in
    let w := add_op (Op (monotonic w) p a) w in
    if _dry_run r then print (DryRunRelay p (_relay_name_for_pin p) a) w
    else device_write p w.

Definition Relay_open (r : Relay) : M unit := relay_call r OPEN.
Definition Relay_close (r : Relay) : M unit := relay_call r CLOSE.

(** ** Boot guard *)

Definition _guard_after_boot (min_uptime_seconds : Q) (dry_run : bool) : M unit :=
  if Qle_bool min_uptime_seconds 0 then ret tt
  else
    uptime <- _read_uptime_seconds ;;
    match uptime with
    | None =>
        if dry_run then print (GuardSkipped min_uptime_seconds) else ret tt
    | Some up =>
        let remaining := min_uptime_seconds - up in
        if Qltb 0 remaining
        then print (GuardWaiting remaining) ;; _sleep_with_sigint remaining
        else ret tt
    end.

(** ** Patterns *)

(** The least magnitude of an [int] that has no float: it rounds to
    2^1024, one binade above the largest double. *)
Definition float_overflow : Z := 2 ^ 1024 - 2 ^ 970.

(** [float(n)] for an [int] [n]; [None] stands for [OverflowError]. *)
Definition int_to_float (n : Z) : option Q :=
  if (Z.abs n <? float_overflow)%Z then Some (inject_Z n) else None.

(** [n / d] for an [int] [n] and a float [d]. *)
Definition true_div (n : Z) (d : Q) : M Q :=
  match int_to_float n with
  | Some x => ret (x / d)
  | None => raise OverflowError
  end.

Definition cmd_pulse (relay : Relay) (pulse_ms : Z) : M unit :=
  Relay_open relay ;;
  Relay_close relay ;;
  seconds <- true_div pulse_ms 1000.0 ;;
  _sleep_with_sigint seconds ;;
  Relay_open relay.

Definition cmd_hold (fuel : nat) (relay : Relay) (hold_seconds : option Q) : M unit :=
  Relay_open relay ;;
  Relay_close relay ;;
  match hold_seconds with
  | None =>
      print HoldingRelay ;;
      except_KeyboardInterrupt_pass (sleep_forever fuel)
  | Some h => _sleep_with_sigint h
  end ;;
  Relay_open relay.

Definition cmd_maintained (fuel : nat) (relay : Relay) (hold_seconds : option Q) : M unit :=
  Relay_open relay ;;
  _sleep_with_sigint 1.0 ;;
  Relay_close relay ;;
  _sleep_with_sigint 0.250 ;;
  Relay_open relay ;;
  _sleep_with_sigint 0.250 ;;
  Relay_close relay ;;
  match hold_seconds with
  | None =>
      print MaintainedActive ;;
      except_KeyboardInterrupt_pass (sleep_forever fuel)
  | Some h => _sleep_with_sigint h
  end ;;
  Relay_open relay.

Definition probe_one (active_low : bool) (pulse_ms : Z) (open_seconds : Q)
    (close_seconds : option Q) (post_open_seconds : Q) (dry_run : bool)
    (p : Z) : M unit :=
  let relay_name := _relay_name_for_pin p in
  relay <- Relay_init {| pin := p; active_low := active_low |} dry_run ;;
  close_for <- match close_seconds with
               | Some c => ret c
               | None => true_div pulse_ms 1000.0
               end ;;
  Relay_open relay ;;
  (if Qltb 0 open_seconds
   then print (ProbePhase p relay_name OPEN open_seconds) ;;
        _sleep_with_sigint open_seconds
   else ret tt) ;;
  Relay_close relay ;;
  print (ProbePhase p relay_name CLOSE close_for) ;;
  _sleep_with_sigint close_for ;;
  Relay_open relay ;;
  (if Qltb 0 post_open_seconds
   then print (ProbePhase p relay_name OPEN post_open_seconds) ;;
        _sleep_with_sigint post_open_seconds
   else ret tt).

Definition cmd_probe (pins : list Z) (active_low : bool) (pulse_ms : Z)
    (open_seconds : Q) (close_seconds : option Q) (post_open_seconds : Q)
    (dry_run : bool) : M unit :=
  match pins with
  | [] => raise (SystemExit "probe requires at least one pin")
  | _ =>
      print Probing ;;
      for_each pins
        (probe_one active_low pulse_ms open_seconds close_seconds
                   post_open_seconds dry_run)
  end.

(** ** Command line and dispatch *)

Definition PHYSICAL_RELAY_NOTES : dict string :=
  [ ("low_flame", "physical relay #1 (furthest from USB ports)");
    ("high_flame", "physical relay #2 (next closer to USB ports)");
    ("aux_1", "physical relay #3 (closer to USB ports)");
    ("aux_2", "physical relay #4 (closest to USB ports)") ].

Inductive command : Type :=
| ListRelays | Ignite | On | Off | High | Low | PulseHigh | Probe.

(** The [argparse] namespace [main] works on, as [parse_args] returned
    it.  A field a sub-command does not define is never read for that
    sub-command. *)
Module Args.

Record t : Type := Make {
  cmd : command;
  json : bool;
  main_relay : option string;
  high_relay : option string;
  pin_main : option Z;
  pin_high : option Z;
  active_low : bool;
  boot_guard_seconds : Q;
  dry_run : bool;
  pulse_ms : Z;
  maintained : bool;
  hold_seconds : option Q;
  pins : string;
  open_seconds : Q;
  close_seconds : option Q;
  post_open_seconds : Q
}.

(** The defaults of [build_parser] with no environment variable set. *)
Definition defaults (c : command) : t :=
  {| cmd := c;
     json := false;
     main_relay := None;
     high_relay := None;
     pin_main := None;
     pin_high := None;
     active_low := false;
     boot_guard_seconds := 12.0;
     dry_run := false;
     pulse_ms := match c with Probe => 300 | _ => 250 end;
     maintained := false;
     hold_seconds := None;
     pins := "4,22,6,26";
     open_seconds := 0.0;
     close_seconds := None;
     post_open_seconds := 0.5 |}.

Definition with_boot_guard (g : Q) (a : t) : t :=
  Make (cmd a) (json a) (main_relay a) (high_relay a) (pin_main a)
       (pin_high a) (active_low a) g (dry_run a)
       (pulse_ms a) (maintained a) (hold_seconds a) (pins a) (open_seconds a)
       (close_seconds a) (post_open_seconds a).

Definition with_pulse_ms (p : Z) (a : t) : t :=
  Make (cmd a) (json a) (main_relay a) (high_relay a) (pin_main a)
       (pin_high a) (active_low a) (boot_guard_seconds a) (dry_run a)
       p (maintained a) (hold_seconds a) (pins a) (open_seconds a)
       (close_seconds a) (post_open_seconds a).

End Args.

Definition str_ref (v : option string) : relay_ref :=
  match v with
  | Some s => RStr s
  | None => RNone
  end.

Definition int_ref (v : option Z) : relay_ref :=
  match v with
  | Some n => RInt n
  | None => RNone
  end.

Definition _parse_pin (value : string) : M Z :=
  match Text.int value with
  | Some n => ret n
  | None => raise (ArgumentTypeError "pin must be an integer GPIO (BCM numbering)")
  end.

Fixpoint parse_pins (l : list string) : M (list Z) :=
  match l with
  | [] => ret []
  | p :: r => n <- _parse_pin p ;; ns <- parse_pins r ;; ret (n :: ns)
  end.

Definition list_relays_line (name : string) : line :=
  let p := match get KNOWN_RELAYS name with Some p => p | None => 0%Z end in
  match get PHYSICAL_RELAY_NOTES name with
  | Some note =>
      if String.eqb note "" then Text ("- " ++ name ++ " -> " ++ Show.int p)
      else Text ("- " ++ name ++ " -> " ++ Show.int p ++ " (" ++ note ++ ")")
  | None => Text ("- " ++ name ++ " -> " ++ Show.int p)
  end.

(** The set literal [{"ignite", "on", "off"}] of the boot-guard test. *)
Definition guarded (c : command) : bool :=
  match c with
  | Ignite | On | Off => true
  | _ => false
  end.

Definition needs_main (c : command) : bool :=
  match c with
  | Ignite | On | Off => true
  | _ => false
  end.

Definition needs_high (c : command) : bool :=
  match c with
  | High | Low | PulseHigh => true
  | _ => false
  end.

Definition select_relay (needed : bool) (p : option Z) (missing : string)
    (a : Args.t) : M (option Relay) :=
  if needed then
    match p with
    | None => raise (SystemExit missing)
    | Some n =>
        r <- Relay_init {| pin := n; active_low := Args.active_low a |}
                        (Args.dry_run a) ;;
        ret (Some r)
    end
  else ret None.

Definition open_if_present (r : option Relay) : M unit :=
  match r with
  | Some relay => Relay_open relay
  | None => ret tt
  end.

Definition asserted (r : option Relay) (k : Relay -> M Z) : M Z :=
  match r with
  | Some relay => k relay
  | None => raise AssertionError
  end.

(** [main], from the line after [parse_args] on. *)
Definition main (fuel : nat) (args : Args.t) : M Z :=
  match Args.cmd args with
  | ListRelays =>
      (if Args.json args
       then print (KnownRelaysJson
                     (map (fun name =>
                             (name, match get KNOWN_RELAYS name with
                                    | Some p => p
                                    | None => 0%Z
                                    end))
                          (Text.sorted (keys KNOWN_RELAYS))))
       else
         print (Text "Known relays (name -> BCM pin):") ;;
         for_each (Text.sorted (keys KNOWN_RELAYS))
                  (fun name => print (list_relays_line name)) ;;
         print (Text "You can also pass a BCM pin directly (e.g. --main-relay 4).")) ;;
      ret 0%Z
  | Probe =>
      let pins := filter (fun p => negb (String.eqb p ""))
                         (map Text.strip (Text.split_comma (Args.pins args))) in
      ns <- parse_pins pins ;;
      cmd_probe ns (Args.active_low args) (Args.pulse_ms args)
                (Args.open_seconds args) (Args.close_seconds args)
                (Args.post_open_seconds args) (Args.dry_run args) ;;
      ret 0%Z
  | c =>
      main_pin <- lift_exits (resolve_or (str_ref (Args.main_relay args))
                                         (int_ref (Args.pin_main args))) ;;
      high_pin <- lift_exits (resolve_or (str_ref (Args.high_relay args))
                                         (int_ref (Args.pin_high args))) ;;
      main_relay <- select_relay (needs_main c) main_pin
        "Set --main-relay (preferred) / --pin-main, or FIREPLACE_MAIN_RELAY / FIREPLACE_PIN_MAIN"
        args ;;
      high_relay <- select_relay (needs_high c) high_pin
        "Set --high-relay (preferred) / --pin-high, or FIREPLACE_HIGH_RELAY / FIREPLACE_PIN_HIGH"
        args ;;
      open_if_present main_relay ;;
      open_if_present high_relay ;;
      (if guarded c
       then _guard_after_boot (Args.boot_guard_seconds args) (Args.dry_run args)
       else ret tt) ;;
      match c with
      | Ignite =>
          asserted main_relay (fun relay =>
            (if Args.maintained args
             then cmd_maintained fuel relay (Args.hold_seconds args)
             else cmd_pulse relay (Args.pulse_ms args)) ;;
            ret 0%Z)
      | On =>
          asserted main_relay (fun relay =>
            cmd_hold fuel relay (Args.hold_seconds args) ;; ret 0%Z)
      | Off =>
          asserted main_relay (fun relay => Relay_open relay ;; ret 0%Z)
      | High =>
          asserted high_relay (fun relay =>
            cmd_hold fuel relay (Args.hold_seconds args) ;; ret 0%Z)
      | Low =>
          asserted high_relay (fun relay => Relay_open relay ;; ret 0%Z)
      | PulseHigh =>
          asserted high_relay (fun relay =>
            cmd_pulse relay (Args.pulse_ms args) ;; ret 0%Z)
      | ListRelays | Probe => raise (SystemExit "Unknown command")
      end
  end.

(** How the process ends. *)
Inductive status : Type :=
| Exited (code : Z)
| Died (e : exn)
| StillRunning.

(** The exit status the shell sees: an uncaught exception, [SystemExit]
    with a message included, gives 1. *)
Definition exit_code (s : status) : option Z :=
  match s with
  | Exited c => Some c
  | Died _ => Some 1%Z
  | StillRunning => None
  end.

(** The [if __name__ == "__main__"] block. *)
Definition __main__ (fuel : nat) (argv : Args.t) (w : world) : status * world :=
  match main fuel argv w with
  | (Ret code, w') => (Exited code, w')
  | (Raise KeyboardInterrupt, w') => (Exited 130, add_line Interrupted w')
  | (Raise e, w') => (Died e, w')
  | (Running, w') => (StillRunning, w')
  end.

(** * Vocabulary of the properties *)

Local Open Scope list_scope.

(** Whether the interrupt is delivered before [deadline]. *)
Definition due (w : world) (deadline : Q) : bool :=
  match sigint w with
  | Some t => Qltb t deadline
  | None => false
  end.

(** The world right after the interrupt struck a sleep. *)
Definition interrupted (w : world) : world :=
  match sigint w with
  | Some t => clear_sigint (set_clock (Qred (Qmax (monotonic w) t)) w)
  | None => w
  end.

(** The world after an undisturbed wait of [d] seconds. *)
Definition advance (d : Q) (w : world) : world :=
  if Qltb 0 d then set_clock (Qred (monotonic w + d)) w else w.

(** The world after a relay call whose write succeeds. *)
Definition did (r : Relay) (a : action) (w : world) : world :=
  let p := pin (_cfg r) in
  let w1 := add_op (Op (monotonic w) p a) w in
  if _dry_run r then add_line (DryRunRelay p (_relay_name_for_pin p) a) w1
  else count_write w1.

(** Writes through [r] cannot fail: it is simulated, or no write of this
    world fails. *)
Definition relay_ok (r : Relay) (w : world) : Prop :=
  _dry_run r = true \/ forall n, write_fails w n = false.

(** Traces compared up to the value of their time stamps. *)
Definition op_eq (a b : op) : Prop :=
  op_at a == op_at b /\ op_pin a = op_pin b /\ op_action a = op_action b.

Definition trace_eq : list op -> list op -> Prop := Forall2 op_eq.

(** The last call made on channel [p], if any. *)
Definition last_action (p : Z) (tr : list op) : option action :=
  match filter (fun o => Z.eqb (op_pin o) p) (rev tr) with
  | o :: _ => Some (op_action o)
  | [] => None
  end.

Definition canonical_pins : list Z := map snd KNOWN_RELAYS.

Definition missing_main : string :=
  "Set --main-relay (preferred) / --pin-main, or FIREPLACE_MAIN_RELAY / FIREPLACE_PIN_MAIN".

Definition missing_high : string :=
  "Set --high-relay (preferred) / --pin-high, or FIREPLACE_HIGH_RELAY / FIREPLACE_PIN_HIGH".

(** A simulated world at clock 0 with a long uptime, no interrupt. *)
Definition calm : world :=
  World 0 None (Some 100.0) true (fun _ => false) 0 [] [] (fun _ => false) 0.

(** [fireplace off --main-relay "  " --dry-run] *)
Definition off_blank : Args.t :=
  Args.Make Off false (Some "  "%string) None None None false 12.0
            true 250 false None "" 0 None 0.

(** Clock 0, five seconds after boot, no interrupt. *)
Definition just_booted : world :=
  World 0 None (Some 5.0) true (fun _ => false) 0 [] [] (fun _ => false) 0.

(** Clock 0, [/proc/uptime] unreadable. *)
Definition blind : world :=
  World 0 None None true (fun _ => false) 0 [] [] (fun _ => false) 0.

(** The first seven steps of the maintained call, up to the second
    closure, when no interrupt arrives before it. *)
Definition maintained_prefix (relay : Relay) (w : world) : world :=
  did relay CLOSE
    (advance 0.250
       (did relay OPEN
          (advance 0.250
             (did relay CLOSE
                (advance 1.0
                   (did relay OPEN w)))))).

(** [fireplace ignite --maintained --dry-run] drives this handle. *)
Definition sim4 : Relay :=
  {| _cfg := {| pin := 4; active_low := false |}; _dry_run := true |}.

(** Simulated, or live with the driver present, every device it is
    asked for and no failing write. *)
Definition hardware_ok (dry : bool) (w : world) : Prop :=
  dry = true \/
  (gpiozero w = true /\ (forall n, device_fails w n = false) /\
   forall n, write_fails w n = false).

(** The world after the construction of a handle that succeeds. *)
Definition built (dry : bool) (w : world) : world :=
  if dry then w else count_device w.

(** The world after an optional, announced wait. *)
Definition waited (l : line) (d : Q) (w : world) : world :=
  if Qltb 0 d then advance d (add_line l w) else w.

(** What the specification expects of one probed channel, starting at
    [t]: open, wait(open), close, wait(close), open. *)
Definition probe_cycle (t : Q) (p : Z) (open_s close_s : Q) : list op :=
  [ Op t p OPEN;
    Op (t + Qmax 0 open_s) p CLOSE;
    Op (t + Qmax 0 open_s + Qmax 0 close_s) p OPEN ].

(** ... and of the whole sweep: the cycles one after the other, in the
    order of the list, each followed by wait(post). *)
Fixpoint probe_sweep (t : Q) (pins : list Z) (open_s close_s post_s : Q) : list op :=
  match pins with
  | [] => []
  | p :: rest =>
      probe_cycle t p open_s close_s ++
      probe_sweep (t + Qmax 0 open_s + Qmax 0 close_s + Qmax 0 post_s)
                  rest open_s close_s post_s
  end.

Definition close_for (pulse_ms : Z) (close_seconds : option Q) : Q :=
  match close_seconds with
  | Some c => c
  | None => inject_Z pulse_ms / 1000.0
  end.

(** The cycle of the specification's determinism property:
    open, wait(0), close, wait(0.3), open (and then wait(0.5)). *)
Definition default_cycle (t : Q) (p : Z) : list op :=
  [ Op t p OPEN; Op (t + 0) p CLOSE; Op (t + 0 + 0.3) p OPEN ].

(** [fireplace ignite --main-relay low_flame --dry-run] *)
Definition ignite_sim : Args.t :=
  Args.Make Ignite false (Some "low_flame"%string) None None None false 12.0
            true 250 false None "" 0 None 0.

(** [fireplace on --main-relay low_flame --hold-seconds 2 --dry-run] *)
Definition on_timed_sim : Args.t :=
  Args.Make On false (Some "low_flame"%string) None None None false 12.0
            true 250 false (Some 2.0) "" 0 None 0.

(** [fireplace on --main-relay low_flame --dry-run], held until Ctrl+C *)
Definition on_sim : Args.t :=
  Args.Make On false (Some "low_flame"%string) None None None false 12.0
            true 250 false None "" 0 None 0.

(** As [calm], with the operator's Ctrl+C arriving 0.1 s after the start. *)
Definition ctrl_c : world :=
  World 0 (Some 0.1) (Some 100.0) true (fun _ => false) 0 [] [] (fun _ => false) 0.

(** A computation stops at its first failing device write: that write is
    the last one attempted, the call that made it is the last relay
    operation on record, and the failure leaves as [DeviceError]. *)
Definition fail_stop {A : Type} (m : M A) : Prop :=
  forall (w : world) (o : outcome A) (w' : world),
    m w = (o, w') ->
    write_fails w' = write_fails w /\
    (writes w <= writes w')%nat /\
    (forall n : nat,
        (writes w <= n < writes w')%nat -> write_fails w n = true ->
        S n = writes w' /\
        exists p a tr,
          o = Raise (DeviceError p) /\
          trace w' = tr ++ [Op (monotonic w') p a]).

(** A computation that never touches a relay or the device. *)
Definition no_write {A : Type} (m : M A) : Prop :=
  forall (w : world) (o : outcome A) (w' : world),
    m w = (o, w') ->
    write_fails w' = write_fails w /\ writes w' = writes w /\
    trace w' = trace w.

(** [fireplace on --main-relay low_flame] on the live board *)
Definition on_live : Args.t :=
  Args.Make On false (Some "low_flame"%string) None None None false 12.0
            false 250 false None "" 0 None 0.

(** As [calm], but the third device write (the closure) fails. *)
Definition faulty : world :=
  World 0 None (Some 100.0) true (fun n => Nat.eqb n 2) 0 [] [] (fun _ => false) 0.

(** Every relay operation a computation makes is an [open]. *)
Definition only_opens {A : Type} (m : M A) : Prop :=
  forall (w : world) (o : outcome A) (w' : world),
    m w = (o, w') ->
    exists l, trace w' = trace w ++ l /\
              Forall (fun x => op_action x = OPEN) l.

(** [fireplace off --main-relay low_flame --dry-run] *)
Definition off_sim : Args.t :=
  Args.Make Off false (Some "low_flame"%string) None None None false 12.0
            true 250 false None "" 0 None 0.

(** The pieces of [--pins] that [main] hands to [_parse_pin]. *)
Definition probe_pieces (pins : string) : list string :=
  filter (fun p => negb (String.eqb p ""))
         (map Text.strip (Text.split_comma pins)).

(** [int] over a list, failing as soon as one piece is not a number. *)
Fixpoint ints (l : list string) : option (list Z) :=
  match l with
  | [] => Some []
  | p :: r =>
      match Text.int p with
      | Some n => option_map (cons n) (ints r)
      | None => None
      end
  end.

Definition pin_type_error : exn :=
  ArgumentTypeError "pin must be an integer GPIO (BCM numbering)".

Definition gpiozero_missing : exn :=
  RuntimeError
    "gpiozero is required on the Pi (sudo apt install python3-gpiozero), or use --dry-run".

(** The commands that drive a relay selected by name or pin. *)
Definition relay_command (c : command) : bool :=
  match c with
  | ListRelays | Probe => false
  | _ => true
  end.

(** [fireplace probe --pins "4,x" --dry-run] *)
Definition probe_bad_pin : Args.t :=
  Args.Make Probe false None None None None false 12.0
            true 300 false None "4,x" 0.0 None 0.5.

(** [fireplace low --main-relay bogus --high-relay high_flame --dry-run] *)
Definition low_bogus_main : Args.t :=
  Args.Make Low false (Some "bogus"%string) (Some "high_flame"%string) None None
            false 12.0 true 250 false None "" 0 None 0.

(** As [calm], on a machine without gpiozero. *)
Definition no_driver : world :=
  World 0 None (Some 100.0) false (fun _ => false) 0 [] [] (fun _ => false) 0.

(** A computation that leaves the device alone and ends neither with a
    device error nor with the driver error. *)
Definition simulated {A : Type} (m : M A) : Prop :=
  forall (w : world) (o : outcome A) (w' : world),
    m w = (o, w') ->
    writes w' = writes w /\
    (forall p, o <> Raise (DeviceError p)) /\
    (forall s, o <> Raise (RuntimeError s)).

(** The handle, if there is one, is a simulated one. *)
Definition dry_handle (r : option Relay) : Prop :=
  forall relay, r = Some relay -> _dry_run relay = true.

(** As [ctrl_c], on a machine without gpiozero whose every device write
    would fail. *)
Definition hostile : world :=
  World 0 (Some 0.1) None false (fun _ => true) 0 [] [] (fun _ => false) 0.

(** The first call made on channel [p] in a run of operations, if any. *)
Fixpoint first_action (p : Z) (l : list op) : option action :=
  match l with
  | [] => None
  | o :: r => if Z.eqb (op_pin o) p then Some (op_action o) else first_action p r
  end.

(** Every relay operation the computation makes is on channel [p]. *)
Definition only_pin {A : Type} (p : Z) (m : M A) : Prop :=
  forall (w : world) (o : outcome A) (w' : world),
    m w = (o, w') ->
    exists l, trace w' = trace w ++ l /\ Forall (fun x => op_pin x = p) l.

(** However the computation ends, no channel has a [close] as the first
    operation made on it. *)
Definition opens_first {A : Type} (m : M A) : Prop :=
  forall (w : world) (o : outcome A) (w' : world),
    m w = (o, w') ->
    exists l, trace w' = trace w ++ l /\
              forall q, first_action q l <> Some CLOSE.

(** When the computation returns, no channel has a [close] as the last
    operation made on it. *)
Definition settles {A : Type} (m : M A) : Prop :=
  forall (w : world) (a : A) (w' : world),
    m w = (Ret a, w') ->
    exists l, trace w' = trace w ++ l /\
              forall q, last_action q l <> Some CLOSE.

(** When the computation returns, it has worked on channel [p] only and
    its last operation was an [open]. *)
Definition ends_open_on {A : Type} (p : Z) (m : M A) : Prop :=
  forall (w : world) (a : A) (w' : world),
    m w = (Ret a, w') ->
    exists l t, trace w' = trace w ++ l ++ [Op t p OPEN] /\
                Forall (fun x => op_pin x = p) l.

(** [fireplace ignite --maintained --hold-seconds 2 --main-relay low_flame
    --dry-run] *)
Definition maintained_sim : Args.t :=
  Args.Make Ignite false (Some "low_flame"%string) None None None false 12.0
            true 250 true (Some 2.0) "" 0 None 0.

(** The clock never goes back, the uptime reading stays what it was, and
    every relay operation made is stamped at or after the start. *)
Definition stamped {A : Type} (m : M A) : Prop :=
  forall (w : world) (o : outcome A) (w' : world),
    m w = (o, w') ->
    monotonic w <= monotonic w' /\
    proc_uptime w' = proc_uptime w /\
    exists l, trace w' = trace w ++ l /\
              Forall (fun x => monotonic w <= op_at x) l.

(** No time passes, and the only relay operations made are opens. *)
Definition still_opens {A : Type} (m : M A) : Prop :=
  forall (w : world) (o : outcome A) (w' : world),
    m w = (o, w') ->
    monotonic w' = monotonic w /\
    proc_uptime w' = proc_uptime w /\
    exists l, trace w' = trace w ++ l /\
              Forall (fun x => op_action x = OPEN) l.

(** With an uptime reading of [up] at the start, no [close] is made
    before the clock has moved on by [g - up]. *)
Definition closes_late {A : Type} (g up : Q) (m : M A) : Prop :=
  forall (w : world) (o : outcome A) (w' : world),
    m w = (o, w') ->
    proc_uptime w = Some up ->
    exists l, trace w' = trace w ++ l /\
              Forall (fun x => op_action x = CLOSE ->
                               monotonic w + (g - up) <= op_at x) l.

(** As [just_booted], with a failing third write and Ctrl+C after 9 s. *)
Definition rough_boot : world :=
  World 0 (Some 9.0) (Some 5.0) true (fun n => Nat.eqb n 2) 0 [] [] (fun _ => false) 0.

(** No character of the string is white space. *)
Fixpoint spaceless (s : string) : bool :=
  match s with
  | EmptyString => true
  | String c r => negb (Text.is_space c) && spaceless r
  end.

(** Every character of the string is white space. *)
Fixpoint blank (s : string) : bool :=
  match s with
  | EmptyString => true
  | String c r => Text.is_space c && blank r
  end.

(** As [just_booted], with Ctrl+C arriving 3 s after the start. *)
Definition early_ctrl_c : world :=
  World 0 (Some 3.0) (Some 5.0) true (fun _ => false) 0 [] [] (fun _ => false) 0.

(** The integer has a float: dividing it by a float does not overflow. *)
Definition fits_float (n : Z) : Prop := (Z.abs n < float_overflow)%Z.

(** The close wait of the probe can be computed: it is given, or the
    pulse width has a float. *)
Definition close_for_ok (pulse_ms : Z) (close_seconds : option Q) : Prop :=
  close_seconds = None -> fits_float pulse_ms.

(** Same driver, same devices, same write failures. *)
Definition same_hardware (w w' : world) : Prop :=
  gpiozero w' = gpiozero w /\
  device_fails w' = device_fails w /\
  write_fails w' = write_fails w.

(** How long a sweep over [n] channels lasts. *)
Definition sweep_seconds (n : nat) (open_s close_s post_s : Q) : Q :=
  inject_Z (Z.of_nat n) * (Qmax 0 open_s + Qmax 0 close_s + Qmax 0 post_s).

(** The handle [main] and [cmd_probe] build for a pin. *)
Definition handle (p : Z) (al dry : bool) : Relay :=
  {| _cfg := {| pin := p; active_low := al |}; _dry_run := dry |}.

(** What [main] runs on the relay it has selected and opened, once the
    boot guard is behind it. *)
Definition pattern (fuel : nat) (args : Args.t) (relay : Relay) : M Z :=
  match Args.cmd args with
  | Ignite =>
      (if Args.maintained args
       then cmd_maintained fuel relay (Args.hold_seconds args)
       else cmd_pulse relay (Args.pulse_ms args)) ;;
      ret 0%Z
  | On | High => cmd_hold fuel relay (Args.hold_seconds args) ;; ret 0%Z
  | Off | Low => Relay_open relay ;; ret 0%Z
  | PulseHigh => cmd_pulse relay (Args.pulse_ms args) ;; ret 0%Z
  | ListRelays | Probe => raise (SystemExit "Unknown command")
  end.

(** A property of worlds that depends on the hardware only. *)
Definition stable (ok : world -> Prop) : Prop :=
  forall w w', same_hardware w w' -> ok w -> ok w'.

(** A step that takes [d] seconds and gives way to the interrupt: with
    the interrupt due at [t], not before the step starts, the step
    raises [KeyboardInterrupt] if [t] falls within the [d] seconds, and
    otherwise completes after exactly [d] seconds, the interrupt still
    to come. *)
Definition timed (ok : world -> Prop) (d : Q) (m : M unit) : Prop :=
  forall (w : world) (t : Q),
    ok w -> sigint w = Some t -> monotonic w <= t ->
    (t < monotonic w + d -> fst (m w) = Raise KeyboardInterrupt) /\
    (monotonic w + d <= t ->
       exists w', m w = (Ret tt, w') /\
                  monotonic w' == monotonic w + d /\
                  sigint w' = Some t /\ ok w').

(** A computation that the interrupt ends, with [KeyboardInterrupt],
    when it is due within the first [d] seconds. *)
Definition breaks {A : Type} (ok : world -> Prop) (d : Q) (m : M A) : Prop :=
  forall (w : world) (t : Q),
    ok w -> sigint w = Some t -> monotonic w <= t ->
    t < monotonic w + d -> fst (m w) = Raise KeyboardInterrupt.

(** One channel of the sweep, from the handle on. *)
Definition probe_body (relay : Relay) (p : Z) (open_seconds close_for
    post_open_seconds : Q) : M unit :=
  let relay_name := _relay_name_for_pin p in
  Relay_open relay ;;
  (if Qltb 0 open_seconds
   then print (ProbePhase p relay_name OPEN open_seconds) ;;
        _sleep_with_sigint open_seconds
   else ret tt) ;;
  Relay_close relay ;;
  print (ProbePhase p relay_name CLOSE close_for) ;;
  _sleep_with_sigint close_for ;;
  Relay_open relay ;;
  (if Qltb 0 post_open_seconds
   then print (ProbePhase p relay_name OPEN post_open_seconds) ;;
        _sleep_with_sigint post_open_seconds
   else ret tt).

(** * Properties *)

(** ** Rational arithmetic helpers *)

Lemma Qltb_true (x y : Q) : Qltb x y = true <-> x < y.
Proof.
  unfold Qltb. rewrite negb_true_iff. split; intro H.
  - apply Qnot_le_lt. intro Hle. apply Qle_bool_iff in Hle. congruence.
  - destruct (Qle_bool y x) eqn:E; [|reflexivity].
    apply Qle_bool_iff in E. exfalso. apply (Qlt_not_le _ _ H E).
Qed.

Lemma Qltb_false (x y : Q) : Qltb x y = false <-> y <= x.
Proof.
  unfold Qltb. rewrite negb_false_iff. apply Qle_bool_iff.
Qed.

Lemma Qle_bool_false (x y : Q) : Qle_bool x y = false <-> y < x.
Proof.
  rewrite <- Qltb_true. unfold Qltb. rewrite negb_true_iff. reflexivity.
Qed.

Lemma inject_nat_succ (n : nat) :
  inject_Z (Z.of_nat (S n)) == inject_Z (Z.of_nat n) + 1.
Proof.
  rewrite Nat2Z.inj_succ. unfold Z.succ. rewrite inject_Z_plus. reflexivity.
Qed.

Lemma inject_nat_nonneg (n : nat) : 0 <= inject_Z (Z.of_nat n).
Proof.
  change 0 with (inject_Z 0). rewrite <- Zle_Qle. lia.
Qed.

(** ** The timer *)

Lemma set_clock_twice (a b : Q) (w : world) :
  set_clock a (set_clock b w) = set_clock a w.
Proof. reflexivity. Qed.

Lemma sleep_loop_spec (n : nat) :
  forall (end_ : Q) (w : world),
    end_ - monotonic w <= 0.2 * inject_Z (Z.of_nat n) ->
    sleep_loop (S n) end_ w =
      if Qle_bool (end_ - monotonic w) 0 then (Ret tt, w)
      else if due w end_ then (Raise KeyboardInterrupt, interrupted w)
      else (Ret tt, set_clock (Qred end_) w).
Proof.
  induction n as [|m IH]; intros end_ w Hfuel.
  - assert (Hz : 0.2 * inject_Z (Z.of_nat 0) == 0) by reflexivity.
    assert (Hle : end_ - monotonic w <= 0) by (rewrite Hz in Hfuel; exact Hfuel).
    apply Qle_bool_iff in Hle.
    simpl. unfold bind, time_monotonic. rewrite Hle. reflexivity.
  - pose proof (inject_nat_succ m) as Hs.
    pose proof (inject_nat_nonneg m) as Hm.
    change (sleep_loop (S (S m)) end_ w)
      with ((if Qle_bool (end_ - monotonic w) 0 then ret tt
             else time_sleep (Qmin 0.2 (end_ - monotonic w)) ;;
                  sleep_loop (S m) end_) w).
    destruct (Qle_bool (end_ - monotonic w) 0) eqn:Hrem; [reflexivity|].
    apply Qle_bool_false in Hrem.
    set (rem := end_ - monotonic w) in *.
    assert (Hmin : 0 < Qmin 0.2 rem /\ Qmin 0.2 rem <= rem /\
                   rem - Qmin 0.2 rem <= 0.2 * inject_Z (Z.of_nat m)).
    { destruct (Q.min_spec 0.2 rem) as [[Hlt Heq]|[Hle Heq]];
        rewrite Heq; repeat split; lra. }
    destruct Hmin as (Hpos & Hmin_le & Hleft).
    set (wake := monotonic w + Qmin 0.2 rem).
    assert (Hwake : wake <= end_) by (unfold wake, rem in *; lra).
    assert (Hnext : forall w1, monotonic w1 = Qred wake ->
                     end_ - monotonic w1 <= 0.2 * inject_Z (Z.of_nat m)).
    { intros w1 E. rewrite E, Qred_correct. unfold wake, rem in *. lra. }
    assert (Hcont : sigint w = None \/ (exists t, sigint w = Some t /\ wake <= t) ->
      sleep_loop (S m) end_ (set_clock (Qred wake) w) =
      if due w end_ then (Raise KeyboardInterrupt, interrupted w)
      else (Ret tt, set_clock (Qred end_) w)).
    { intros Hsig.
      rewrite (IH end_ (set_clock (Qred wake) w)
                  (Hnext (set_clock (Qred wake) w) eq_refl)).
      cbn [monotonic set_clock].
      destruct (Qle_bool (end_ - Qred wake) 0) eqn:Hdone.
      - apply Qle_bool_iff in Hdone. rewrite Qred_correct in Hdone.
        assert (Heq : wake == end_) by lra.
        assert (Hnd : due w end_ = false).
        { unfold due. destruct Hsig as [->|(t & -> & Ht)]; [reflexivity|].
          apply Qltb_false. lra. }
        rewrite Hnd. rewrite (Qred_complete _ _ Heq). reflexivity.
      - assert (Hd : due (set_clock (Qred wake) w) end_ = due w end_) by reflexivity.
        rewrite Hd. destruct (due w end_) eqn:Hdue; [|reflexivity].
        unfold due in Hdue. unfold interrupted. cbn [sigint set_clock monotonic].
        destruct Hsig as [Hn|(t & Ht & Hle)]; rewrite ?Hn, ?Ht in *; [discriminate|].
        assert (E : Qmax (Qred wake) t == Qmax (monotonic w) t).
        { rewrite Q.max_r by (rewrite Qred_correct; exact Hle).
          rewrite Q.max_r by (unfold wake in Hle; lra). reflexivity. }
        rewrite (Qred_complete _ _ E). reflexivity. }
    unfold bind, time_sleep. fold rem. fold wake.
    destruct (sigint w) as [t|] eqn:Hsig.
    + destruct (Qltb t wake) eqn:Ht.
      * apply Qltb_true in Ht.
        assert (Hdue : due w end_ = true).
        { unfold due. rewrite Hsig. apply Qltb_true. lra. }
        rewrite Hdue. unfold interrupted. rewrite Hsig. reflexivity.
      * apply Qltb_false in Ht. apply Hcont. right. exists t. split; [reflexivity|exact Ht].
    + apply Hcont. left. reflexivity.
Qed.

Lemma Qltb_compat (x y y' : Q) : y == y' -> Qltb x y = Qltb x y'.
Proof.
  intro E. destruct (Qltb x y') eqn:H.
  - apply Qltb_true. apply Qltb_true in H. lra.
  - apply Qltb_false. apply Qltb_false in H. lra.
Qed.

Lemma slices_enough (d : Q) :
  Qmax 0.0 d <= 0.2 * inject_Z (Z.of_nat (Z.to_nat (Qceiling (Qmax 0 d / 0.2)))).
Proof.
  assert (Hnn : 0 <= Qmax 0 d) by apply Q.le_max_l.
  assert (Hsame : Qmax 0.0 d == Qmax 0 d).
  { apply Q.max_compat; reflexivity. }
  set (x := Qmax 0 d / 0.2).
  assert (Hx : Qmax 0 d == 0.2 * x) by (unfold x; field).
  assert (Hx0 : 0 <= x) by lra.
  assert (Hc : (0 <= Qceiling x)%Z).
  { change 0%Z with (Qceiling (inject_Z 0)) at 1.
    rewrite <- (Qceiling_Z 0). apply Qceiling_resp_le. exact Hx0. }
  rewrite Z2Nat.id by exact Hc.
  pose proof (Qle_ceiling x) as Hle. lra.
Qed.

(** The timer, completely: it returns at the deadline unless the
    interrupt is delivered first, in which case [KeyboardInterrupt]
    leaves it at that instant. *)
Lemma _sleep_with_sigint_spec (d : Q) (w : world) :
  _sleep_with_sigint d w =
    if Qltb 0 d && due w (monotonic w + d)
    then (Raise KeyboardInterrupt, interrupted w)
    else (Ret tt, advance d w).
Proof.
  unfold _sleep_with_sigint, bind, time_monotonic, slices.
  rewrite sleep_loop_spec.
  2:{ pose proof (slices_enough d). lra. }
  unfold advance.
  destruct (Qltb 0 d) eqn:Hd.
  - apply Qltb_true in Hd.
    assert (Hmax : Qmax 0.0 d == d) by (apply Q.max_r; lra).
    assert (Hrem : Qle_bool (monotonic w + Qmax 0.0 d - monotonic w) 0 = false).
    { apply Qle_bool_false. lra. }
    rewrite Hrem. cbn [andb].
    assert (Hend : monotonic w + Qmax 0.0 d == monotonic w + d) by lra.
    assert (Hdue : due w (monotonic w + Qmax 0.0 d) = due w (monotonic w + d)).
    { unfold due. destruct (sigint w); [|reflexivity].
      apply Qltb_compat. exact Hend. }
    rewrite Hdue, (Qred_complete _ _ Hend). reflexivity.
  - apply Qltb_false in Hd.
    assert (Hmax : Qmax 0.0 d == 0.0) by (apply Q.max_l; lra).
    assert (Hrem : Qle_bool (monotonic w + Qmax 0.0 d - monotonic w) 0 = true).
    { apply Qle_bool_iff. rewrite Hmax. lra. }
    rewrite Hrem. reflexivity.
Qed.

(** The unbounded loop of the indefinite hold ends only by the interrupt. *)
Lemma sleep_forever_interrupted (n : nat) :
  forall (w : world) (t : Q),
    sigint w = Some t ->
    t < monotonic w + inject_Z (Z.of_nat (S n)) ->
    sleep_forever (S n) w = (Raise KeyboardInterrupt, interrupted w).
Proof.
  induction n as [|m IH]; intros w t Hsig Ht.
  - cbn [sleep_forever]. unfold bind, time_sleep. rewrite Hsig.
    assert (E : Qltb t (monotonic w + 1) = true).
    { apply Qltb_true. change (inject_Z (Z.of_nat 1)) with 1 in Ht. exact Ht. }
    rewrite E. unfold interrupted. rewrite Hsig. reflexivity.
  - change (sleep_forever (S (S m)) w)
      with ((time_sleep 1 ;; sleep_forever (S m)) w).
    unfold bind at 1. unfold time_sleep. rewrite Hsig.
    destruct (Qltb t (monotonic w + 1)) eqn:E.
    + unfold interrupted. rewrite Hsig. reflexivity.
    + apply Qltb_false in E.
      pose proof (inject_nat_succ (S m)) as Hs.
      rewrite (IH (set_clock (Qred (monotonic w + 1)) w) t Hsig).
      2:{ cbn [monotonic set_clock]. rewrite Qred_correct. lra. }
      unfold interrupted. cbn [sigint set_clock monotonic]. rewrite Hsig.
      assert (Em : Qmax (Qred (monotonic w + 1)) t == Qmax (monotonic w) t).
      { rewrite Q.max_r by (rewrite Qred_correct; exact E).
        rewrite Q.max_r by lra. reflexivity. }
      rewrite (Qred_complete _ _ Em). reflexivity.
Qed.

Lemma sleep_forever_quiet (n : nat) :
  forall w : world,
    sigint w = None ->
    fst (sleep_forever n w) = Running /\
    trace (snd (sleep_forever n w)) = trace w /\
    stdout (snd (sleep_forever n w)) = stdout w.
Proof.
  induction n as [|m IH]; intros w Hsig.
  - repeat split.
  - cbn [sleep_forever]. unfold bind, time_sleep. rewrite Hsig.
    apply (IH (set_clock (Qred (monotonic w + 1)) w)). exact Hsig.
Qed.

(** ** Relay calls on healthy hardware *)

Lemma relay_call_ok (r : Relay) (a : action) (w : world) :
  relay_ok r w -> relay_call r a w = (Ret tt, did r a w).
Proof.
  intros [Hdry|Hw]; unfold relay_call, did.
  - rewrite Hdry. reflexivity.
  - destruct (_dry_run r); [reflexivity|].
    unfold device_write. cbn [write_fails add_op]. rewrite Hw. reflexivity.
Qed.

Lemma bind_relay {B : Type} (r : Relay) (a : action) (k : unit -> M B) (w : world) :
  relay_ok r w -> bind (relay_call r a) k w = k tt (did r a w).
Proof.
  intro H. unfold bind. rewrite (relay_call_ok r a w H). reflexivity.
Qed.

Lemma bind_sleep {B : Type} (d : Q) (k : unit -> M B) (w : world) :
  bind (_sleep_with_sigint d) k w =
    if Qltb 0 d && due w (monotonic w + d)
    then (Raise KeyboardInterrupt, interrupted w)
    else k tt (advance d w).
Proof.
  unfold bind. rewrite _sleep_with_sigint_spec.
  destruct (Qltb 0 d && due w (monotonic w + d)); reflexivity.
Qed.

Lemma bind_print {B : Type} (l : line) (k : unit -> M B) (w : world) :
  bind (print l) k w = k tt (add_line l w).
Proof. reflexivity. Qed.

Lemma bind_bind {A B C : Type} (m : M A) (f : A -> M B) (g : B -> M C) (w : world) :
  bind (bind m f) g w = bind m (fun a => bind (f a) g) w.
Proof.
  unfold bind. destruct (m w) as [[a| e |] w']; reflexivity.
Qed.

(** Projections of the world transformers. *)

Lemma trace_did r a w :
  trace (did r a w) = trace w ++ [Op (monotonic w) (pin (_cfg r)) a].
Proof. unfold did. destruct (_dry_run r); reflexivity. Qed.

Lemma monotonic_did r a w : monotonic (did r a w) = monotonic w.
Proof. unfold did. destruct (_dry_run r); reflexivity. Qed.

Lemma sigint_did r a w : sigint (did r a w) = sigint w.
Proof. unfold did. destruct (_dry_run r); reflexivity. Qed.

Lemma write_fails_did r a w : write_fails (did r a w) = write_fails w.
Proof. unfold did. destruct (_dry_run r); reflexivity. Qed.

Lemma gpiozero_did r a w : gpiozero (did r a w) = gpiozero w.
Proof. unfold did. destruct (_dry_run r); reflexivity. Qed.

Lemma trace_advance d w : trace (advance d w) = trace w.
Proof. unfold advance. destruct (Qltb 0 d); reflexivity. Qed.

Lemma sigint_advance d w : sigint (advance d w) = sigint w.
Proof. unfold advance. destruct (Qltb 0 d); reflexivity. Qed.

Lemma write_fails_advance d w : write_fails (advance d w) = write_fails w.
Proof. unfold advance. destruct (Qltb 0 d); reflexivity. Qed.

Lemma gpiozero_advance d w : gpiozero (advance d w) = gpiozero w.
Proof. unfold advance. destruct (Qltb 0 d); reflexivity. Qed.

Lemma stdout_advance d w : stdout (advance d w) = stdout w.
Proof. unfold advance. destruct (Qltb 0 d); reflexivity. Qed.

Lemma monotonic_advance d w : monotonic (advance d w) == monotonic w + Qmax 0 d.
Proof.
  unfold advance. destruct (Qltb 0 d) eqn:E.
  - apply Qltb_true in E. cbn [monotonic set_clock].
    rewrite Qred_correct, Q.max_r by lra. reflexivity.
  - apply Qltb_false in E. rewrite Q.max_l by lra. lra.
Qed.

Lemma trace_interrupted w : trace (interrupted w) = trace w.
Proof. unfold interrupted. destruct (sigint w); reflexivity. Qed.

Lemma write_fails_interrupted w : write_fails (interrupted w) = write_fails w.
Proof. unfold interrupted. destruct (sigint w); reflexivity. Qed.

Lemma stdout_interrupted w : stdout (interrupted w) = stdout w.
Proof. unfold interrupted. destruct (sigint w); reflexivity. Qed.

Lemma monotonic_interrupted w t :
  sigint w = Some t -> monotonic (interrupted w) == Qmax (monotonic w) t.
Proof.
  intro H. unfold interrupted. rewrite H. cbn [monotonic clear_sigint set_clock].
  apply Qred_correct.
Qed.

Lemma relay_ok_did r r' a w : relay_ok r w -> relay_ok r (did r' a w).
Proof. unfold relay_ok. rewrite write_fails_did. exact (fun H => H). Qed.

Lemma relay_ok_advance r d w : relay_ok r w -> relay_ok r (advance d w).
Proof. unfold relay_ok. rewrite write_fails_advance. exact (fun H => H). Qed.

Lemma relay_ok_add_line r l w : relay_ok r w -> relay_ok r (add_line l w).
Proof. exact (fun H => H). Qed.

Lemma relay_ok_interrupted r w : relay_ok r w -> relay_ok r (interrupted w).
Proof. unfold relay_ok. rewrite write_fails_interrupted. exact (fun H => H). Qed.

Lemma due_quiet w x : sigint w = None -> due w x = false.
Proof. unfold due. intros ->. reflexivity. Qed.

Create HintDb relay.
#[local] Hint Resolve relay_ok_did relay_ok_advance relay_ok_add_line
  relay_ok_interrupted : relay.

Lemma op_eq_refl (a : op) : op_eq a a.
Proof. repeat split. Qed.

Lemma trace_eq_refl (l : list op) : trace_eq l l.
Proof. induction l; constructor; [apply op_eq_refl | assumption]. Qed.

Lemma trace_eq_app (a a' b b' : list op) :
  trace_eq a a' -> trace_eq b b' -> trace_eq (a ++ b) (a' ++ b').
Proof. apply Forall2_app. Qed.

(** ** The channel resolver *)

Lemma rstrip_idem (s : string) : Text.rstrip (Text.rstrip s) = Text.rstrip s.
Proof.
  induction s as [|c r IH]; [reflexivity|].
  cbn [Text.rstrip]. destruct (Text.rstrip r) as [|c' r'] eqn:E.
  - destruct (Text.is_space c) eqn:Hc; [reflexivity|].
    cbn [Text.rstrip]. rewrite Hc. reflexivity.
  - cbn [Text.rstrip] in *. rewrite IH. reflexivity.
Qed.

Lemma rstrip_head (c : ascii) (r : string) :
  Text.is_space c = false ->
  exists r', Text.rstrip (String c r) = String c r'.
Proof.
  intro Hc. cbn [Text.rstrip]. destruct (Text.rstrip r) as [|c' r'].
  - rewrite Hc. eexists; reflexivity.
  - eexists; reflexivity.
Qed.

Lemma lstrip_head (s : string) :
  Text.lstrip s = EmptyString \/
  exists c r, Text.lstrip s = String c r /\ Text.is_space c = false.
Proof.
  induction s as [|c r IH]; [left; reflexivity|].
  cbn [Text.lstrip]. destruct (Text.is_space c) eqn:Hc; [exact IH|].
  right. exists c, r. split; [reflexivity|exact Hc].
Qed.

Lemma strip_idem (s : string) : Text.strip (Text.strip s) = Text.strip s.
Proof.
  unfold Text.strip.
  destruct (lstrip_head s) as [E|(c & r & E & Hc)]; rewrite E.
  - reflexivity.
  - destruct (rstrip_head c r Hc) as (r' & Er). rewrite Er.
    cbn [Text.lstrip]. rewrite Hc. rewrite <- Er. apply rstrip_idem.
Qed.

Lemma digits_nonneg (s : string) :
  forall (acc : Z) (b : bool) (n : Z),
    (0 <= acc)%Z -> Text.digits acc b s = Some n -> (0 <= n)%Z.
Proof.
  induction s as [|c r IH]; intros acc b n Hacc H; cbn [Text.digits] in H.
  - destruct b; [inversion H; subst; exact Hacc | discriminate].
  - destruct (Text.is_digit c) eqn:Hd.
    + refine (IH _ _ _ _ H).
      unfold Text.is_digit in Hd. apply andb_true_iff in Hd.
      destruct Hd as [Hlo _]. apply Nat.leb_le in Hlo.
      unfold Text.digit_value. lia.
    + destruct (Ascii.eqb c "_"); [|discriminate].
      destruct b; [|discriminate]. exact (IH _ _ _ Hacc H).
Qed.

(** A literal read by [int] is negative only if it is written with a
    leading minus sign. *)
Lemma int_negative (s : string) (n : Z) :
  Text.int s = Some n -> (n < 0)%Z ->
  exists rest, Text.strip s = String "-" rest.
Proof.
  unfold Text.int, Text.literal. cbv zeta. intros H Hn.
  destruct (Text.int_max_str_digits <? Text.digit_count (Text.strip s))%Z;
    [discriminate|].
  destruct (Text.strip s) as [|c r] eqn:E.
  - discriminate.
  - destruct (Ascii.eqb c "-") eqn:Hc.
    + apply Ascii.eqb_eq in Hc. subst c. exists r. reflexivity.
    + exfalso.
      assert (Hpos : exists t b, Text.digits 0 b t = Some n).
      { destruct c as [[] [] [] [] [] [] [] []]; try (eexists; eexists; exact H);
          discriminate. }
      destruct Hpos as (t & b & Hd).
      pose proof (digits_nonneg t 0 b n ltac:(lia) Hd). lia.
Qed.

Lemma known_relay_pin (s : string) (p : Z) :
  get KNOWN_RELAYS s = Some p -> In p canonical_pins.
Proof.
  unfold KNOWN_RELAYS, canonical_pins. cbn [get map snd].
  repeat (destruct (String.eqb s _);
          [intro H; inversion H; subst; cbn; tauto|]).
  discriminate.
Qed.

Lemma alias_target (s c : string) :
  get RELAY_ALIASES s = Some c ->
  c = "low_flame"%string \/ c = "high_flame"%string \/
  c = "aux_1"%string \/ c = "aux_2"%string.
Proof.
  unfold RELAY_ALIASES. cbn [get].
  repeat (destruct (String.eqb s _);
          [intro H; inversion H; subst; tauto|]).
  discriminate.
Qed.

Lemma alias_target_resolves (s c : string) :
  get RELAY_ALIASES s = Some c ->
  exists p, get KNOWN_RELAYS c = Some p /\
            _resolve_relay_ref (RStr c) = Returns (Some p).
Proof.
  intro H. destruct (alias_target s c H) as [-> | [-> | [-> | ->]]];
    eexists; split; reflexivity.
Qed.

Lemma names_listing :
  Text.join ", " (Text.sorted (keys KNOWN_RELAYS)) =
  "aux_1, aux_2, high_flame, low_flame"%string.
Proof. reflexivity. Qed.

Lemma string_app_assoc (a b c : string) :
  ((a ++ b) ++ c)%string = (a ++ (b ++ c))%string.
Proof. induction a as [|x a IH]; cbn; [reflexivity | rewrite IH; reflexivity]. Qed.

Lemma message_lists_names (s name : string) :
  In name (keys KNOWN_RELAYS) ->
  exists pre post, unknown_relay_message s = (pre ++ name ++ post)%string.
Proof.
  unfold unknown_relay_message. rewrite names_listing.
  set (head := ("Unknown relay '" ++ s ++ "'. Use one of: ")%string).
  assert (E : forall tail : string,
             ("Unknown relay '" ++ s ++ "'. Use one of: " ++ tail)%string
             = (head ++ tail)%string).
  { intro tail. unfold head. rewrite !string_app_assoc. reflexivity. }
  rewrite E. cbn [keys KNOWN_RELAYS map fst In].
  intros [<- | [<- | [<- | [<- | []]]]].
  - exists (head ++ "aux_1, aux_2, high_flame, ")%string, " (or a BCM pin number)"%string.
    rewrite string_app_assoc. reflexivity.
  - exists (head ++ "aux_1, aux_2, ")%string, ", low_flame (or a BCM pin number)"%string.
    rewrite string_app_assoc. reflexivity.
  - exists head, ", aux_2, high_flame, low_flame (or a BCM pin number)"%string.
    reflexivity.
  - exists (head ++ "aux_1, ")%string, ", high_flame, low_flame (or a BCM pin number)"%string.
    rewrite string_app_assoc. reflexivity.
Qed.

Lemma resolve_failure_message (r : relay_ref) (msg : string) :
  _resolve_relay_ref r = SystemExitMsg msg ->
  exists s, msg = unknown_relay_message s.
Proof.
  destruct r as [|n|v]; cbn [_resolve_relay_ref]; try discriminate.
  destruct (String.eqb (Text.strip v) ""); [discriminate|].
  match goal with
  | |- context [get KNOWN_RELAYS ?x] => set (s := x)
  end.
  destruct (get KNOWN_RELAYS s); [discriminate|].
  destruct (Text.int s); [discriminate|].
  intro H. inversion H. exists s. reflexivity.
Qed.



(** ** Relay selection in [main] *)

Lemma resolve_int_ref (legacy : option Z) :
  _resolve_relay_ref (int_ref legacy) = Returns legacy.
Proof. destruct legacy; reflexivity. Qed.

Lemma resolve_or_falsy (preferred legacy : relay_ref) (a : option Z) :
  _resolve_relay_ref preferred = Returns a -> truthy a = false ->
  resolve_or preferred legacy = _resolve_relay_ref legacy.
Proof. intros H Ht. unfold resolve_or. rewrite H, Ht. reflexivity. Qed.

Lemma main_missing_main (fuel : nat) (args : Args.t) (w : world) (hp : option Z) :
  needs_main (Args.cmd args) = true ->
  resolve_or (str_ref (Args.main_relay args)) (int_ref (Args.pin_main args))
    = Returns None ->
  resolve_or (str_ref (Args.high_relay args)) (int_ref (Args.pin_high args))
    = Returns hp ->
  main fuel args w = (Raise (SystemExit missing_main), w).
Proof.
  intros Hc Hm Hh. unfold main.
  destruct (Args.cmd args); try discriminate;
    unfold bind, lift_exits; rewrite Hm, Hh; reflexivity.
Qed.

Lemma main_missing_high (fuel : nat) (args : Args.t) (w : world) (mp : option Z) :
  needs_high (Args.cmd args) = true ->
  resolve_or (str_ref (Args.main_relay args)) (int_ref (Args.pin_main args))
    = Returns mp ->
  resolve_or (str_ref (Args.high_relay args)) (int_ref (Args.pin_high args))
    = Returns None ->
  main fuel args w = (Raise (SystemExit missing_high), w).
Proof.
  intros Hc Hm Hh. unfold main.
  destruct (Args.cmd args); try discriminate;
    unfold bind, lift_exits; rewrite Hm, Hh; reflexivity.
Qed.

(** C10.  A preferred reference that is absent, blank, or that resolves
    to channel 0 counts as absent: the selection is then exactly the
    legacy pin option, and with no legacy pin the command stops with the
    missing-configuration error.  So channel 0 is selected only when the
    legacy option itself is 0. *)
Theorem C10_preferred_blank_or_zero :
  forall (preferred : option string) (legacy : option Z),
    (preferred = None \/
     (exists v, preferred = Some v /\ Text.strip v = ""%string) \/
     _resolve_relay_ref (str_ref preferred) = Returns (Some 0%Z) ->
       (exists a, _resolve_relay_ref (str_ref preferred) = Returns a /\
                  (a = None \/ a = Some 0%Z)) /\
       resolve_or (str_ref preferred) (int_ref legacy) = Returns legacy /\
       (forall fuel args w hp,
           needs_main (Args.cmd args) = true ->
           Args.main_relay args = preferred ->
           Args.pin_main args = None ->
           resolve_or (str_ref (Args.high_relay args))
                      (int_ref (Args.pin_high args)) = Returns hp ->
           main fuel args w = (Raise (SystemExit missing_main), w)) /\
       (forall fuel args w mp,
           needs_high (Args.cmd args) = true ->
           Args.high_relay args = preferred ->
           Args.pin_high args = None ->
           resolve_or (str_ref (Args.main_relay args))
                      (int_ref (Args.pin_main args)) = Returns mp ->
           main fuel args w = (Raise (SystemExit missing_high), w))) /\
    (resolve_or (str_ref preferred) (int_ref legacy) = Returns (Some 0%Z) ->
       legacy = Some 0%Z).
Proof.
  intros preferred legacy.
  assert (Hfalsy : forall a,
             _resolve_relay_ref (str_ref preferred) = Returns a ->
             truthy a = false ->
             forall leg, resolve_or (str_ref preferred) (int_ref leg) = Returns leg).
  { intros a Ha Ht leg.
    rewrite (resolve_or_falsy _ _ a Ha Ht). apply resolve_int_ref. }
  split.
  - intro H.
    assert (Habs : exists a, _resolve_relay_ref (str_ref preferred) = Returns a /\
                             (a = None \/ a = Some 0%Z)).
    { destruct H as [->|[(v & -> & Hv)|H]].
      - exists None. split; [reflexivity|left; reflexivity].
      - exists None. split; [|left; reflexivity].
        cbn [str_ref _resolve_relay_ref]. rewrite Hv. reflexivity.
      - exists (Some 0%Z). split; [exact H|right; reflexivity]. }
    destruct Habs as (a & Ha & Hcase).
    assert (Ht : truthy a = false) by (destruct Hcase as [->| ->]; reflexivity).
    split; [exists a; split; assumption|].
    split; [exact (Hfalsy a Ha Ht legacy)|].
    split.
    + intros fuel args w hp Hc Hp Hl Hh.
      apply (main_missing_main fuel args w hp Hc); [|exact Hh].
      rewrite Hp, Hl. exact (Hfalsy a Ha Ht None).
    + intros fuel args w mp Hc Hp Hl Hm.
      apply (main_missing_high fuel args w mp Hc); [exact Hm|].
      rewrite Hp, Hl. exact (Hfalsy a Ha Ht None).
  - unfold resolve_or.
    destruct (_resolve_relay_ref (str_ref preferred)) as [a|m]; [|discriminate].
    destruct (truthy a) eqn:Ht.
    + intro H. inversion H; subst. discriminate.
    + rewrite resolve_int_ref. intro H. inversion H. reflexivity.
Qed.

Lemma C10_preferred_blank_or_zero_witness :
  resolve_or (str_ref (Some "0"%string)) (int_ref (Some 7%Z)) = Returns (Some 7%Z) /\
  main 0 off_blank calm = (Raise (SystemExit missing_main), calm).
Proof.
  split.
  - apply (C10_preferred_blank_or_zero (Some "0"%string) (Some 7%Z)).
    right. right. reflexivity.
  - refine (proj1 (proj2 (proj2 (proj1
             (C10_preferred_blank_or_zero (Some "  "%string) None) _)))
             0%nat off_blank calm None eq_refl eq_refl eq_refl eq_refl).
    right. left. exists "  "%string. split; reflexivity.
Defined.

(** ** Boot guard *)

Lemma due_did r a w x : due (did r a w) x = due w x.
Proof. unfold due. rewrite sigint_did. reflexivity. Qed.

Lemma due_advance d w x : due (advance d w) x = due w x.
Proof. unfold due. rewrite sigint_advance. reflexivity. Qed.

Lemma due_add_line l w x : due (add_line l w) x = due w x.
Proof. reflexivity. Qed.

Lemma due_compat w x y : x == y -> due w x = due w y.
Proof.
  intro E. unfold due. destruct (sigint w); [|reflexivity].
  apply Qltb_compat. exact E.
Qed.

Lemma due_false_le w x y : due w x = false -> y <= x -> due w y = false.
Proof.
  unfold due. destruct (sigint w) as [t|]; [|reflexivity].
  intros H Hle. apply Qltb_false in H. apply Qltb_false. lra.
Qed.

(** C9, as the code has it.  [_guard_after_boot] returns at once when the
    minimum is not positive or the uptime has reached it; below the
    minimum it announces the wait and blocks for the deficit (unless the
    interrupt arrives first); when the uptime cannot be read it returns at
    once, and says so only in a dry run. *)
Theorem C9_boot_guard :
  forall (min : Q) (dry : bool) (w : world),
    (min <= 0 -> _guard_after_boot min dry w = (Ret tt, w)) /\
    (forall up, 0 < min -> proc_uptime w = Some up -> min <= up ->
       _guard_after_boot min dry w = (Ret tt, w)) /\
    (forall up, 0 < min -> proc_uptime w = Some up -> up < min ->
       due w (monotonic w + (min - up)) = false ->
       exists w',
         _guard_after_boot min dry w = (Ret tt, w') /\
         monotonic w' == monotonic w + (min - up) /\
         trace w' = trace w /\
         stdout w' = stdout w ++ [GuardWaiting (min - up)]) /\
    (0 < min -> proc_uptime w = None ->
       _guard_after_boot min dry w =
       (Ret tt, if dry then add_line (GuardSkipped min) w else w)).
Proof.
  intros min dry w. unfold _guard_after_boot.
  repeat split.
  - intro H. apply Qle_bool_iff in H. rewrite H. reflexivity.
  - intros up Hmin Hup Hle.
    apply Qle_bool_false in Hmin. rewrite Hmin.
    unfold bind, _read_uptime_seconds. rewrite Hup.
    assert (E : Qltb 0 (min - up) = false) by (apply Qltb_false; lra).
    rewrite E. reflexivity.
  - intros up Hmin Hup Hlt Hquiet.
    pose proof Hmin as Hmin'. apply Qle_bool_false in Hmin'. rewrite Hmin'.
    unfold bind at 1. unfold _read_uptime_seconds. rewrite Hup.
    assert (E : Qltb 0 (min - up) = true) by (apply Qltb_true; lra).
    rewrite E, bind_print.
    rewrite _sleep_with_sigint_spec, E, due_add_line.
    change (monotonic (add_line (GuardWaiting (min - up)) w)) with (monotonic w).
    rewrite Hquiet. cbn [andb].
    eexists. split; [reflexivity|].
    rewrite monotonic_advance, trace_advance, stdout_advance.
    repeat split.
    change (monotonic (add_line (GuardWaiting (min - up)) w)) with (monotonic w).
    rewrite Q.max_r by lra. reflexivity.
  - intros Hmin Hup.
    apply Qle_bool_false in Hmin. rewrite Hmin.
    unfold bind, _read_uptime_seconds. rewrite Hup.
    destruct dry; reflexivity.
Qed.

Lemma C9_boot_guard_witness :
  exists w',
    _guard_after_boot 12.0 false just_booted = (Ret tt, w') /\
    monotonic w' == monotonic just_booted + (12.0 - 5.0) /\
    trace w' = trace just_booted /\
    stdout w' = stdout just_booted ++ [GuardWaiting (12.0 - 5.0)].
Proof.
  apply (proj1 (proj2 (proj2 (C9_boot_guard 12.0 false just_booted))) 5.0).
  - reflexivity.
  - reflexivity.
  - reflexivity.
  - reflexivity.
Defined.

(** C9 as stated fails: on live hardware an unreadable uptime is passed
    over without a word. *)
Lemma C9_silent_when_live :
  ~ (forall (min : Q) (dry : bool) (w : world),
        0 < min -> proc_uptime w = None ->
        exists note, stdout (snd (_guard_after_boot min dry w))
                     = stdout w ++ [note]).
Proof.
  intro H.
  destruct (H 12.0 false blind eq_refl eq_refl) as (note & E).
  vm_compute in E. discriminate.
Qed.

(** ** Patterns *)

(** The indefinite hold ends when the interrupt strikes, and absorbs it. *)
Lemma bind_hold_forever {B : Type} (fuel : nat) (k : unit -> M B) (w : world) (t : Q) :
  sigint w = Some t ->
  t < monotonic w + inject_Z (Z.of_nat fuel) ->
  monotonic w <= t ->
  bind (except_KeyboardInterrupt_pass (sleep_forever fuel)) k w
  = k tt (interrupted w).
Proof.
  intros Hsig Ht Hle. destruct fuel as [|n].
  - exfalso. change (inject_Z (Z.of_nat 0)) with 0 in Ht. lra.
  - unfold bind, except_KeyboardInterrupt_pass.
    rewrite (sleep_forever_interrupted n w t Hsig Ht). reflexivity.
Qed.

Lemma sigint_add_line l w : sigint (add_line l w) = sigint w.
Proof. reflexivity. Qed.

Lemma monotonic_add_line l w : monotonic (add_line l w) = monotonic w.
Proof. reflexivity. Qed.

Lemma trace_add_line l w : trace (add_line l w) = trace w.
Proof. reflexivity. Qed.

Lemma Qmax_0_pos (d : Q) : 0 < d -> Qmax 0 d == d.
Proof. intro H. apply Q.max_r. lra. Qed.

Lemma skip_due (d : Q) (w : world) :
  due w (monotonic w + d) = false ->
  Qltb 0 d && due w (monotonic w + d) = false.
Proof. intros ->. apply andb_false_r. Qed.

Lemma maintained_prefix_clock (relay : Relay) (w : world) :
  monotonic (maintained_prefix relay w) == monotonic w + 1.0 + 0.250 + 0.250.
Proof.
  unfold maintained_prefix.
  rewrite !monotonic_did, !monotonic_advance, !monotonic_did, !monotonic_advance,
    !monotonic_did, !monotonic_advance, !monotonic_did.
  reflexivity.
Qed.

Lemma maintained_prefix_trace (relay : Relay) (w : world) :
  trace_eq (trace (maintained_prefix relay w))
    (trace w ++
       [ Op (monotonic w) (pin (_cfg relay)) OPEN;
         Op (monotonic w + 1.0) (pin (_cfg relay)) CLOSE;
         Op (monotonic w + 1.0 + 0.250) (pin (_cfg relay)) OPEN;
         Op (monotonic w + 1.0 + 0.250 + 0.250) (pin (_cfg relay)) CLOSE ]).
Proof.
  unfold maintained_prefix.
  repeat (rewrite ?trace_did, ?trace_advance).
  rewrite <- !app_assoc. cbn [app].
  apply trace_eq_app; [apply trace_eq_refl|].
  repeat constructor; cbn [op_at];
    repeat (rewrite ?monotonic_did, ?monotonic_advance); reflexivity.
Qed.

Lemma maintained_prefix_run {B : Type} (relay : Relay) (rest : M B) (w : world) :
  relay_ok relay w ->
  due w (monotonic w + 1.0 + 0.250 + 0.250) = false ->
  (Relay_open relay ;; _sleep_with_sigint 1.0 ;;
   Relay_close relay ;; _sleep_with_sigint 0.250 ;;
   Relay_open relay ;; _sleep_with_sigint 0.250 ;;
   Relay_close relay ;; rest) w
  = rest (maintained_prefix relay w).
Proof.
  intros Hok Hq. unfold Relay_open, Relay_close, maintained_prefix.
  rewrite bind_relay by exact Hok.
  rewrite bind_sleep, skip_due.
  2:{ rewrite due_did, monotonic_did. apply (due_false_le _ _ _ Hq). lra. }
  rewrite bind_relay by auto with relay.
  rewrite bind_sleep, skip_due.
  2:{ rewrite due_did, due_advance, due_did.
      rewrite monotonic_did.
      apply (due_false_le _ _ _ Hq).
      rewrite monotonic_advance, monotonic_did. 
      change (Qmax 0 1.0) with 1.0. lra. }
  rewrite bind_relay by auto with relay.
  rewrite bind_sleep, skip_due.
  2:{ rewrite !due_did, !due_advance, !due_did, !due_advance, !due_did.
      apply (due_false_le _ _ _ Hq).
      rewrite monotonic_did, monotonic_advance, monotonic_did,
        monotonic_advance, monotonic_did.
      change (Qmax 0 1.0) with 1.0. change (Qmax 0 0.250) with 0.250. lra. }
  rewrite bind_relay by auto 10 with relay.
  reflexivity.
Qed.

Lemma main_ignores_pulse_when_maintained (fuel : nat) (args : Args.t) (pw : Z) (w : world) :
  Args.cmd args = Ignite -> Args.maintained args = true ->
  main fuel (Args.with_pulse_ms pw args) w = main fuel args w.
Proof.
  destruct args as [c j mr hr pm ph al bg dr pms mt hs pn os cs ps].
  cbn [Args.cmd Args.maintained]. intros -> ->. reflexivity.
Qed.

(** C7.  On a healthy relay and with no interrupt before the hold, the
    maintained call is: open, 1.0 s, close, 0.25 s, open, 0.25 s, close,
    the hold, open.  The hold lasts the given duration, or, when none is
    given, until the interrupt.  The pulse width plays no part. *)
Theorem C7_maintained_call :
  forall (fuel : nat) (relay : Relay) (w : world),
    relay_ok relay w ->
    let p := pin (_cfg relay) in
    let t0 := monotonic w in
    (forall h : Q,
        due w (t0 + 1.0 + 0.250 + 0.250 + Qmax 0 h) = false ->
        exists w',
          cmd_maintained fuel relay (Some h) w = (Ret tt, w') /\
          trace_eq (trace w')
            (trace w ++
               [ Op t0 p OPEN;
                 Op (t0 + 1.0) p CLOSE;
                 Op (t0 + 1.0 + 0.250) p OPEN;
                 Op (t0 + 1.0 + 0.250 + 0.250) p CLOSE;
                 Op (t0 + 1.0 + 0.250 + 0.250 + Qmax 0 h) p OPEN ])) /\
    (forall t : Q,
        sigint w = Some t ->
        t0 + 1.0 + 0.250 + 0.250 <= t ->
        t < t0 + 1.0 + 0.250 + 0.250 + inject_Z (Z.of_nat fuel) ->
        exists w',
          cmd_maintained fuel relay None w = (Ret tt, w') /\
          trace_eq (trace w')
            (trace w ++
               [ Op t0 p OPEN;
                 Op (t0 + 1.0) p CLOSE;
                 Op (t0 + 1.0 + 0.250) p OPEN;
                 Op (t0 + 1.0 + 0.250 + 0.250) p CLOSE;
                 Op t p OPEN ])) /\
    (forall (args : Args.t) (pw : Z),
        Args.cmd args = Ignite -> Args.maintained args = true ->
        main fuel (Args.with_pulse_ms pw args) w = main fuel args w).
Proof.
  intros fuel relay w Hok p t0.
  pose proof (maintained_prefix_clock relay w) as Hclock.
  pose proof (maintained_prefix_trace relay w) as Htrace.
  assert (Hok4 : relay_ok relay (maintained_prefix relay w)).
  { unfold maintained_prefix. auto 10 with relay. }
  assert (Hsig4 : sigint (maintained_prefix relay w) = sigint w).
  { unfold maintained_prefix.
    repeat (rewrite ?sigint_did, ?sigint_advance). reflexivity. }
  set (w4 := maintained_prefix relay w) in *.
  assert (Hlast : forall (w5 : world) (t5 : Q),
             trace w5 = trace w4 -> monotonic w5 == t5 -> relay_ok relay w5 ->
             exists w',
               Relay_open relay w5 = (Ret tt, w') /\
               trace_eq (trace w')
                 (trace w ++
                    [ Op t0 p OPEN;
                      Op (t0 + 1.0) p CLOSE;
                      Op (t0 + 1.0 + 0.250) p OPEN;
                      Op (t0 + 1.0 + 0.250 + 0.250) p CLOSE;
                      Op t5 p OPEN ])).
  { intros w5 t5 Ht Hm Hok5. exists (did relay OPEN w5).
    split; [apply relay_call_ok; exact Hok5|].
    rewrite trace_did, Ht.
    change (trace w ++ [ Op t0 p OPEN; Op (t0 + 1.0) p CLOSE;
                         Op (t0 + 1.0 + 0.250) p OPEN;
                         Op (t0 + 1.0 + 0.250 + 0.250) p CLOSE;
                         Op t5 p OPEN ])
      with (trace w ++ ([ Op t0 p OPEN; Op (t0 + 1.0) p CLOSE;
                          Op (t0 + 1.0 + 0.250) p OPEN;
                          Op (t0 + 1.0 + 0.250 + 0.250) p CLOSE ]
                        ++ [ Op t5 p OPEN ])).
    rewrite app_assoc. apply trace_eq_app; [exact Htrace|].
    constructor; [|constructor]. repeat split. exact Hm. }
  split; [|split].
  - intros h Hq. unfold cmd_maintained.
    rewrite maintained_prefix_run; [|exact Hok|].
    2:{ apply (due_false_le _ _ _ Hq).
        pose proof (Q.le_max_l 0 h). fold t0. lra. }
    fold w4. rewrite bind_sleep.
    assert (Hskip : Qltb 0 h && due w4 (monotonic w4 + h) = false).
    { destruct (Qltb 0 h) eqn:Hh; [|reflexivity]. cbn [andb].
      apply Qltb_true in Hh. unfold due. rewrite Hsig4.
      change (due w (monotonic w4 + h) = false).
      apply (due_false_le _ _ _ Hq).
      rewrite Hclock, (Qmax_0_pos h Hh). fold t0. lra. }
    rewrite Hskip.
    apply Hlast.
    + apply trace_advance.
    + rewrite monotonic_advance, Hclock. reflexivity.
    + auto with relay.
  - intros t Hsig Hle Hlt. unfold cmd_maintained.
    rewrite maintained_prefix_run; [|exact Hok|].
    2:{ unfold due. rewrite Hsig. apply Qltb_false. exact Hle. }
    fold w4. rewrite bind_bind, bind_print.
    rewrite (bind_hold_forever fuel _ _ t).
    2:{ rewrite sigint_add_line, Hsig4. exact Hsig. }
    2:{ rewrite monotonic_add_line, Hclock. fold t0. exact Hlt. }
    2:{ rewrite monotonic_add_line, Hclock. exact Hle. }
    apply Hlast.
    + rewrite trace_interrupted. reflexivity.
    + rewrite (monotonic_interrupted _ t)
        by (rewrite sigint_add_line, Hsig4; exact Hsig).
      rewrite monotonic_add_line, Hclock. apply Q.max_r. exact Hle.
    + auto with relay.
  - intros args pw. apply main_ignores_pulse_when_maintained.
Qed.

Lemma C7_maintained_call_witness :
  exists w',
    cmd_maintained 0 sim4 (Some 2.0) calm = (Ret tt, w') /\
    trace_eq (trace w')
      (trace calm ++
         [ Op (monotonic calm) (pin (_cfg sim4)) OPEN;
           Op (monotonic calm + 1.0) (pin (_cfg sim4)) CLOSE;
           Op (monotonic calm + 1.0 + 0.250) (pin (_cfg sim4)) OPEN;
           Op (monotonic calm + 1.0 + 0.250 + 0.250) (pin (_cfg sim4)) CLOSE;
           Op (monotonic calm + 1.0 + 0.250 + 0.250 + Qmax 0 2.0)
              (pin (_cfg sim4)) OPEN ]).
Proof.
  apply (proj1 (C7_maintained_call 0 sim4 calm (or_introl eq_refl)) 2.0).
  reflexivity.
Defined.

(** ** Probe sweep *)

Lemma trace_waited l d w : trace (waited l d w) = trace w.
Proof. unfold waited. destruct (Qltb 0 d); [rewrite trace_advance|]; reflexivity. Qed.

Lemma sigint_waited l d w : sigint (waited l d w) = sigint w.
Proof. unfold waited. destruct (Qltb 0 d); [rewrite sigint_advance|]; reflexivity. Qed.

Lemma write_fails_waited l d w : write_fails (waited l d w) = write_fails w.
Proof. unfold waited. destruct (Qltb 0 d); [rewrite write_fails_advance|]; reflexivity. Qed.

Lemma gpiozero_waited l d w : gpiozero (waited l d w) = gpiozero w.
Proof. unfold waited. destruct (Qltb 0 d); [rewrite gpiozero_advance|]; reflexivity. Qed.

Lemma monotonic_waited l d w : monotonic (waited l d w) == monotonic w + Qmax 0 d.
Proof.
  unfold waited. destruct (Qltb 0 d) eqn:E.
  - rewrite monotonic_advance. reflexivity.
  - apply Qltb_false in E. rewrite Q.max_l by lra. lra.
Qed.

Lemma due_waited l d w x : due (waited l d w) x = due w x.
Proof. unfold due. rewrite sigint_waited. reflexivity. Qed.

Lemma relay_ok_waited r l d w : relay_ok r w -> relay_ok r (waited l d w).
Proof. unfold relay_ok. rewrite write_fails_waited. exact (fun H => H). Qed.

#[local] Hint Resolve relay_ok_waited : relay.

Lemma optional_wait (l : line) (d : Q) (w : world) :
  due w (monotonic w + Qmax 0 d) = false ->
  (if Qltb 0 d then print l ;; _sleep_with_sigint d else ret tt) w
  = (Ret tt, waited l d w).
Proof.
  intro Hq. unfold waited. destruct (Qltb 0 d) eqn:E; [|reflexivity].
  rewrite bind_print, _sleep_with_sigint_spec, E. cbn [andb].
  rewrite due_add_line, monotonic_add_line.
  apply Qltb_true in E.
  rewrite (due_compat w _ (monotonic w + Qmax 0 d)), Hq; [reflexivity|].
  rewrite (Qmax_0_pos d E). reflexivity.
Qed.

Lemma bind_optional_wait {B : Type} (l : line) (d : Q) (k : unit -> M B) (w : world) :
  due w (monotonic w + Qmax 0 d) = false ->
  bind (if Qltb 0 d then print l ;; _sleep_with_sigint d else ret tt) k w
  = k tt (waited l d w).
Proof.
  intro Hq. unfold bind at 1. rewrite (optional_wait l d w Hq). reflexivity.
Qed.

Lemma probe_sweep_compat (pins : list Z) (os cs ps : Q) :
  forall t t', t == t' ->
    trace_eq (probe_sweep t pins os cs ps) (probe_sweep t' pins os cs ps).
Proof.
  induction pins as [|p r IH]; intros t t' E; cbn [probe_sweep].
  - constructor.
  - apply trace_eq_app.
    + unfold probe_cycle. repeat constructor; cbn [op_at]; rewrite E; reflexivity.
    + apply IH. rewrite E. reflexivity.
Qed.

Lemma trace_eq_trans (a b c : list op) :
  trace_eq a b -> trace_eq b c -> trace_eq a c.
Proof.
  intro H. revert c. induction H as [|x y l l' Hxy Hl IH]; intros c Hc.
  - exact Hc.
  - inversion Hc as [|y' z l2 l3 Hyz Hl2]; subst. constructor.
    + destruct Hxy as (H1 & H2 & H3), Hyz as (H4 & H5 & H6).
      repeat split; [rewrite H1; exact H4 | congruence | congruence].
    + apply IH. exact Hl2.
Qed.

(** Building a handle on healthy hardware. *)

Lemma monotonic_built dry w : monotonic (built dry w) = monotonic w.
Proof. destruct dry; reflexivity. Qed.

Lemma sigint_built dry w : sigint (built dry w) = sigint w.
Proof. destruct dry; reflexivity. Qed.

Lemma trace_built dry w : trace (built dry w) = trace w.
Proof. destruct dry; reflexivity. Qed.

Lemma stdout_built dry w : stdout (built dry w) = stdout w.
Proof. destruct dry; reflexivity. Qed.

Lemma proc_uptime_built dry w : proc_uptime (built dry w) = proc_uptime w.
Proof. destruct dry; reflexivity. Qed.

Lemma write_fails_built dry w : write_fails (built dry w) = write_fails w.
Proof. destruct dry; reflexivity. Qed.

Lemma due_built dry w x : due (built dry w) x = due w x.
Proof. destruct dry; reflexivity. Qed.

Lemma relay_ok_built r dry w : relay_ok r w -> relay_ok r (built dry w).
Proof. unfold relay_ok. rewrite write_fails_built. exact (fun H => H). Qed.

#[local] Hint Resolve relay_ok_built : relay.

Lemma same_hardware_refl w : same_hardware w w.
Proof. repeat split. Qed.

Lemma same_hardware_trans w1 w2 w3 :
  same_hardware w1 w2 -> same_hardware w2 w3 -> same_hardware w1 w3.
Proof.
  intros (A1 & A2 & A3) (B1 & B2 & B3). repeat split; congruence.
Qed.

Lemma same_hardware_did r a w : same_hardware w (did r a w).
Proof. unfold did. destruct (_dry_run r); repeat split. Qed.

Lemma same_hardware_advance d w : same_hardware w (advance d w).
Proof. unfold advance. destruct (Qltb 0 d); repeat split. Qed.

Lemma same_hardware_add_line l w : same_hardware w (add_line l w).
Proof. repeat split. Qed.

Lemma same_hardware_waited l d w : same_hardware w (waited l d w).
Proof.
  unfold waited. destruct (Qltb 0 d); [|apply same_hardware_refl].
  apply (same_hardware_trans _ (add_line l w));
    [apply same_hardware_add_line | apply same_hardware_advance].
Qed.

Lemma same_hardware_built dry w : same_hardware w (built dry w).
Proof. destruct dry; repeat split. Qed.

Lemma same_hardware_interrupted w : same_hardware w (interrupted w).
Proof. unfold interrupted. destruct (sigint w); repeat split. Qed.

Lemma hardware_ok_same (dry : bool) (w w' : world) :
  same_hardware w w' -> hardware_ok dry w -> hardware_ok dry w'.
Proof.
  unfold hardware_ok. intros (-> & -> & ->). exact (fun H => H).
Qed.

Lemma hardware_ok_relay (p : Z) (al dry : bool) (w : world) :
  hardware_ok dry w -> relay_ok (handle p al dry) w.
Proof.
  intros [Hd|(_ & _ & Hw)]; [left; exact Hd | right; exact Hw].
Qed.

Lemma Relay_init_ok (p : Z) (al dry : bool) (w : world) :
  hardware_ok dry w ->
  Relay_init {| pin := p; active_low := al |} dry w
  = (Ret (handle p al dry), built dry w).
Proof.
  unfold Relay_init, handle, built. intros [->|(Hg & Hd & _)]; [reflexivity|].
  rewrite Hg, Hd. destruct dry; reflexivity.
Qed.

Lemma bind_init {B : Type} (p : Z) (al dry : bool) (k : Relay -> M B) (w : world) :
  hardware_ok dry w ->
  bind (Relay_init {| pin := p; active_low := al |} dry) k w
  = k (handle p al dry) (built dry w).
Proof. intro H. unfold bind. rewrite (Relay_init_ok p al dry w H). reflexivity. Qed.

(** Dividing the pulse width by [1000.0]. *)

Lemma true_div_ok (n : Z) (d : Q) (w : world) :
  fits_float n -> true_div n d w = (Ret (inject_Z n / d), w).
Proof.
  unfold fits_float, true_div, int_to_float. intro H.
  apply Z.ltb_lt in H. rewrite H. reflexivity.
Qed.

Lemma true_div_overflow (n : Z) (d : Q) (w : world) :
  ~ fits_float n -> true_div n d w = (Raise OverflowError, w).
Proof.
  unfold fits_float, true_div, int_to_float. intro H.
  destruct (Z.abs n <? float_overflow)%Z eqn:E; [|reflexivity].
  apply Z.ltb_lt in E. contradiction.
Qed.

Lemma bind_true_div {B : Type} (n : Z) (d : Q) (k : Q -> M B) (w : world) :
  fits_float n -> bind (true_div n d) k w = k (inject_Z n / d) w.
Proof. intro H. unfold bind. rewrite (true_div_ok n d w H). reflexivity. Qed.

Lemma close_for_run (pulse_ms : Z) (cs : option Q) (w : world) :
  close_for_ok pulse_ms cs ->
  match cs with
  | Some c => ret c
  | None => true_div pulse_ms 1000.0
  end w = (Ret (close_for pulse_ms cs), w).
Proof.
  intro H. destruct cs as [c|]; [reflexivity|].
  apply true_div_ok. apply H. reflexivity.
Qed.

Lemma probe_one_run (al : bool) (pulse_ms : Z) (os : Q) (cs : option Q)
    (ps : Q) (dry : bool) (p : Z) (w : world) :
  hardware_ok dry w ->
  close_for_ok pulse_ms cs ->
  due w (monotonic w + Qmax 0 os + Qmax 0 (close_for pulse_ms cs) + Qmax 0 ps) = false ->
  exists w',
    probe_one al pulse_ms os cs ps dry p w = (Ret tt, w') /\
    trace_eq (trace w')
      (trace w ++ probe_cycle (monotonic w) p os (close_for pulse_ms cs)) /\
    monotonic w' ==
      monotonic w + Qmax 0 os + Qmax 0 (close_for pulse_ms cs) + Qmax 0 ps /\
    sigint w' = sigint w /\
    same_hardware w w'.
Proof.
  intros Hhw Hcf Hq.
  set (cf := close_for pulse_ms cs) in *.
  set (r := handle p al dry).
  assert (Hok : relay_ok r w) by (apply hardware_ok_relay; exact Hhw).
  pose proof (Q.le_max_l 0 os) as Hos.
  pose proof (Q.le_max_l 0 cf) as Hcfn.
  pose proof (Q.le_max_l 0 ps) as Hps.
  unfold probe_one. rewrite bind_init by exact Hhw. fold r.
  unfold bind at 1. rewrite (close_for_run pulse_ms cs _ Hcf). fold cf.
  set (w0 := built dry w).
  assert (Hm0 : monotonic w0 = monotonic w) by apply monotonic_built.
  assert (Hd0 : forall x, due w0 x = due w x) by (intro x; apply due_built).
  assert (Hok0 : relay_ok r w0) by (unfold w0; auto with relay).
  unfold Relay_open, Relay_close.
  rewrite bind_relay by exact Hok0.
  rewrite bind_optional_wait.
  2:{ rewrite due_did, monotonic_did, Hd0, Hm0. apply (due_false_le _ _ _ Hq). lra. }
  rewrite bind_relay by auto with relay.
  rewrite bind_print, bind_sleep.
  set (w3 := add_line _ (did r CLOSE _)).
  assert (Hm3 : monotonic w3 == monotonic w + Qmax 0 os).
  { unfold w3. rewrite monotonic_add_line, monotonic_did, monotonic_waited,
      monotonic_did, Hm0. reflexivity. }
  assert (Hd3 : forall x, due w3 x = due w x).
  { intro x. unfold w3. rewrite due_add_line, due_did, due_waited, due_did.
    apply Hd0. }
  assert (Hskip : Qltb 0 cf && due w3 (monotonic w3 + cf) = false).
  { destruct (Qltb 0 cf) eqn:Hc; [|reflexivity]. cbn [andb].
    apply Qltb_true in Hc. rewrite Hd3. apply (due_false_le _ _ _ Hq).
    rewrite Hm3, (Qmax_0_pos cf Hc). lra. }
  rewrite Hskip.
  assert (Hok3 : relay_ok r w3) by (unfold w3; auto 10 with relay).
  rewrite bind_relay by auto with relay.
  rewrite optional_wait.
  2:{ rewrite due_did, due_advance, Hd3. apply (due_false_le _ _ _ Hq).
      rewrite monotonic_did, monotonic_advance, Hm3. lra. }
  eexists. split; [reflexivity|].
  split; [|split; [|split]].
  - rewrite trace_waited, trace_did, trace_advance. unfold w3 at 1.
    rewrite trace_add_line, trace_did, trace_waited, trace_did.
    unfold w0 at 1 2. rewrite trace_built.
    rewrite <- !app_assoc. cbn [app]. apply trace_eq_app; [apply trace_eq_refl|].
    unfold probe_cycle. repeat constructor; cbn [op_at].
    + rewrite monotonic_built. reflexivity.
    + rewrite monotonic_waited, monotonic_did, Hm0. reflexivity.
    + rewrite monotonic_advance, Hm3. reflexivity.
  - rewrite monotonic_waited, monotonic_did, monotonic_advance, Hm3. reflexivity.
  - rewrite sigint_waited, sigint_did, sigint_advance. unfold w3.
    rewrite sigint_add_line, sigint_did, sigint_waited, sigint_did.
    apply sigint_built.
  - apply (same_hardware_trans _ w0); [apply same_hardware_built|].
    apply (same_hardware_trans _ (did r OPEN w0)); [apply same_hardware_did|].
    apply (same_hardware_trans _ (waited (ProbePhase p (_relay_name_for_pin p) OPEN os) os
                                         (did r OPEN w0)));
      [apply same_hardware_waited|].
    apply (same_hardware_trans _ w3).
    { unfold w3.
      apply (same_hardware_trans _ (did r CLOSE
               (waited (ProbePhase p (_relay_name_for_pin p) OPEN os) os (did r OPEN w0))));
        [apply same_hardware_did | apply same_hardware_add_line]. }
    apply (same_hardware_trans _ (advance cf w3)); [apply same_hardware_advance|].
    apply (same_hardware_trans _ (did r OPEN (advance cf w3)));
      [apply same_hardware_did | apply same_hardware_waited].
Qed.

Lemma sweep_seconds_succ (n : nat) (os cf ps : Q) :
  sweep_seconds (S n) os cf ps
  == Qmax 0 os + Qmax 0 cf + Qmax 0 ps + sweep_seconds n os cf ps.
Proof.
  unfold sweep_seconds. rewrite inject_nat_succ. ring.
Qed.

Lemma probe_sweep_run (al : bool) (pulse_ms : Z) (os : Q) (cs : option Q)
    (ps : Q) (dry : bool) (pins : list Z) :
  forall w : world,
    hardware_ok dry w -> close_for_ok pulse_ms cs -> sigint w = None ->
    exists w',
      for_each pins (probe_one al pulse_ms os cs ps dry) w = (Ret tt, w') /\
      trace_eq (trace w')
        (trace w ++ probe_sweep (monotonic w) pins os (close_for pulse_ms cs) ps) /\
      monotonic w' ==
        monotonic w + sweep_seconds (length pins) os (close_for pulse_ms cs) ps /\
      sigint w' = None.
Proof.
  induction pins as [|p rest IH]; intros w Hhw Hcf Hq.
  - exists w. split; [reflexivity|]. split; [|split; [|exact Hq]].
    + cbn [probe_sweep]. rewrite app_nil_r. apply trace_eq_refl.
    + unfold sweep_seconds. cbn [length]. change (inject_Z (Z.of_nat 0)) with 0. ring.
  - destruct (probe_one_run al pulse_ms os cs ps dry p w Hhw Hcf (due_quiet w _ Hq))
      as (w1 & Hrun & Htr & Hclock & Hsig & Hsame).
    assert (Hq1 : sigint w1 = None) by (rewrite Hsig; exact Hq).
    destruct (IH w1 (hardware_ok_same dry w w1 Hsame Hhw) Hcf Hq1)
      as (w2 & Hrest & Htr2 & Hclock2 & Hq2).
    exists w2. split; [|split; [|split; [|exact Hq2]]].
    + cbn [for_each]. unfold bind. rewrite Hrun. exact Hrest.
    + apply (trace_eq_trans _ _ _ Htr2).
      cbn [probe_sweep]. rewrite app_assoc.
      apply trace_eq_app; [exact Htr|].
      apply probe_sweep_compat. exact Hclock.
    + cbn [length]. rewrite Hclock2, Hclock, sweep_seconds_succ. ring.
Qed.

Lemma cmd_probe_run (al : bool) (pulse_ms : Z) (os : Q) (cs : option Q)
    (ps : Q) (dry : bool) (pins : list Z) (w : world) :
  pins <> [] -> hardware_ok dry w -> close_for_ok pulse_ms cs -> sigint w = None ->
  exists w',
    cmd_probe pins al pulse_ms os cs ps dry w = (Ret tt, w') /\
    trace_eq (trace w')
      (trace w ++ probe_sweep (monotonic w) pins os (close_for pulse_ms cs) ps) /\
    monotonic w' ==
      monotonic w + sweep_seconds (length pins) os (close_for pulse_ms cs) ps.
Proof.
  intros Hne Hhw Hcf Hq.
  destruct (probe_sweep_run al pulse_ms os cs ps dry pins (add_line Probing w)
              Hhw Hcf Hq) as (w' & Hrun & Htr & Hclock & _).
  exists w'. split; [|split; [exact Htr|exact Hclock]].
  unfold cmd_probe. destruct pins as [|p r]; [contradiction|].
  rewrite bind_print. exact Hrun.
Qed.

Lemma default_sweep (t : Q) :
  trace_eq
    (probe_sweep t [4; 22; 6; 26]%Z 0.0 (close_for 300 None) 0.5)
    (default_cycle t 4 ++
     default_cycle (t + (0 + 0.3 + 0.5)) 22 ++
     default_cycle (t + (0 + 0.3 + 0.5) + (0 + 0.3 + 0.5)) 6 ++
     default_cycle (t + (0 + 0.3 + 0.5) + (0 + 0.3 + 0.5) + (0 + 0.3 + 0.5)) 26).
Proof.
  assert (E1 : Qmax 0 0.0 == 0) by reflexivity.
  assert (E2 : Qmax 0 (close_for 300 None) == 0.3) by reflexivity.
  assert (E3 : Qmax 0 0.5 == 0.5) by reflexivity.
  cbn [probe_sweep probe_cycle default_cycle app].
  repeat constructor; cbn [op_at]; rewrite ?E1, ?E2, ?E3; lra.
Qed.

Lemma default_pulse_fits : close_for_ok 300 None.
Proof. intros _. unfold fits_float. reflexivity. Qed.

(** A sweep that cannot start: the close wait has no float, or the first
    device cannot be had. *)
Lemma cmd_probe_overflow (al : bool) (pulse_ms : Z) (os ps : Q) (dry : bool)
    (pins : list Z) (w : world) :
  pins <> [] -> hardware_ok dry w -> ~ fits_float pulse_ms ->
  cmd_probe pins al pulse_ms os None ps dry w
  = (Raise OverflowError, built dry (add_line Probing w)).
Proof.
  intros Hne Hhw Hbig. unfold cmd_probe. destruct pins as [|p r]; [contradiction|].
  rewrite bind_print. cbn [for_each]. unfold probe_one.
  rewrite bind_bind, bind_init by exact Hhw.
  rewrite bind_bind. unfold bind at 1.
  rewrite (true_div_overflow pulse_ms _ _ Hbig). reflexivity.
Qed.

Lemma cmd_probe_pin_unavailable (al : bool) (pulse_ms : Z) (os : Q)
    (cs : option Q) (ps : Q) (p : Z) (rest : list Z) (w : world) :
  gpiozero w = true -> device_fails w (devices w) = true ->
  cmd_probe (p :: rest) al pulse_ms os cs ps false w
  = (Raise (PinUnavailable p), count_device (add_line Probing w)).
Proof.
  intros Hg Hd. unfold cmd_probe. rewrite bind_print. cbn [for_each].
  unfold probe_one. rewrite bind_bind. unfold bind at 1.
  unfold Relay_init. cbn [gpiozero device_fails devices add_line].
  rewrite Hg, Hd. reflexivity.
Qed.

(** C8.  The probe sweep handles the channels in the order given, each
    with the cycle open, wait(open), close, wait(close), open, wait(post)
    completed before the next begins; an unset close duration is the
    pulse width.  For the default list 4,22,6,26 and the default
    durations the cycle is open, wait(0), close, wait(0.3), open,
    wait(0.5), the sweep ending after the last of the four waits of
    0.5 s.  This is the sweep on healthy hardware (simulated, or with
    every device constructed and every write done) and with no interrupt;
    a pulse width too large for a float, or a device that cannot be
    constructed, ends the sweep before the channel is touched. *)
Theorem C8_probe_sweep :
  forall (fuel : nat) (args : Args.t) (w : world),
    Args.cmd args = Probe ->
    hardware_ok (Args.dry_run args) w ->
    sigint w = None ->
    (forall pins : list Z,
        pins <> [] ->
        close_for_ok (Args.pulse_ms args) (Args.close_seconds args) ->
        exists w',
          cmd_probe pins (Args.active_low args) (Args.pulse_ms args)
                    (Args.open_seconds args) (Args.close_seconds args)
                    (Args.post_open_seconds args) (Args.dry_run args) w
          = (Ret tt, w') /\
          trace_eq (trace w')
            (trace w ++
             probe_sweep (monotonic w) pins (Args.open_seconds args)
               (match Args.close_seconds args with
                | Some c => c
                | None => inject_Z (Args.pulse_ms args) / 1000.0
                end)
               (Args.post_open_seconds args)) /\
          monotonic w' ==
            monotonic w +
            sweep_seconds (length pins) (Args.open_seconds args)
              (match Args.close_seconds args with
               | Some c => c
               | None => inject_Z (Args.pulse_ms args) / 1000.0
               end)
              (Args.post_open_seconds args)) /\
    (Args.pins args = Args.pins (Args.defaults Probe) ->
     Args.pulse_ms args = Args.pulse_ms (Args.defaults Probe) ->
     Args.open_seconds args = Args.open_seconds (Args.defaults Probe) ->
     Args.close_seconds args = Args.close_seconds (Args.defaults Probe) ->
     Args.post_open_seconds args = Args.post_open_seconds (Args.defaults Probe) ->
     exists w',
       main fuel args w = (Ret 0%Z, w') /\
       trace_eq (trace w')
         (trace w ++
          default_cycle (monotonic w) 4 ++
          default_cycle (monotonic w + (0 + 0.3 + 0.5)) 22 ++
          default_cycle (monotonic w + (0 + 0.3 + 0.5) + (0 + 0.3 + 0.5)) 6 ++
          default_cycle
            (monotonic w + (0 + 0.3 + 0.5) + (0 + 0.3 + 0.5) + (0 + 0.3 + 0.5)) 26) /\
       monotonic w' ==
         monotonic w + (0 + 0.3 + 0.5) + (0 + 0.3 + 0.5) + (0 + 0.3 + 0.5)
                     + (0 + 0.3 + 0.5)) /\
    (forall pins : list Z,
        pins <> [] ->
        Args.close_seconds args = None ->
        ~ fits_float (Args.pulse_ms args) ->
        cmd_probe pins (Args.active_low args) (Args.pulse_ms args)
                  (Args.open_seconds args) None
                  (Args.post_open_seconds args) (Args.dry_run args) w
        = (Raise OverflowError, built (Args.dry_run args) (add_line Probing w))) /\
    (forall (p : Z) (rest : list Z),
        Args.dry_run args = false ->
        forall w0 : world,
          gpiozero w0 = true -> device_fails w0 (devices w0) = true ->
          cmd_probe (p :: rest) (Args.active_low args) (Args.pulse_ms args)
                    (Args.open_seconds args) (Args.close_seconds args)
                    (Args.post_open_seconds args) false w0
          = (Raise (PinUnavailable p), count_device (add_line Probing w0))).
Proof.
  intros fuel args w Hcmd Hhw Hq. split; [|split; [|split]].
  - intros pins Hne Hcf.
    exact (cmd_probe_run _ _ _ _ _ _ pins w Hne Hhw Hcf Hq).
  - intros Hpins Hpulse Hos Hcs Hps.
    cbn [Args.pins Args.pulse_ms Args.open_seconds Args.close_seconds
           Args.post_open_seconds Args.defaults] in Hpins, Hpulse, Hos, Hcs, Hps.
    destruct (cmd_probe_run (Args.active_low args) 300 0.0 None 0.5
                (Args.dry_run args) [4; 22; 6; 26]%Z w
                ltac:(discriminate) Hhw default_pulse_fits Hq)
      as (w' & Hrun & Htr & Hclock).
    exists w'. split; [|split].
    + unfold main. rewrite Hcmd, Hpins, Hpulse, Hos, Hcs, Hps.
      change (filter (fun p => negb (String.eqb p ""))
                (map Text.strip (Text.split_comma "4,22,6,26")))
        with ["4"%string; "22"%string; "6"%string; "26"%string].
      unfold bind at 1.
      change (parse_pins ["4"%string; "22"%string; "6"%string; "26"%string] w)
        with (Ret [4; 22; 6; 26]%Z, w).
      unfold bind at 1. rewrite Hrun. reflexivity.
    + apply (trace_eq_trans _ _ _ Htr).
      apply trace_eq_app; [apply trace_eq_refl|]. apply default_sweep.
    + rewrite Hclock.
      assert (E : sweep_seconds (length [4; 22; 6; 26]%Z) 0.0 (close_for 300 None) 0.5
                  == (0 + 0.3 + 0.5) + (0 + 0.3 + 0.5) + (0 + 0.3 + 0.5) + (0 + 0.3 + 0.5))
        by reflexivity.
      rewrite E. ring.
  - intros pins Hne Hcs Hbig.
    exact (cmd_probe_overflow _ _ _ _ _ pins w Hne Hhw Hbig).
  - intros p rest Hdry w0 Hg Hd.
    exact (cmd_probe_pin_unavailable _ _ _ _ _ p rest w0 Hg Hd).
Qed.

Lemma C8_probe_sweep_witness :
  exists w',
    main 0 (Args.defaults Probe) calm = (Ret 0%Z, w') /\
    trace_eq (trace w')
      (trace calm ++
       default_cycle (monotonic calm) 4 ++
       default_cycle (monotonic calm + (0 + 0.3 + 0.5)) 22 ++
       default_cycle (monotonic calm + (0 + 0.3 + 0.5) + (0 + 0.3 + 0.5)) 6 ++
       default_cycle
         (monotonic calm + (0 + 0.3 + 0.5) + (0 + 0.3 + 0.5) + (0 + 0.3 + 0.5)) 26) /\
    monotonic w' ==
      monotonic calm + (0 + 0.3 + 0.5) + (0 + 0.3 + 0.5) + (0 + 0.3 + 0.5)
                     + (0 + 0.3 + 0.5).
Proof.
  apply (proj1 (proj2 (C8_probe_sweep 0 (Args.defaults Probe) calm eq_refl
                  (or_intror (conj eq_refl (conj (fun _ => eq_refl) (fun _ => eq_refl))))
                  eq_refl)));
    reflexivity.
Defined.

(** ** Cancellation *)

Lemma last_action_snoc (p : Z) (tr : list op) (t : Q) (a : action) :
  last_action p (tr ++ [Op t p a]) = Some a.
Proof.
  unfold last_action. rewrite rev_app_distr. cbn [rev app filter op_pin].
  rewrite Z.eqb_refl. reflexivity.
Qed.

(** C1 fails on the code.  Ctrl+C during the pulse of [ignite], or during
    the timed hold of [on], ends the invocation with status 130 and the
    relay's last operation is [close]; only the indefinite hold reopens
    the relay. *)
Theorem C1_cancelled_wait_leaves_relay_closed :
  (fst (__main__ 0 ignite_sim ctrl_c) = Exited 130 /\
   last_action 4 (trace (snd (__main__ 0 ignite_sim ctrl_c))) = Some CLOSE) /\
  (fst (__main__ 0 on_timed_sim ctrl_c) = Exited 130 /\
   last_action 4 (trace (snd (__main__ 0 on_timed_sim ctrl_c))) = Some CLOSE) /\
  (fst (__main__ 1 on_sim ctrl_c) = Exited 0 /\
   last_action 4 (trace (snd (__main__ 1 on_sim ctrl_c))) = Some OPEN).
Proof. vm_compute. repeat split. Qed.

Lemma hold_forever_run (fuel : nat) (relay : Relay) (w : world) (t : Q) :
  relay_ok relay w ->
  sigint w = Some t ->
  monotonic w <= t ->
  t < monotonic w + inject_Z (Z.of_nat fuel) ->
  exists w',
    cmd_hold fuel relay None w = (Ret tt, w') /\
    trace_eq (trace w')
      (trace w ++
         [ Op (monotonic w) (pin (_cfg relay)) OPEN;
           Op (monotonic w) (pin (_cfg relay)) CLOSE;
           Op t (pin (_cfg relay)) OPEN ]).
Proof.
  intros Hok Hsig Hle Hlt. unfold cmd_hold, Relay_open, Relay_close.
  rewrite bind_relay by exact Hok.
  rewrite bind_relay by auto with relay.
  rewrite bind_bind, bind_print.
  rewrite (bind_hold_forever fuel _ _ t).
  2:{ rewrite sigint_add_line, !sigint_did. exact Hsig. }
  2:{ rewrite monotonic_add_line, !monotonic_did. exact Hlt. }
  2:{ rewrite monotonic_add_line, !monotonic_did. exact Hle. }
  rewrite relay_call_ok by auto 10 with relay.
  eexists. split; [reflexivity|].
  rewrite trace_did, trace_interrupted, trace_add_line, !trace_did, monotonic_did.
  rewrite <- !app_assoc. cbn [app].
  apply trace_eq_app; [apply trace_eq_refl|].
  repeat constructor; cbn [op_at].
  rewrite (monotonic_interrupted _ t)
    by (rewrite sigint_add_line, !sigint_did; exact Hsig).
  rewrite monotonic_add_line, !monotonic_did. apply Q.max_r. exact Hle.
Qed.

(** ** Hardware write failures *)

Lemma no_write_fail_stop {A : Type} (m : M A) : no_write m -> fail_stop m.
Proof.
  intros H w o w' E. destruct (H w o w' E) as (Hwf & Hn & _).
  split; [exact Hwf|]. split; [lia|]. intros n Hr. lia.
Qed.

Lemma no_write_ret {A : Type} (a : A) : no_write (ret a).
Proof. intros w o w' E. inversion E; subst. repeat split. Qed.

Lemma no_write_raise {A : Type} (e : exn) : no_write (@raise A e).
Proof. intros w o w' E. inversion E; subst. repeat split. Qed.

Lemma no_write_print (l : line) : no_write (print l).
Proof. intros w o w' E. inversion E; subst. repeat split. Qed.

Lemma no_write_time_sleep (d : Q) : no_write (time_sleep d).
Proof.
  intros w o w' E. unfold time_sleep in E.
  destruct (sigint w) as [t|]; [destruct (Qltb t (monotonic w + d))|];
    inversion E; subst; repeat split.
Qed.

Lemma no_write_bind {A B : Type} (m : M A) (k : A -> M B) :
  no_write m -> (forall a, no_write (k a)) -> no_write (bind m k).
Proof.
  intros Hm Hk w o w' E. unfold bind in E.
  destruct (m w) as [[a|e|] w1] eqn:Em;
    destruct (Hm w _ w1 Em) as (Hwf & Hn & Htr).
  - destruct (Hk a w1 o w' E) as (Hwf' & Hn' & Htr'). repeat split; congruence.
  - inversion E; subst. repeat split; assumption.
  - inversion E; subst. repeat split; assumption.
Qed.

Lemma no_write_sleep_loop (fuel : nat) (end_ : Q) : no_write (sleep_loop fuel end_).
Proof.
  induction fuel as [|k IH].
  - intros w o w' E. inversion E; subst. repeat split.
  - cbn [sleep_loop]. apply no_write_bind.
    + intros w o w' E. inversion E; subst. repeat split.
    + intro now. destruct (Qle_bool (end_ - now) 0).
      * apply no_write_ret.
      * apply no_write_bind; [apply no_write_time_sleep|intros _; exact IH].
Qed.

Lemma no_write_sleep (d : Q) : no_write (_sleep_with_sigint d).
Proof.
  unfold _sleep_with_sigint. apply no_write_bind.
  - intros w o w' E. inversion E; subst. repeat split.
  - intro now. apply no_write_sleep_loop.
Qed.

Lemma no_write_sleep_forever (fuel : nat) : no_write (sleep_forever fuel).
Proof.
  induction fuel as [|k IH].
  - intros w o w' E. inversion E; subst. repeat split.
  - cbn [sleep_forever].
    apply no_write_bind; [apply no_write_time_sleep|intros _; exact IH].
Qed.

Lemma no_write_except (body : M unit) :
  no_write body -> no_write (except_KeyboardInterrupt_pass body).
Proof.
  intros H w o w' E. unfold except_KeyboardInterrupt_pass in E.
  destruct (body w) as [[a|e|] w1] eqn:Eb;
    destruct (H w _ w1 Eb) as (Hwf & Hn & Htr);
    try (inversion E; subst; repeat split; assumption).
  destruct e; inversion E; subst; repeat split; assumption.
Qed.

Lemma no_write_guard (min : Q) (dry : bool) : no_write (_guard_after_boot min dry).
Proof.
  unfold _guard_after_boot. destruct (Qle_bool min 0); [apply no_write_ret|].
  apply no_write_bind.
  - intros w o w' E. inversion E; subst. repeat split.
  - intros [up|].
    + destruct (Qltb 0 (min - up)); [|apply no_write_ret].
      apply no_write_bind; [apply no_write_print|intros _; apply no_write_sleep].
    + destruct dry; [apply no_write_print|apply no_write_ret].
Qed.

Lemma no_write_lift {A : Type} (r : exits A) : no_write (lift_exits r).
Proof. destruct r; [apply no_write_ret|apply no_write_raise]. Qed.

Lemma no_write_init (cfg : RelayConfig) (dry : bool) : no_write (Relay_init cfg dry).
Proof.
  intros w o w' E. unfold Relay_init in E.
  destruct dry;
    [|destruct (gpiozero w); [destruct (device_fails w (devices w))|]];
    inversion E; subst; repeat split.
Qed.

Lemma no_write_true_div (n : Z) (d : Q) : no_write (true_div n d).
Proof.
  unfold true_div. destruct (int_to_float n);
    [apply no_write_ret|apply no_write_raise].
Qed.

Lemma no_write_close_for (pulse_ms : Z) (cs : option Q) :
  no_write (match cs with
            | Some c => ret c
            | None => true_div pulse_ms 1000.0
            end).
Proof. destruct cs; [apply no_write_ret|apply no_write_true_div]. Qed.

Lemma no_write_parse_pins (l : list string) : no_write (parse_pins l).
Proof.
  induction l as [|p r IH]; cbn [parse_pins]; [apply no_write_ret|].
  apply no_write_bind.
  - unfold _parse_pin. destruct (Text.int p);
      [apply no_write_ret|apply no_write_raise].
  - intro n. apply no_write_bind; [exact IH|intro ns; apply no_write_ret].
Qed.

Lemma fail_stop_bind {A B : Type} (m : M A) (k : A -> M B) :
  fail_stop m -> (forall a, fail_stop (k a)) -> fail_stop (bind m k).
Proof.
  intros Hm Hk w o w' E. unfold bind in E.
  destruct (m w) as [[a|e|] w1] eqn:Em;
    destruct (Hm w _ w1 Em) as (Hwf & Hle & Hfail).
  - destruct (Hk a w1 o w' E) as (Hwf' & Hle' & Hfail').
    split; [congruence|]. split; [lia|].
    intros n Hr Hn.
    destruct (Nat.lt_ge_cases n (writes w1)) as [Hlt|Hge].
    + destruct (Hfail n ltac:(lia) Hn) as (_ & p & a' & tr & Ho & _).
      discriminate.
    + apply Hfail'; [lia|]. rewrite Hwf. exact Hn.
  - inversion E; subst. split; [exact Hwf|]. split; [exact Hle|].
    intros n Hr Hn. destruct (Hfail n Hr Hn) as (Hlast & p & a' & tr & Ho & Htr).
    split; [exact Hlast|]. exists p, a', tr. split; [congruence|exact Htr].
  - inversion E; subst. split; [exact Hwf|]. split; [exact Hle|].
    intros n Hr Hn. destruct (Hfail n Hr Hn) as (_ & p & a' & tr & Ho & _).
    discriminate.
Qed.

Lemma fail_stop_relay_call (r : Relay) (a : action) : fail_stop (relay_call r a).
Proof.
  intros w o w' E. unfold relay_call in E.
  destruct (_dry_run r).
  - inversion E; subst. split; [reflexivity|]. split; [apply Nat.le_refl|].
    cbn [writes add_line add_op]. intros n Hr. lia.
  - unfold device_write in E. cbn [write_fails writes add_op] in E.
    destruct (write_fails w (writes w)) eqn:Hf; inversion E; subst;
      (split; [reflexivity|]); (split; [cbn; lia|]);
      cbn [writes count_write add_op]; intros n Hr Hn;
      assert (n = writes w) by lia; subst n.
    + split; [reflexivity|].
      exists (pin (_cfg r)), a, (trace w). split; reflexivity.
    + congruence.
Qed.

Lemma fail_stop_for_each {A : Type} (l : list A) (body : A -> M unit) :
  (forall x, fail_stop (body x)) -> fail_stop (for_each l body).
Proof.
  intro H. induction l as [|x r IH]; cbn [for_each].
  - apply no_write_fail_stop, no_write_ret.
  - apply fail_stop_bind; [apply H|intros _; exact IH].
Qed.

Create HintDb stop.
#[local] Hint Resolve no_write_fail_stop no_write_ret no_write_raise
  no_write_print no_write_sleep no_write_sleep_forever no_write_except
  no_write_guard no_write_lift no_write_init no_write_parse_pins
  fail_stop_relay_call : stop.

Ltac stop_steps :=
  repeat first
    [ apply fail_stop_relay_call
    | apply no_write_fail_stop;
      first [ apply no_write_sleep | apply no_write_guard
            | apply no_write_ret | apply no_write_raise | apply no_write_print
            | apply no_write_lift | apply no_write_init
            | apply no_write_parse_pins | apply no_write_true_div
            | apply no_write_close_for
            | apply no_write_except, no_write_sleep_forever ]
    | apply fail_stop_bind; [|intro] ].

Lemma fail_stop_hold_wait (fuel : nat) (l : line) (hold : option Q) :
  fail_stop (match hold with
             | None => print l ;; except_KeyboardInterrupt_pass (sleep_forever fuel)
             | Some h => _sleep_with_sigint h
             end).
Proof.
  destruct hold; [stop_steps|].
  apply no_write_fail_stop, no_write_bind;
    [apply no_write_print|intros _; apply no_write_except, no_write_sleep_forever].
Qed.

Lemma fail_stop_pulse (relay : Relay) (pulse_ms : Z) : fail_stop (cmd_pulse relay pulse_ms).
Proof. unfold cmd_pulse, Relay_open, Relay_close. stop_steps. Qed.

Lemma fail_stop_hold (fuel : nat) (relay : Relay) (hold : option Q) :
  fail_stop (cmd_hold fuel relay hold).
Proof.
  unfold cmd_hold, Relay_open, Relay_close.
  apply fail_stop_bind; [apply fail_stop_relay_call|intros _].
  apply fail_stop_bind; [apply fail_stop_relay_call|intros _].
  apply fail_stop_bind; [apply fail_stop_hold_wait|intros _].
  apply fail_stop_relay_call.
Qed.

Lemma fail_stop_maintained (fuel : nat) (relay : Relay) (hold : option Q) :
  fail_stop (cmd_maintained fuel relay hold).
Proof.
  unfold cmd_maintained, Relay_open, Relay_close.
  do 7 (apply fail_stop_bind; [stop_steps|intros _]).
  apply fail_stop_bind; [apply fail_stop_hold_wait|intros _].
  apply fail_stop_relay_call.
Qed.

Lemma fail_stop_optional_wait (l : line) (d : Q) :
  fail_stop (if Qltb 0 d then print l ;; _sleep_with_sigint d else ret tt).
Proof. destruct (Qltb 0 d); stop_steps. Qed.

Lemma fail_stop_probe (pins : list Z) (al : bool) (pulse_ms : Z) (os : Q)
    (cs : option Q) (ps : Q) (dry : bool) :
  fail_stop (cmd_probe pins al pulse_ms os cs ps dry).
Proof.
  unfold cmd_probe. destruct pins as [|p r]; [stop_steps|].
  apply fail_stop_bind; [stop_steps|intros _].
  apply fail_stop_for_each. intro x. unfold probe_one, Relay_open, Relay_close.
  apply fail_stop_bind; [stop_steps|intro relay].
  apply fail_stop_bind; [stop_steps|intro close_for].
  apply fail_stop_bind; [stop_steps|intros _].
  apply fail_stop_bind; [apply fail_stop_optional_wait|intros _].
  apply fail_stop_bind; [stop_steps|intros _].
  apply fail_stop_bind; [stop_steps|intros _].
  apply fail_stop_bind; [stop_steps|intros _].
  apply fail_stop_bind; [stop_steps|intros _].
  apply fail_stop_optional_wait.
Qed.

Lemma fail_stop_select (needed : bool) (p : option Z) (missing : string) (a : Args.t) :
  fail_stop (select_relay needed p missing a).
Proof. unfold select_relay. destruct needed; [destruct p|]; stop_steps. Qed.

Lemma fail_stop_open_if_present (r : option Relay) : fail_stop (open_if_present r).
Proof. destruct r; cbn [open_if_present]; unfold Relay_open; stop_steps. Qed.

Lemma fail_stop_asserted (r : option Relay) (k : Relay -> M Z) :
  (forall relay, fail_stop (k relay)) -> fail_stop (asserted r k).
Proof. intro H. destruct r; cbn [asserted]; [apply H|stop_steps]. Qed.

Lemma fail_stop_main (fuel : nat) (args : Args.t) : fail_stop (main fuel args).
Proof.
  unfold main.
  assert (Hpulse : forall relay,
             fail_stop (cmd_pulse relay (Args.pulse_ms args) ;; ret 0%Z)).
  { intro relay. apply fail_stop_bind; [apply fail_stop_pulse|intro; stop_steps]. }
  assert (Hhold : forall relay,
             fail_stop (cmd_hold fuel relay (Args.hold_seconds args) ;; ret 0%Z)).
  { intro relay. apply fail_stop_bind; [apply fail_stop_hold|intro; stop_steps]. }
  assert (Hopen : forall relay, fail_stop (Relay_open relay ;; ret 0%Z)).
  { intro relay. unfold Relay_open. stop_steps. }
  assert (Hignite : forall relay,
             fail_stop ((if Args.maintained args
                         then cmd_maintained fuel relay (Args.hold_seconds args)
                         else cmd_pulse relay (Args.pulse_ms args)) ;; ret 0%Z)).
  { intro relay. apply fail_stop_bind; [|intro; stop_steps].
    destruct (Args.maintained args);
      [apply fail_stop_maintained|apply fail_stop_pulse]. }
  destruct (Args.cmd args).
  - apply fail_stop_bind; [|intro; stop_steps].
    destruct (Args.json args); [stop_steps|].
    apply fail_stop_bind; [stop_steps|intros _].
    apply fail_stop_bind; [|intro; stop_steps].
    apply fail_stop_for_each. intro x. stop_steps.
  - do 6 (apply fail_stop_bind;
          [first [apply fail_stop_select | apply fail_stop_open_if_present
                 | stop_steps]|intro]).
    apply fail_stop_bind; [cbn [guarded]; stop_steps|intro].
    apply fail_stop_asserted. exact Hignite.
  - do 6 (apply fail_stop_bind;
          [first [apply fail_stop_select | apply fail_stop_open_if_present
                 | stop_steps]|intro]).
    apply fail_stop_bind; [cbn [guarded]; stop_steps|intro].
    apply fail_stop_asserted. exact Hhold.
  - do 6 (apply fail_stop_bind;
          [first [apply fail_stop_select | apply fail_stop_open_if_present
                 | stop_steps]|intro]).
    apply fail_stop_bind; [cbn [guarded]; stop_steps|intro].
    apply fail_stop_asserted. exact Hopen.
  - do 6 (apply fail_stop_bind;
          [first [apply fail_stop_select | apply fail_stop_open_if_present
                 | stop_steps]|intro]).
    apply fail_stop_bind; [cbn [guarded]; stop_steps|intro].
    apply fail_stop_asserted. exact Hhold.
  - do 6 (apply fail_stop_bind;
          [first [apply fail_stop_select | apply fail_stop_open_if_present
                 | stop_steps]|intro]).
    apply fail_stop_bind; [cbn [guarded]; stop_steps|intro].
    apply fail_stop_asserted. exact Hopen.
  - do 6 (apply fail_stop_bind;
          [first [apply fail_stop_select | apply fail_stop_open_if_present
                 | stop_steps]|intro]).
    apply fail_stop_bind; [cbn [guarded]; stop_steps|intro].
    apply fail_stop_asserted. exact Hpulse.
  - apply fail_stop_bind; [stop_steps|intro ns].
    apply fail_stop_bind; [apply fail_stop_probe|intro; stop_steps].
Qed.

(** C4, as the code has it.  When a device write fails, the invocation
    stops there: no later write is attempted (no trailing open), the call
    that failed is the last relay operation made, and the failure is not
    hidden: the process dies of the device error, with exit status 1. *)
Theorem C4_write_failure_aborts :
  forall (fuel : nat) (args : Args.t) (w : world) (st : status) (w' : world)
         (n : nat),
    __main__ fuel args w = (st, w') ->
    (writes w <= n < writes w')%nat ->
    write_fails w n = true ->
    S n = writes w' /\
    exists p a tr,
      st = Died (DeviceError p) /\
      exit_code st = Some 1%Z /\
      trace w' = tr ++ [Op (monotonic w') p a].
Proof.
  intros fuel args w st w' n E Hr Hn. unfold __main__ in E.
  destruct (main fuel args w) as [o w1] eqn:Em.
  destruct (fail_stop_main fuel args w o w1 Em) as (_ & _ & Hfail).
  assert (Hw : writes w' = writes w1 /\ monotonic w' = monotonic w1 /\
               trace w' = trace w1).
  { destruct o as [c|e|]; [|destruct e|]; inversion E; subst; repeat split. }
  destruct Hw as (Hw1 & Hm1 & Ht1).
  rewrite Hw1 in Hr.
  destruct (Hfail n Hr Hn) as (Hlast & p & a & tr & Ho & Htr).
  subst o. inversion E; subst.
  split; [exact Hlast|].
  exists p, a, tr. repeat split. exact Htr.
Qed.

Lemma C4_write_failure_aborts_witness :
  3%nat = writes (snd (__main__ 0 on_live faulty)) /\
  exists p a tr,
    fst (__main__ 0 on_live faulty) = Died (DeviceError p) /\
    exit_code (fst (__main__ 0 on_live faulty)) = Some 1%Z /\
    trace (snd (__main__ 0 on_live faulty))
    = tr ++ [Op (monotonic (snd (__main__ 0 on_live faulty))) p a].
Proof.
  apply (C4_write_failure_aborts 0 on_live faulty
           (fst (__main__ 0 on_live faulty)) (snd (__main__ 0 on_live faulty)) 2).
  - apply surjective_pairing.
  - vm_compute. split; apply Nat.le_refl || (repeat constructor).
  - reflexivity.
Defined.

(** C4 as stated fails: after the failed closure nothing more is
    attempted, so the relay gets no trailing open. *)
Lemma C4_no_trailing_open :
  fst (__main__ 0 on_live faulty) = Died (DeviceError 4) /\
  map op_action (trace (snd (__main__ 0 on_live faulty))) = [OPEN; OPEN; CLOSE] /\
  writes (snd (__main__ 0 on_live faulty)) = 3%nat.
Proof. vm_compute. repeat split. Qed.

(** ** Scope of the boot guard *)

Lemma only_opens_no_write {A : Type} (m : M A) : no_write m -> only_opens m.
Proof.
  intros H w o w' E. destruct (H w o w' E) as (_ & _ & Htr).
  exists []. rewrite app_nil_r. split; [exact Htr|constructor].
Qed.

Lemma only_opens_bind {A B : Type} (m : M A) (k : A -> M B) :
  only_opens m -> (forall a, only_opens (k a)) -> only_opens (bind m k).
Proof.
  intros Hm Hk w o w' E. unfold bind in E.
  destruct (m w) as [[a|e|] w1] eqn:Em; destruct (Hm w _ w1 Em) as (l & Hl & Ho).
  - destruct (Hk a w1 o w' E) as (l' & Hl' & Ho').
    exists (l ++ l'). rewrite app_assoc, <- Hl. split; [exact Hl'|].
    apply Forall_app. split; assumption.
  - inversion E; subst. exists l. split; assumption.
  - inversion E; subst. exists l. split; assumption.
Qed.

Lemma only_opens_open (r : Relay) : only_opens (Relay_open r).
Proof.
  intros w o w' E. exists [Op (monotonic w) (pin (_cfg r)) OPEN].
  split; [|repeat constructor].
  unfold Relay_open, relay_call in E. destruct (_dry_run r).
  - inversion E; subst. reflexivity.
  - unfold device_write in E. cbn [write_fails writes add_op] in E.
    destruct (write_fails w (writes w)); inversion E; subst; reflexivity.
Qed.

Lemma no_write_select (needed : bool) (p : option Z) (missing : string) (a : Args.t) :
  no_write (select_relay needed p missing a).
Proof.
  unfold select_relay. destruct needed; [destruct p|].
  - apply no_write_bind; [apply no_write_init|intro; apply no_write_ret].
  - apply no_write_raise.
  - apply no_write_ret.
Qed.

Lemma only_opens_open_if_present (r : option Relay) : only_opens (open_if_present r).
Proof.
  destruct r; cbn [open_if_present];
    [apply only_opens_open|apply only_opens_no_write, no_write_ret].
Qed.

Lemma off_only_opens (fuel : nat) (args : Args.t) :
  Args.cmd args = Off -> only_opens (main fuel args).
Proof.
  intro Hcmd. unfold main. rewrite Hcmd.
  apply only_opens_bind; [apply only_opens_no_write, no_write_lift|intro].
  apply only_opens_bind; [apply only_opens_no_write, no_write_lift|intro].
  apply only_opens_bind; [apply only_opens_no_write, no_write_select|intro].
  apply only_opens_bind; [apply only_opens_no_write, no_write_select|intro].
  apply only_opens_bind; [apply only_opens_open_if_present|intro].
  apply only_opens_bind; [apply only_opens_open_if_present|intro].
  apply only_opens_bind; [apply only_opens_no_write, no_write_guard|intro].
  match goal with
  | |- only_opens (asserted ?r _) => destruct r; cbn [asserted]
  end.
  - apply only_opens_bind; [apply only_opens_open|intro].
    apply only_opens_no_write, no_write_ret.
  - apply only_opens_no_write, no_write_raise.
Qed.

Lemma bind_ret {A B : Type} (a : A) (k : A -> M B) (w : world) :
  bind (ret a) k w = k a w.
Proof. reflexivity. Qed.

Lemma proc_uptime_did r a w : proc_uptime (did r a w) = proc_uptime w.
Proof. unfold did. destruct (_dry_run r); reflexivity. Qed.

Lemma stdout_did r a w : exists l, stdout (did r a w) = stdout w ++ l.
Proof.
  unfold did. destruct (_dry_run r).
  - eexists. reflexivity.
  - exists []. rewrite app_nil_r. reflexivity.
Qed.

Lemma guard_blocks {B : Type} (min : Q) (dry : bool) (k : unit -> M B)
    (w : world) (up : Q) :
  0 < min -> proc_uptime w = Some up -> up < min -> sigint w = None ->
  bind (_guard_after_boot min dry) k w
  = k tt (advance (min - up) (add_line (GuardWaiting (min - up)) w)).
Proof.
  intros Hmin Hup Hlt Hq. unfold _guard_after_boot.
  apply Qle_bool_false in Hmin. rewrite Hmin.
  rewrite bind_bind. unfold bind at 1. unfold _read_uptime_seconds. rewrite Hup.
  assert (E : Qltb 0 (min - up) = true) by (apply Qltb_true; lra).
  rewrite E, bind_bind, bind_print, bind_sleep.
  rewrite due_quiet by exact Hq. rewrite andb_false_r. reflexivity.
Qed.

Lemma main_ignores_guard_when_unguarded (fuel : nat) (args : Args.t) (g : Q) (w : world) :
  guarded (Args.cmd args) = false ->
  main fuel (Args.with_boot_guard g args) w = main fuel args w.
Proof.
  destruct args as [c j mr hr pm ph al bg dr pms mt hs pn os cs ps].
  cbn [Args.cmd]. destruct c; cbn [guarded]; try discriminate; reflexivity.
Qed.

(** ** Further properties of the timer and of the simple patterns *)

(** The timer always ends, by returning or by [KeyboardInterrupt]; it
    blocks for at most [max(0, d)], never moves the clock back, and
    touches neither the relays nor the output.  With a duration that is
    not positive it does nothing at all, even with an interrupt pending. *)
Theorem timer_bounded :
  forall (d : Q) (w : world),
    (fst (_sleep_with_sigint d w) = Ret tt \/
     fst (_sleep_with_sigint d w) = Raise KeyboardInterrupt) /\
    monotonic w <= monotonic (snd (_sleep_with_sigint d w)) /\
    monotonic (snd (_sleep_with_sigint d w)) <= monotonic w + Qmax 0 d /\
    trace (snd (_sleep_with_sigint d w)) = trace w /\
    stdout (snd (_sleep_with_sigint d w)) = stdout w /\
    writes (snd (_sleep_with_sigint d w)) = writes w /\
    (d <= 0 -> _sleep_with_sigint d w = (Ret tt, w)).
Proof.
  intros d w. rewrite _sleep_with_sigint_spec.
  pose proof (Q.le_max_l 0 d) as Hnn.
  destruct (Qltb 0 d) eqn:Hd.
  - apply Qltb_true in Hd. cbn [andb].
    assert (Hlast : ~ d <= 0) by lra.
    unfold due. destruct (sigint w) as [t|] eqn:Hsig.
    + destruct (Qltb t (monotonic w + d)) eqn:Ht.
      * apply Qltb_true in Ht. cbn [fst snd].
        pose proof (monotonic_interrupted w t Hsig) as Hm.
        rewrite trace_interrupted, stdout_interrupted.
        repeat split; try (right; reflexivity); try (intro; contradiction).
        -- rewrite Hm. apply Q.le_max_l.
        -- rewrite Hm, (Qmax_0_pos d Hd). apply Q.max_lub; lra.
        -- unfold interrupted. rewrite Hsig. reflexivity.
      * cbn [fst snd]. rewrite trace_advance, stdout_advance.
        repeat split; try (left; reflexivity); try (intro; contradiction).
        -- rewrite monotonic_advance. lra.
        -- rewrite monotonic_advance. lra.
        -- unfold advance. destruct (Qltb 0 d); reflexivity.
    + cbn [fst snd]. rewrite trace_advance, stdout_advance.
      repeat split; try (left; reflexivity); try (intro; contradiction).
      -- rewrite monotonic_advance. lra.
      -- rewrite monotonic_advance. lra.
      -- unfold advance. destruct (Qltb 0 d); reflexivity.
  - cbn [andb fst snd]. unfold advance. rewrite Hd.
    repeat split; try (left; reflexivity); lra.
Qed.

Lemma timer_bounded_witness :
  _sleep_with_sigint (-(1)) ctrl_c = (Ret tt, ctrl_c).
Proof.
  apply (proj2 (proj2 (proj2 (proj2 (proj2 (proj2
           (timer_bounded (-(1)) ctrl_c))))))).
  unfold Qle. cbn. lia.
Defined.

(** On a healthy relay and with no interrupt before the pulse is over, a
    pulse is open, close, open, the relay staying closed for exactly the
    pulse width (for no time at all when the width is not positive).
    The width is divided by [1000.0] once the relay is closed: a width
    too large for a float makes that division raise [OverflowError], and
    the pulse ends there, with the relay closed. *)
Theorem pulse_timing :
  forall (relay : Relay) (pulse_ms : Z) (w : world),
    relay_ok relay w ->
    (fits_float pulse_ms ->
     due w (monotonic w + Qmax 0 (inject_Z pulse_ms / 1000.0)) = false ->
     exists w',
       cmd_pulse relay pulse_ms w = (Ret tt, w') /\
       trace_eq (trace w')
         (trace w ++
            [ Op (monotonic w) (pin (_cfg relay)) OPEN;
              Op (monotonic w) (pin (_cfg relay)) CLOSE;
              Op (monotonic w + Qmax 0 (inject_Z pulse_ms / 1000.0))
                 (pin (_cfg relay)) OPEN ]) /\
       monotonic w' == monotonic w + Qmax 0 (inject_Z pulse_ms / 1000.0)) /\
    (~ fits_float pulse_ms ->
     cmd_pulse relay pulse_ms w
     = (Raise OverflowError, did relay CLOSE (did relay OPEN w)) /\
     trace (did relay CLOSE (did relay OPEN w))
     = trace w ++ [ Op (monotonic w) (pin (_cfg relay)) OPEN;
                    Op (monotonic w) (pin (_cfg relay)) CLOSE ]).
Proof.
  intros relay pulse_ms w Hok. split.
  - intros Hfit Hq.
    set (d := inject_Z pulse_ms / 1000.0) in *.
    unfold cmd_pulse, Relay_open, Relay_close.
    rewrite bind_relay by exact Hok.
    rewrite bind_relay by auto with relay.
    rewrite bind_true_div by exact Hfit. fold d.
    rewrite bind_sleep.
    assert (Hskip : Qltb 0 d &&
                    due (did relay CLOSE (did relay OPEN w))
                        (monotonic (did relay CLOSE (did relay OPEN w)) + d) = false).
    { destruct (Qltb 0 d) eqn:Hd; [|reflexivity]. cbn [andb].
      apply Qltb_true in Hd.
      rewrite !due_did, !monotonic_did.
      rewrite (due_compat w _ (monotonic w + Qmax 0 d)); [exact Hq|].
      rewrite (Qmax_0_pos d Hd). reflexivity. }
    rewrite Hskip, relay_call_ok by auto 10 with relay.
    eexists. split; [reflexivity|]. split.
    + rewrite trace_did, trace_advance, !trace_did, monotonic_did.
      rewrite <- !app_assoc. cbn [app].
      apply trace_eq_app; [apply trace_eq_refl|].
      repeat constructor; cbn [op_at].
      rewrite monotonic_advance, !monotonic_did. reflexivity.
    + rewrite monotonic_did, monotonic_advance, !monotonic_did. reflexivity.
  - intro Hbig. split.
    + unfold cmd_pulse, Relay_open, Relay_close.
      rewrite bind_relay by exact Hok.
      rewrite bind_relay by auto with relay.
      unfold bind at 1. rewrite (true_div_overflow pulse_ms _ _ Hbig). reflexivity.
    + rewrite !trace_did, monotonic_did, <- app_assoc. reflexivity.
Qed.

Lemma pulse_timing_witness :
  (exists w',
     cmd_pulse sim4 250 calm = (Ret tt, w') /\
     trace_eq (trace w')
       (trace calm ++
          [ Op (monotonic calm) (pin (_cfg sim4)) OPEN;
            Op (monotonic calm) (pin (_cfg sim4)) CLOSE;
            Op (monotonic calm + Qmax 0 (inject_Z 250 / 1000.0))
               (pin (_cfg sim4)) OPEN ]) /\
     monotonic w' == monotonic calm + Qmax 0 (inject_Z 250 / 1000.0)) /\
  cmd_pulse sim4 (2 ^ 1024) calm
  = (Raise OverflowError, did sim4 CLOSE (did sim4 OPEN calm)).
Proof.
  split.
  - apply (proj1 (pulse_timing sim4 250 calm (or_introl eq_refl)));
      reflexivity.
  - apply (proj2 (pulse_timing sim4 (2 ^ 1024) calm (or_introl eq_refl))).
    intro H. vm_compute in H. discriminate.
Defined.

(** A timed hold keeps the relay closed for the given time, none at all
    for a duration of 0.  A hold without a duration is another thing: as
    long as no interrupt comes it goes on, with the relay closed. *)
Theorem hold_timing :
  forall (fuel : nat) (relay : Relay) (w : world),
    relay_ok relay w ->
    (forall h : Q,
        due w (monotonic w + Qmax 0 h) = false ->
        exists w',
          cmd_hold fuel relay (Some h) w = (Ret tt, w') /\
          trace_eq (trace w')
            (trace w ++
               [ Op (monotonic w) (pin (_cfg relay)) OPEN;
                 Op (monotonic w) (pin (_cfg relay)) CLOSE;
                 Op (monotonic w + Qmax 0 h) (pin (_cfg relay)) OPEN ])) /\
    (sigint w = None ->
       fst (cmd_hold fuel relay None w) = Running /\
       last_action (pin (_cfg relay)) (trace (snd (cmd_hold fuel relay None w)))
       = Some CLOSE).
Proof.
  intros fuel relay w Hok. split.
  - intros h Hq. unfold cmd_hold, Relay_open, Relay_close.
    rewrite bind_relay by exact Hok.
    rewrite bind_relay by auto with relay.
    rewrite bind_sleep.
    assert (Hskip : Qltb 0 h &&
                    due (did relay CLOSE (did relay OPEN w))
                        (monotonic (did relay CLOSE (did relay OPEN w)) + h) = false).
    { destruct (Qltb 0 h) eqn:Hd; [|reflexivity]. cbn [andb].
      apply Qltb_true in Hd.
      rewrite !due_did, !monotonic_did.
      rewrite (due_compat w _ (monotonic w + Qmax 0 h)); [exact Hq|].
      rewrite (Qmax_0_pos h Hd). reflexivity. }
    rewrite Hskip, relay_call_ok by auto 10 with relay.
    eexists. split; [reflexivity|].
    rewrite trace_did, trace_advance, !trace_did, monotonic_did.
    rewrite <- !app_assoc. cbn [app].
    apply trace_eq_app; [apply trace_eq_refl|].
    repeat constructor; cbn [op_at].
    rewrite monotonic_advance, !monotonic_did. reflexivity.
  - intro Hq. unfold cmd_hold, Relay_open, Relay_close.
    rewrite bind_relay by exact Hok.
    rewrite bind_relay by auto with relay.
    rewrite bind_bind, bind_print.
    set (w2 := add_line HoldingRelay (did relay CLOSE (did relay OPEN w))).
    assert (Hq2 : sigint w2 = None).
    { unfold w2. rewrite sigint_add_line, !sigint_did. exact Hq. }
    destruct (sleep_forever_quiet fuel w2 Hq2) as (Hrun & Htr & _).
    unfold bind, except_KeyboardInterrupt_pass.
    destruct (sleep_forever fuel w2) as [o w3]. cbn [fst snd] in *. subst o.
    cbn [fst snd]. split; [reflexivity|].
    rewrite Htr. unfold w2. rewrite trace_add_line, trace_did.
    apply last_action_snoc.
Qed.

Lemma hold_timing_witness :
  exists w',
    cmd_hold 0 sim4 (Some 0) calm = (Ret tt, w') /\
    trace_eq (trace w')
      (trace calm ++
         [ Op (monotonic calm) (pin (_cfg sim4)) OPEN;
           Op (monotonic calm) (pin (_cfg sim4)) CLOSE;
           Op (monotonic calm + Qmax 0 0) (pin (_cfg sim4)) OPEN ]).
Proof.
  apply (proj1 (hold_timing 0 sim4 calm (or_introl eq_refl)) 0). reflexivity.
Defined.

(** ** Validation comes before actuation *)

Lemma parse_pins_spec (l : list string) (w : world) :
  parse_pins l w =
    match ints l with
    | Some ns => (Ret ns, w)
    | None => (Raise pin_type_error, w)
    end.
Proof.
  induction l as [|p r IH]; [reflexivity|].
  cbn [parse_pins ints]. unfold bind at 1. unfold _parse_pin.
  destruct (Text.int p) as [n|]; [|reflexivity].
  cbn [ret]. unfold bind at 1. rewrite IH.
  destruct (ints r); reflexivity.
Qed.

Lemma ints_none (l : list string) :
  (exists p, In p l /\ Text.int p = None) -> ints l = None.
Proof.
  induction l as [|q r IH]; intros (p & Hin & Hp); [destruct Hin|].
  cbn [ints]. destruct Hin as [->|Hin].
  - rewrite Hp. reflexivity.
  - destruct (Text.int q); [|reflexivity].
    rewrite IH by (exists p; split; assumption). reflexivity.
Qed.

(** [probe] reads every pin of the list before it touches a relay: one
    piece that is not an integer, wherever it stands, ends the command
    with the argument error, and a list without any piece ends it with
    "probe requires at least one pin"; in both cases nothing has been
    done or printed. *)
Theorem probe_validates_first :
  forall (fuel : nat) (args : Args.t) (w : world),
    Args.cmd args = Probe ->
    ((exists p, In p (probe_pieces (Args.pins args)) /\ Text.int p = None) ->
     main fuel args w = (Raise pin_type_error, w)) /\
    (probe_pieces (Args.pins args) = [] ->
     main fuel args w
     = (Raise (SystemExit "probe requires at least one pin"), w)).
Proof.
  intros fuel args w Hcmd. unfold main. rewrite Hcmd.
  fold (probe_pieces (Args.pins args)). split.
  - intro Hbad. unfold bind at 1. rewrite parse_pins_spec, (ints_none _ Hbad).
    reflexivity.
  - intros ->. reflexivity.
Qed.

Lemma probe_validates_first_witness :
  main 0 probe_bad_pin calm = (Raise pin_type_error, calm).
Proof.
  apply (proj1 (probe_validates_first 0 probe_bad_pin calm eq_refl)).
  exists "x"%string. split; [right; left; reflexivity|reflexivity].
Defined.

(** Both relay references are resolved before anything else, whatever
    the command: an unknown name in either option ends the command with
    the resolver's message, with no relay touched, even when the command
    does not use that relay. *)
Theorem unknown_reference_aborts_first :
  forall (fuel : nat) (args : Args.t) (w : world) (msg : string),
    relay_command (Args.cmd args) = true ->
    resolve_or (str_ref (Args.main_relay args)) (int_ref (Args.pin_main args))
      = SystemExitMsg msg \/
    (exists mp,
        resolve_or (str_ref (Args.main_relay args)) (int_ref (Args.pin_main args))
          = Returns mp /\
        resolve_or (str_ref (Args.high_relay args)) (int_ref (Args.pin_high args))
          = SystemExitMsg msg) ->
    main fuel args w = (Raise (SystemExit msg), w).
Proof.
  intros fuel args w msg Hc H. unfold main.
  destruct (Args.cmd args); try discriminate;
    destruct H as [Hm|(mp & Hm & Hh)];
    unfold bind, lift_exits; rewrite Hm; try rewrite Hh; reflexivity.
Qed.

Lemma unknown_reference_aborts_first_witness :
  main 0 low_bogus_main calm
  = (Raise (SystemExit (unknown_relay_message "bogus")), calm).
Proof.
  apply (unknown_reference_aborts_first 0 low_bogus_main calm).
  - reflexivity.
  - left. reflexivity.
Defined.

(** On live hardware without the gpiozero driver, a command that needs a
    relay fails with the driver error when it builds the handle: before
    the fail-safe open, before the boot guard, with no relay operation
    made. *)
Theorem driver_missing_fails_first :
  forall (fuel : nat) (args : Args.t) (w : world) (mp hp : option Z),
    relay_command (Args.cmd args) = true ->
    Args.dry_run args = false ->
    gpiozero w = false ->
    resolve_or (str_ref (Args.main_relay args)) (int_ref (Args.pin_main args))
      = Returns mp ->
    resolve_or (str_ref (Args.high_relay args)) (int_ref (Args.pin_high args))
      = Returns hp ->
    (needs_main (Args.cmd args) = true -> mp <> None) ->
    (needs_high (Args.cmd args) = true -> hp <> None) ->
    main fuel args w = (Raise gpiozero_missing, w).
Proof.
  intros fuel args w mp hp Hc Hdry Hg Hm Hh Hnm Hnh. unfold main.
  destruct (Args.cmd args); try discriminate;
    cbn [needs_main needs_high] in Hnm, Hnh;
    unfold bind at 1, lift_exits; rewrite Hm; cbn [ret];
    unfold bind at 1; rewrite Hh; cbn [ret needs_main needs_high select_relay].
  all: try (destruct mp as [p|]; [|exfalso; apply (Hnm eq_refl); reflexivity];
            unfold bind, Relay_init; rewrite Hdry, Hg; reflexivity).
  all: destruct hp as [p|]; [|exfalso; apply (Hnh eq_refl); reflexivity];
    unfold bind, Relay_init; cbn [ret]; rewrite Hdry, Hg; reflexivity.
Qed.

Lemma driver_missing_fails_first_witness :
  main 0 on_live no_driver = (Raise gpiozero_missing, no_driver).
Proof.
  apply (driver_missing_fails_first 0 on_live no_driver (Some 4%Z) None);
    try reflexivity; intro; discriminate.
Defined.

(** ** Dry runs *)

Lemma simulated_ret {A : Type} (a : A) : simulated (ret a).
Proof. intros w o w' E. inversion E; subst. repeat split; discriminate. Qed.

Lemma simulated_raise {A : Type} (e : exn) :
  (forall p, e <> DeviceError p) -> (forall s, e <> RuntimeError s) ->
  simulated (@raise A e).
Proof.
  intros Hd Hr w o w' E. inversion E; subst.
  repeat split; intros x Hx; inversion Hx; subst; [apply (Hd x)|apply (Hr x)];
    reflexivity.
Qed.

Lemma simulated_print (l : line) : simulated (print l).
Proof. intros w o w' E. inversion E; subst. repeat split; discriminate. Qed.

Lemma simulated_time_sleep (d : Q) : simulated (time_sleep d).
Proof.
  intros w o w' E. unfold time_sleep in E.
  destruct (sigint w) as [t|]; [destruct (Qltb t (monotonic w + d))|];
    inversion E; subst; repeat split; discriminate.
Qed.

Lemma simulated_bind_post {A B : Type} (R : A -> Prop) (m : M A) (k : A -> M B) :
  (forall w a w', m w = (Ret a, w') -> R a) ->
  simulated m -> (forall a, R a -> simulated (k a)) -> simulated (bind m k).
Proof.
  intros HR Hm Hk w o w' E. unfold bind in E.
  destruct (m w) as [[a|e|] w1] eqn:Em; destruct (Hm w _ w1 Em) as (Hw & Hd & Hr).
  - destruct (Hk a (HR w a w1 Em) w1 o w' E) as (Hw' & Hd' & Hr').
    repeat split; [congruence|exact Hd'|exact Hr'].
  - inversion E; subst. repeat split; [exact Hw| |]; intros x Hx;
      inversion Hx; subst; [apply (Hd x)|apply (Hr x)]; reflexivity.
  - inversion E; subst. repeat split; [exact Hw| |]; discriminate.
Qed.

Lemma simulated_bind {A B : Type} (m : M A) (k : A -> M B) :
  simulated m -> (forall a, simulated (k a)) -> simulated (bind m k).
Proof.
  intros Hm Hk. apply (simulated_bind_post (fun _ => True)); auto.
Qed.

Lemma simulated_sleep_loop (fuel : nat) (end_ : Q) : simulated (sleep_loop fuel end_).
Proof.
  induction fuel as [|k IH].
  - intros w o w' E. inversion E; subst. repeat split; discriminate.
  - cbn [sleep_loop]. apply simulated_bind.
    + intros w o w' E. inversion E; subst. repeat split; discriminate.
    + intro now. destruct (Qle_bool (end_ - now) 0); [apply simulated_ret|].
      apply simulated_bind; [apply simulated_time_sleep|intros _; exact IH].
Qed.

Lemma simulated_sleep (d : Q) : simulated (_sleep_with_sigint d).
Proof.
  unfold _sleep_with_sigint. apply simulated_bind.
  - intros w o w' E. inversion E; subst. repeat split; discriminate.
  - intro now. apply simulated_sleep_loop.
Qed.

Lemma simulated_sleep_forever (fuel : nat) : simulated (sleep_forever fuel).
Proof.
  induction fuel as [|k IH].
  - intros w o w' E. inversion E; subst. repeat split; discriminate.
  - cbn [sleep_forever].
    apply simulated_bind; [apply simulated_time_sleep|intros _; exact IH].
Qed.

Lemma simulated_except (body : M unit) :
  simulated body -> simulated (except_KeyboardInterrupt_pass body).
Proof.
  intros H w o w' E. unfold except_KeyboardInterrupt_pass in E.
  destruct (body w) as [[a|e|] w1] eqn:Eb; destruct (H w _ w1 Eb) as (Hw & Hd & Hr).
  - inversion E; subst. repeat split; [exact Hw| |]; discriminate.
  - destruct e; inversion E; subst;
      repeat split; try exact Hw; try discriminate; assumption.
  - inversion E; subst. repeat split; [exact Hw| |]; discriminate.
Qed.

Lemma simulated_guard (min : Q) (dry : bool) : simulated (_guard_after_boot min dry).
Proof.
  unfold _guard_after_boot. destruct (Qle_bool min 0); [apply simulated_ret|].
  apply simulated_bind.
  - intros w o w' E. inversion E; subst. repeat split; discriminate.
  - intros [up|].
    + destruct (Qltb 0 (min - up)); [|apply simulated_ret].
      apply simulated_bind; [apply simulated_print|intros _; apply simulated_sleep].
    + destruct dry; [apply simulated_print|apply simulated_ret].
Qed.

Lemma simulated_lift {A : Type} (r : exits A) : simulated (lift_exits r).
Proof.
  destruct r; [apply simulated_ret|apply simulated_raise; discriminate].
Qed.

Lemma simulated_relay_call (r : Relay) (a : action) :
  _dry_run r = true -> simulated (relay_call r a).
Proof.
  intros Hdry w o w' E. unfold relay_call in E. rewrite Hdry in E.
  inversion E; subst. repeat split; discriminate.
Qed.

Lemma simulated_init (cfg : RelayConfig) :
  simulated (Relay_init cfg true) /\
  forall w r w', Relay_init cfg true w = (Ret r, w') -> _dry_run r = true.
Proof.
  split.
  - intros w o w' E. inversion E; subst. repeat split; discriminate.
  - intros w r w' E. inversion E; subst. reflexivity.
Qed.

Lemma simulated_parse_pins (l : list string) : simulated (parse_pins l).
Proof.
  intros w o w' E. rewrite parse_pins_spec in E.
  destruct (ints l); inversion E; subst; repeat split; discriminate.
Qed.

Lemma simulated_for_each {A : Type} (l : list A) (body : A -> M unit) :
  (forall x, simulated (body x)) -> simulated (for_each l body).
Proof.
  intro H. induction l as [|x r IH]; cbn [for_each]; [apply simulated_ret|].
  apply simulated_bind; [apply H|intros _; exact IH].
Qed.

Lemma simulated_true_div (n : Z) (d : Q) : simulated (true_div n d).
Proof.
  unfold true_div. destruct (int_to_float n);
    [apply simulated_ret|apply simulated_raise; discriminate].
Qed.

Lemma simulated_close_for (pulse_ms : Z) (cs : option Q) :
  simulated (match cs with
             | Some c => ret c
             | None => true_div pulse_ms 1000.0
             end).
Proof. destruct cs; [apply simulated_ret|apply simulated_true_div]. Qed.

Ltac sim_steps :=
  repeat first
    [ apply simulated_relay_call; assumption
    | apply simulated_true_div | apply simulated_close_for
    | apply simulated_sleep | apply simulated_guard | apply simulated_print
    | apply simulated_ret | apply simulated_lift | apply simulated_parse_pins
    | apply simulated_raise; discriminate
    | apply simulated_except, simulated_sleep_forever
    | apply simulated_bind; [|intro] ].

Lemma simulated_hold_wait (fuel : nat) (l : line) (hold : option Q) :
  simulated (match hold with
             | None => print l ;; except_KeyboardInterrupt_pass (sleep_forever fuel)
             | Some h => _sleep_with_sigint h
             end).
Proof.
  destruct hold; [apply simulated_sleep|].
  apply simulated_bind; [apply simulated_print|intros _].
  apply simulated_except, simulated_sleep_forever.
Qed.

Lemma simulated_pulse (relay : Relay) (pulse_ms : Z) :
  _dry_run relay = true -> simulated (cmd_pulse relay pulse_ms).
Proof. intro H. unfold cmd_pulse, Relay_open, Relay_close. sim_steps. Qed.

Lemma simulated_hold (fuel : nat) (relay : Relay) (hold : option Q) :
  _dry_run relay = true -> simulated (cmd_hold fuel relay hold).
Proof.
  intro H. unfold cmd_hold, Relay_open, Relay_close.
  do 2 (apply simulated_bind; [apply simulated_relay_call; exact H|intros _]).
  apply simulated_bind; [apply simulated_hold_wait|intros _].
  apply simulated_relay_call; exact H.
Qed.

Lemma simulated_maintained (fuel : nat) (relay : Relay) (hold : option Q) :
  _dry_run relay = true -> simulated (cmd_maintained fuel relay hold).
Proof.
  intro H. unfold cmd_maintained, Relay_open, Relay_close.
  do 7 (apply simulated_bind; [sim_steps|intros _]).
  apply simulated_bind; [apply simulated_hold_wait|intros _].
  apply simulated_relay_call; exact H.
Qed.

Lemma simulated_optional_wait (l : line) (d : Q) :
  simulated (if Qltb 0 d then print l ;; _sleep_with_sigint d else ret tt).
Proof. destruct (Qltb 0 d); sim_steps. Qed.

Lemma simulated_probe (pins : list Z) (al : bool) (pulse_ms : Z) (os : Q)
    (cs : option Q) (ps : Q) :
  simulated (cmd_probe pins al pulse_ms os cs ps true).
Proof.
  unfold cmd_probe. destruct pins as [|p r]; [sim_steps|].
  apply simulated_bind; [apply simulated_print|intros _].
  apply simulated_for_each. intro x. unfold probe_one, Relay_open, Relay_close.
  apply (simulated_bind_post (fun r => _dry_run r = true)).
  - intros w a w'. apply (proj2 (simulated_init _)).
  - apply (proj1 (simulated_init _)).
  - intros relay H.
    apply simulated_bind; [sim_steps|intro close_for].
    apply simulated_bind; [sim_steps|intros _].
    apply simulated_bind; [apply simulated_optional_wait|intros _].
    do 4 (apply simulated_bind; [sim_steps|intros _]).
    apply simulated_optional_wait.
Qed.

Lemma simulated_select (needed : bool) (p : option Z) (missing : string) (a : Args.t) :
  Args.dry_run a = true ->
  simulated (select_relay needed p missing a) /\
  forall w r w', select_relay needed p missing a w = (Ret r, w') -> dry_handle r.
Proof.
  intro Hdry. unfold select_relay. rewrite Hdry.
  destruct needed; [destruct p as [n|]|].
  - split.
    + apply simulated_bind; [apply (proj1 (simulated_init _))|intro; apply simulated_ret].
    + intros w r w' E. inversion E; subst. intros relay Hr.
      inversion Hr; subst. reflexivity.
  - split; [apply simulated_raise; discriminate|].
    intros w r w' E. inversion E.
  - split; [apply simulated_ret|].
    intros w r w' E. inversion E; subst. intros relay Hr. discriminate.
Qed.

Lemma simulated_open_if_present (r : option Relay) :
  dry_handle r -> simulated (open_if_present r).
Proof.
  intro H. destruct r as [relay|]; cbn [open_if_present]; [|apply simulated_ret].
  apply simulated_relay_call. apply H. reflexivity.
Qed.

Lemma simulated_asserted (r : option Relay) (k : Relay -> M Z) :
  dry_handle r ->
  (forall relay, _dry_run relay = true -> simulated (k relay)) ->
  simulated (asserted r k).
Proof.
  intros H Hk. destruct r as [relay|]; cbn [asserted].
  - apply Hk. apply H. reflexivity.
  - apply simulated_raise; discriminate.
Qed.

Lemma simulated_main (fuel : nat) (args : Args.t) :
  Args.dry_run args = true -> simulated (main fuel args).
Proof.
  intro Hdry. unfold main.
  assert (Hrelay : forall c : command,
    simulated
      (main_pin <- lift_exits (resolve_or (str_ref (Args.main_relay args))
                                          (int_ref (Args.pin_main args))) ;;
       high_pin <- lift_exits (resolve_or (str_ref (Args.high_relay args))
                                          (int_ref (Args.pin_high args))) ;;
       main_relay <- select_relay (needs_main c) main_pin
         "Set --main-relay (preferred) / --pin-main, or FIREPLACE_MAIN_RELAY / FIREPLACE_PIN_MAIN"
         args ;;
       high_relay <- select_relay (needs_high c) high_pin
         "Set --high-relay (preferred) / --pin-high, or FIREPLACE_HIGH_RELAY / FIREPLACE_PIN_HIGH"
         args ;;
       open_if_present main_relay ;;
       open_if_present high_relay ;;
       (if guarded c
        then _guard_after_boot (Args.boot_guard_seconds args) (Args.dry_run args)
        else ret tt) ;;
       match c with
       | Ignite =>
           asserted main_relay (fun relay =>
             (if Args.maintained args
              then cmd_maintained fuel relay (Args.hold_seconds args)
              else cmd_pulse relay (Args.pulse_ms args)) ;;
             ret 0%Z)
       | On =>
           asserted main_relay (fun relay =>
             cmd_hold fuel relay (Args.hold_seconds args) ;; ret 0%Z)
       | Off =>
           asserted main_relay (fun relay => Relay_open relay ;; ret 0%Z)
       | High =>
           asserted high_relay (fun relay =>
             cmd_hold fuel relay (Args.hold_seconds args) ;; ret 0%Z)
       | Low =>
           asserted high_relay (fun relay => Relay_open relay ;; ret 0%Z)
       | PulseHigh =>
           asserted high_relay (fun relay =>
             cmd_pulse relay (Args.pulse_ms args) ;; ret 0%Z)
       | ListRelays | Probe => raise (SystemExit "Unknown command")
       end)).
  { intro c.
    apply simulated_bind; [apply simulated_lift|intro main_pin].
    apply simulated_bind; [apply simulated_lift|intro high_pin].
    apply (simulated_bind_post dry_handle);
      [apply (proj2 (simulated_select _ _ _ _ Hdry))
      |apply (proj1 (simulated_select _ _ _ _ Hdry))|intros main_relay Hmr].
    apply (simulated_bind_post dry_handle);
      [apply (proj2 (simulated_select _ _ _ _ Hdry))
      |apply (proj1 (simulated_select _ _ _ _ Hdry))|intros high_relay Hhr].
    apply simulated_bind; [apply simulated_open_if_present; exact Hmr|intros _].
    apply simulated_bind; [apply simulated_open_if_present; exact Hhr|intros _].
    apply simulated_bind;
      [destruct (guarded c); [apply simulated_guard|apply simulated_ret]|intros _].
    destruct c; try (apply simulated_raise; discriminate);
      apply simulated_asserted; try assumption; intros relay Hr.
    - apply simulated_bind; [|intro; apply simulated_ret].
      destruct (Args.maintained args);
        [apply simulated_maintained|apply simulated_pulse]; exact Hr.
    - apply simulated_bind; [apply simulated_hold; exact Hr|intro; apply simulated_ret].
    - apply simulated_bind;
        [apply simulated_relay_call; exact Hr|intro; apply simulated_ret].
    - apply simulated_bind; [apply simulated_hold; exact Hr|intro; apply simulated_ret].
    - apply simulated_bind;
        [apply simulated_relay_call; exact Hr|intro; apply simulated_ret].
    - apply simulated_bind; [apply simulated_pulse; exact Hr|intro; apply simulated_ret]. }
  destruct (Args.cmd args) eqn:Hc; try apply Hrelay.
  - apply simulated_bind; [|intro; apply simulated_ret].
    destruct (Args.json args); [apply simulated_print|].
    apply simulated_bind; [apply simulated_print|intros _].
    apply simulated_bind; [|intro; apply simulated_print].
    apply simulated_for_each. intro x. apply simulated_print.
  - rewrite Hdry.
    apply simulated_bind; [apply simulated_parse_pins|intro ns].
    apply simulated_bind; [apply simulated_probe|intro; apply simulated_ret].
Qed.

(** With [--dry-run] no command ever writes to a device, and none ends
    with a device error or for want of the gpiozero driver, whatever the
    state of the hardware. *)
Theorem dry_run_never_touches_hardware :
  forall (fuel : nat) (args : Args.t) (w : world),
    Args.dry_run args = true ->
    writes (snd (main fuel args w)) = writes w /\
    (forall p, fst (main fuel args w) <> Raise (DeviceError p)) /\
    (forall s, fst (main fuel args w) <> Raise (RuntimeError s)).
Proof.
  intros fuel args w Hdry.
  apply (simulated_main fuel args Hdry w). apply surjective_pairing.
Qed.

Lemma dry_run_never_touches_hardware_witness :
  writes (snd (main 0 ignite_sim hostile)) = writes hostile /\
  (forall p, fst (main 0 ignite_sim hostile) <> Raise (DeviceError p)) /\
  (forall s, fst (main 0 ignite_sim hostile) <> Raise (RuntimeError s)).
Proof.
  apply (dry_run_never_touches_hardware 0 ignite_sim hostile). reflexivity.
Defined.

(** ** Fail-safe shape of every invocation *)

Lemma first_action_app (q : Z) (l1 l2 : list op) :
  first_action q (l1 ++ l2) =
  match first_action q l1 with
  | Some a => Some a
  | None => first_action q l2
  end.
Proof.
  induction l1 as [|o r IH]; [reflexivity|].
  cbn [app first_action]. destruct (Z.eqb (op_pin o) q); [reflexivity|exact IH].
Qed.

Lemma first_action_other (p q : Z) (l : list op) :
  Forall (fun x => op_pin x = p) l -> q <> p -> first_action q l = None.
Proof.
  intros H Hne. induction H as [|o r Ho _ IH]; [reflexivity|].
  cbn [first_action]. rewrite Ho.
  destruct (Z.eqb_spec p q); [congruence|exact IH].
Qed.

Lemma last_action_app (q : Z) (l1 l2 : list op) :
  last_action q (l1 ++ l2) =
  match last_action q l2 with
  | Some a => Some a
  | None => last_action q l1
  end.
Proof.
  unfold last_action. rewrite rev_app_distr, filter_app.
  destruct (filter (fun o => Z.eqb (op_pin o) q) (rev l2)); reflexivity.
Qed.

Lemma last_action_other (p q : Z) (l : list op) :
  Forall (fun x => op_pin x = p) l -> q <> p -> last_action q l = None.
Proof.
  intros H Hne. unfold last_action.
  assert (E : filter (fun o => Z.eqb (op_pin o) q) (rev l) = []).
  { apply Forall_rev in H. induction H as [|o r Ho _ IH]; [reflexivity|].
    cbn [filter]. rewrite Ho. destruct (Z.eqb_spec p q); [congruence|exact IH]. }
  rewrite E. reflexivity.
Qed.

Lemma relay_call_trace (r : Relay) (a : action) (w : world) (o : outcome unit) (w' : world) :
  relay_call r a w = (o, w') ->
  trace w' = trace w ++ [Op (monotonic w) (pin (_cfg r)) a].
Proof.
  intro E. unfold relay_call in E. destruct (_dry_run r).
  - inversion E; subst. reflexivity.
  - unfold device_write in E. cbn [write_fails writes add_op] in E.
    destruct (write_fails w (writes w)); inversion E; subst; reflexivity.
Qed.

Lemma no_write_hold_wait (fuel : nat) (l : line) (hold : option Q) :
  no_write (match hold with
            | None => print l ;; except_KeyboardInterrupt_pass (sleep_forever fuel)
            | Some h => _sleep_with_sigint h
            end).
Proof.
  destruct hold; [apply no_write_sleep|].
  apply no_write_bind; [apply no_write_print|intros _].
  apply no_write_except, no_write_sleep_forever.
Qed.

Lemma no_write_optional_wait (l : line) (d : Q) :
  no_write (if Qltb 0 d then print l ;; _sleep_with_sigint d else ret tt).
Proof.
  destruct (Qltb 0 d); [|apply no_write_ret].
  apply no_write_bind; [apply no_write_print|intros _; apply no_write_sleep].
Qed.

Lemma only_pin_no_write {A : Type} (p : Z) (m : M A) : no_write m -> only_pin p m.
Proof.
  intros H w o w' E. destruct (H w o w' E) as (_ & _ & Htr).
  exists []. rewrite app_nil_r. split; [exact Htr|constructor].
Qed.

Lemma only_pin_relay_call (r : Relay) (a : action) : only_pin (pin (_cfg r)) (relay_call r a).
Proof.
  intros w o w' E. eexists. split; [exact (relay_call_trace r a w o w' E)|].
  repeat constructor.
Qed.

Lemma only_pin_bind {A B : Type} (p : Z) (m : M A) (k : A -> M B) :
  only_pin p m -> (forall a, only_pin p (k a)) -> only_pin p (bind m k).
Proof.
  intros Hm Hk w o w' E. unfold bind in E.
  destruct (m w) as [[a|e|] w1] eqn:Em; destruct (Hm w _ w1 Em) as (l & Hl & Ho).
  - destruct (Hk a w1 o w' E) as (l' & Hl' & Ho').
    exists (l ++ l'). rewrite app_assoc, <- Hl. split; [exact Hl'|].
    apply Forall_app. split; assumption.
  - inversion E; subst. exists l. split; assumption.
  - inversion E; subst. exists l. split; assumption.
Qed.

Ltac pin_steps :=
  repeat first
    [ apply only_pin_relay_call
    | apply only_pin_no_write;
      first [ apply no_write_sleep | apply no_write_print | apply no_write_ret
            | apply no_write_true_div | apply no_write_close_for
            | apply no_write_hold_wait | apply no_write_optional_wait ]
    | apply only_pin_bind; [|intro] ].

Lemma opens_first_no_write {A : Type} (m : M A) : no_write m -> opens_first m.
Proof.
  intros H w o w' E. destruct (H w o w' E) as (_ & _ & Htr).
  exists []. rewrite app_nil_r. split; [exact Htr|]. intro q. discriminate.
Qed.

Lemma opens_first_bind {A B : Type} (m : M A) (k : A -> M B) :
  opens_first m -> (forall a, opens_first (k a)) -> opens_first (bind m k).
Proof.
  intros Hm Hk w o w' E. unfold bind in E.
  destruct (m w) as [[a|e|] w1] eqn:Em; destruct (Hm w _ w1 Em) as (l & Hl & Ho).
  - destruct (Hk a w1 o w' E) as (l' & Hl' & Ho').
    exists (l ++ l'). rewrite app_assoc, <- Hl. split; [exact Hl'|].
    intro q. rewrite first_action_app.
    destruct (first_action q l) eqn:Ef; [rewrite <- Ef; apply Ho|apply Ho'].
  - inversion E; subst. exists l. split; assumption.
  - inversion E; subst. exists l. split; assumption.
Qed.

(** Once a handle has been opened, whatever follows on that handle
    cannot make a [close] the first operation of its channel. *)
Lemma opens_first_after_open {B : Type} (r : Relay) (k : M B) :
  only_pin (pin (_cfg r)) k -> opens_first (Relay_open r ;; k).
Proof.
  intros Hk w o w' E. unfold bind, Relay_open in E.
  destruct (relay_call r OPEN w) as [[[]|e|] w1] eqn:Er;
    pose proof (relay_call_trace r OPEN w _ w1 Er) as Htr.
  - destruct (Hk w1 o w' E) as (l & Hl & Hall).
    exists (Op (monotonic w) (pin (_cfg r)) OPEN :: l).
    split; [rewrite Hl, Htr, <- app_assoc; reflexivity|].
    intro q. cbn [first_action op_pin op_action].
    destruct (Z.eqb_spec (pin (_cfg r)) q) as [Heq|Hne]; [discriminate|].
    rewrite (first_action_other (pin (_cfg r)) q l Hall); [discriminate|congruence].
  - inversion E; subst. eexists. split; [exact Htr|].
    intro q. cbn [first_action op_pin op_action].
    destruct (Z.eqb (pin (_cfg r)) q); discriminate.
  - inversion E; subst. eexists. split; [exact Htr|].
    intro q. cbn [first_action op_pin op_action].
    destruct (Z.eqb (pin (_cfg r)) q); discriminate.
Qed.

Lemma opens_first_open (r : Relay) : opens_first (Relay_open r).
Proof.
  intros w o w' E. eexists. split; [exact (relay_call_trace r OPEN w o w' E)|].
  intro q. cbn [first_action op_pin op_action].
  destruct (Z.eqb (pin (_cfg r)) q); discriminate.
Qed.

Lemma opens_first_for_each {A : Type} (l : list A) (body : A -> M unit) :
  (forall x, opens_first (body x)) -> opens_first (for_each l body).
Proof.
  intro H. induction l as [|x r IH]; cbn [for_each].
  - apply opens_first_no_write, no_write_ret.
  - apply opens_first_bind; [apply H|intros _; exact IH].
Qed.

Lemma opens_first_pulse (relay : Relay) (pulse_ms : Z) :
  opens_first (cmd_pulse relay pulse_ms).
Proof.
  unfold cmd_pulse. apply opens_first_after_open.
  unfold Relay_open, Relay_close. pin_steps.
Qed.

Lemma opens_first_hold (fuel : nat) (relay : Relay) (hold : option Q) :
  opens_first (cmd_hold fuel relay hold).
Proof.
  unfold cmd_hold. apply opens_first_after_open.
  unfold Relay_open, Relay_close.
  apply only_pin_bind; [apply only_pin_relay_call|intros _].
  apply only_pin_bind; [apply only_pin_no_write, no_write_hold_wait|intros _].
  apply only_pin_relay_call.
Qed.

Lemma opens_first_maintained (fuel : nat) (relay : Relay) (hold : option Q) :
  opens_first (cmd_maintained fuel relay hold).
Proof.
  unfold cmd_maintained. apply opens_first_after_open.
  unfold Relay_open, Relay_close.
  do 6 (apply only_pin_bind; [pin_steps|intros _]).
  apply only_pin_bind; [apply only_pin_no_write, no_write_hold_wait|intros _].
  apply only_pin_relay_call.
Qed.

Lemma opens_first_probe (pins : list Z) (al : bool) (pulse_ms : Z) (os : Q)
    (cs : option Q) (ps : Q) (dry : bool) :
  opens_first (cmd_probe pins al pulse_ms os cs ps dry).
Proof.
  unfold cmd_probe. destruct pins as [|p r].
  - apply opens_first_no_write, no_write_raise.
  - apply opens_first_bind; [apply opens_first_no_write, no_write_print|intros _].
    apply opens_first_for_each. intro x. unfold probe_one.
    apply opens_first_bind; [apply opens_first_no_write, no_write_init|intro relay].
    apply opens_first_bind;
      [apply opens_first_no_write, no_write_close_for|intro close_for].
    apply opens_first_after_open. unfold Relay_open, Relay_close.
    apply only_pin_bind;
      [apply only_pin_no_write, no_write_optional_wait|intros _].
    do 4 (apply only_pin_bind; [pin_steps|intros _]).
    apply only_pin_no_write, no_write_optional_wait.
Qed.

Lemma opens_first_open_if_present (r : option Relay) : opens_first (open_if_present r).
Proof.
  destruct r; cbn [open_if_present];
    [apply opens_first_open|apply opens_first_no_write, no_write_ret].
Qed.

Lemma opens_first_asserted (r : option Relay) (k : Relay -> M Z) :
  (forall relay, opens_first (k relay)) -> opens_first (asserted r k).
Proof.
  intro H. destruct r; cbn [asserted];
    [apply H|apply opens_first_no_write, no_write_raise].
Qed.

Lemma opens_first_then_ret (m : M unit) :
  opens_first m -> opens_first (m ;; ret 0%Z).
Proof.
  intro H. apply opens_first_bind; [exact H|].
  intro. apply opens_first_no_write, no_write_ret.
Qed.

Lemma opens_first_main (fuel : nat) (args : Args.t) : opens_first (main fuel args).
Proof.
  unfold main.
  assert (Hignite : forall relay,
             opens_first ((if Args.maintained args
                           then cmd_maintained fuel relay (Args.hold_seconds args)
                           else cmd_pulse relay (Args.pulse_ms args)) ;; ret 0%Z)).
  { intro relay. apply opens_first_then_ret.
    destruct (Args.maintained args);
      [apply opens_first_maintained|apply opens_first_pulse]. }
  destruct (Args.cmd args).
  - apply opens_first_no_write.
    apply no_write_bind; [|intro; apply no_write_ret].
    destruct (Args.json args); [apply no_write_print|].
    apply no_write_bind; [apply no_write_print|intros _].
    apply no_write_bind; [|intro; apply no_write_print].
    induction (Text.sorted (keys KNOWN_RELAYS)) as [|x r IH]; cbn [for_each];
      [apply no_write_ret|].
    apply no_write_bind; [apply no_write_print|intros _; exact IH].
  - do 2 (apply opens_first_bind; [apply opens_first_no_write, no_write_lift|intro]).
    do 2 (apply opens_first_bind; [apply opens_first_no_write, no_write_select|intro]).
    do 2 (apply opens_first_bind; [apply opens_first_open_if_present|intro]).
    apply opens_first_bind; [apply opens_first_no_write, no_write_guard|intro].
    apply opens_first_asserted. exact Hignite.
  - do 2 (apply opens_first_bind; [apply opens_first_no_write, no_write_lift|intro]).
    do 2 (apply opens_first_bind; [apply opens_first_no_write, no_write_select|intro]).
    do 2 (apply opens_first_bind; [apply opens_first_open_if_present|intro]).
    apply opens_first_bind; [apply opens_first_no_write, no_write_guard|intro].
    apply opens_first_asserted. intro relay.
    apply opens_first_then_ret, opens_first_hold.
  - do 2 (apply opens_first_bind; [apply opens_first_no_write, no_write_lift|intro]).
    do 2 (apply opens_first_bind; [apply opens_first_no_write, no_write_select|intro]).
    do 2 (apply opens_first_bind; [apply opens_first_open_if_present|intro]).
    apply opens_first_bind; [apply opens_first_no_write, no_write_guard|intro].
    apply opens_first_asserted. intro relay.
    apply opens_first_then_ret, opens_first_open.
  - do 2 (apply opens_first_bind; [apply opens_first_no_write, no_write_lift|intro]).
    do 2 (apply opens_first_bind; [apply opens_first_no_write, no_write_select|intro]).
    do 2 (apply opens_first_bind; [apply opens_first_open_if_present|intro]).
    apply opens_first_bind; [apply opens_first_no_write; cbn [guarded]; apply no_write_ret|intro].
    apply opens_first_asserted. intro relay.
    apply opens_first_then_ret, opens_first_hold.
  - do 2 (apply opens_first_bind; [apply opens_first_no_write, no_write_lift|intro]).
    do 2 (apply opens_first_bind; [apply opens_first_no_write, no_write_select|intro]).
    do 2 (apply opens_first_bind; [apply opens_first_open_if_present|intro]).
    apply opens_first_bind; [apply opens_first_no_write; cbn [guarded]; apply no_write_ret|intro].
    apply opens_first_asserted. intro relay.
    apply opens_first_then_ret, opens_first_open.
  - do 2 (apply opens_first_bind; [apply opens_first_no_write, no_write_lift|intro]).
    do 2 (apply opens_first_bind; [apply opens_first_no_write, no_write_select|intro]).
    do 2 (apply opens_first_bind; [apply opens_first_open_if_present|intro]).
    apply opens_first_bind; [apply opens_first_no_write; cbn [guarded]; apply no_write_ret|intro].
    apply opens_first_asserted. intro relay.
    apply opens_first_then_ret, opens_first_pulse.
  - apply opens_first_bind; [apply opens_first_no_write, no_write_parse_pins|intro ns].
    apply opens_first_then_ret, opens_first_probe.
Qed.

(** Whatever the command, the arguments and the world, and however the
    run ends, the first operation made on any relay channel is an open:
    no invocation closes a relay it has not opened first. *)
Theorem every_relay_is_opened_first :
  forall (fuel : nat) (args : Args.t) (w : world),
    exists l,
      trace (snd (main fuel args w)) = trace w ++ l /\
      forall q, first_action q l <> Some CLOSE.
Proof.
  intros fuel args w.
  apply (opens_first_main fuel args w (fst (main fuel args w))).
  apply surjective_pairing.
Qed.

Lemma settles_no_write {A : Type} (m : M A) : no_write m -> settles m.
Proof.
  intros H w a w' E. destruct (H w _ w' E) as (_ & _ & Htr).
  exists []. rewrite app_nil_r. split; [exact Htr|]. intro q. discriminate.
Qed.

Lemma settles_bind {A B : Type} (m : M A) (k : A -> M B) :
  settles m -> (forall a, settles (k a)) -> settles (bind m k).
Proof.
  intros Hm Hk w b w' E. unfold bind in E.
  destruct (m w) as [[a|e|] w1] eqn:Em; try discriminate.
  destruct (Hm w a w1 Em) as (l & Hl & Ho).
  destruct (Hk a w1 b w' E) as (l' & Hl' & Ho').
  exists (l ++ l'). rewrite app_assoc, <- Hl. split; [exact Hl'|].
  intro q. rewrite last_action_app.
  destruct (last_action q l') eqn:El; [rewrite <- El; apply Ho'|apply Ho].
Qed.

Lemma ends_open_on_open (r : Relay) : ends_open_on (pin (_cfg r)) (Relay_open r).
Proof.
  intros w a w' E. exists [], (monotonic w).
  split; [exact (relay_call_trace r OPEN w _ w' E)|constructor].
Qed.

Lemma ends_open_on_bind {A B : Type} (p : Z) (m : M A) (k : A -> M B) :
  only_pin p m -> (forall a, ends_open_on p (k a)) -> ends_open_on p (bind m k).
Proof.
  intros Hm Hk w b w' E. unfold bind in E.
  destruct (m w) as [[a|e|] w1] eqn:Em; try discriminate.
  destruct (Hm w _ w1 Em) as (l & Hl & Ho).
  destruct (Hk a w1 b w' E) as (l' & t & Hl' & Ho').
  exists (l ++ l'), t. split.
  - rewrite Hl', Hl, <- !app_assoc. reflexivity.
  - apply Forall_app. split; assumption.
Qed.

Lemma ends_open_on_then {A B : Type} (p : Z) (m : M A) (k : A -> M B) :
  ends_open_on p m -> (forall a, no_write (k a)) -> ends_open_on p (bind m k).
Proof.
  intros Hm Hk w b w' E. unfold bind in E.
  destruct (m w) as [[a|e|] w1] eqn:Em; try discriminate.
  destruct (Hm w a w1 Em) as (l & t & Hl & Ho).
  destruct (Hk a w1 _ w' E) as (_ & _ & Htr).
  exists l, t. split; [congruence|exact Ho].
Qed.

Lemma ends_open_on_settles {A : Type} (p : Z) (m : M A) :
  ends_open_on p m -> settles m.
Proof.
  intros H w a w' E. destruct (H w a w' E) as (l & t & Hl & Ho).
  exists (l ++ [Op t p OPEN]). split; [exact Hl|].
  intro q. destruct (Z.eq_dec q p) as [->|Hne].
  - rewrite last_action_snoc. discriminate.
  - rewrite last_action_app.
    assert (E1 : last_action q [Op t p OPEN] = None).
    { apply (last_action_other p); [repeat constructor|exact Hne]. }
    rewrite E1, (last_action_other p q l Ho Hne). discriminate.
Qed.

Lemma settles_for_each {A : Type} (l : list A) (body : A -> M unit) :
  (forall x, settles (body x)) -> settles (for_each l body).
Proof.
  intro H. induction l as [|x r IH]; cbn [for_each].
  - apply settles_no_write, no_write_ret.
  - apply settles_bind; [apply H|intros _; exact IH].
Qed.

Lemma ends_open_pulse (relay : Relay) (pulse_ms : Z) :
  ends_open_on (pin (_cfg relay)) (cmd_pulse relay pulse_ms).
Proof.
  unfold cmd_pulse.
  do 4 (apply ends_open_on_bind;
        [unfold Relay_open, Relay_close; pin_steps|intro]).
  apply ends_open_on_open.
Qed.

Lemma ends_open_hold (fuel : nat) (relay : Relay) (hold : option Q) :
  ends_open_on (pin (_cfg relay)) (cmd_hold fuel relay hold).
Proof.
  unfold cmd_hold.
  do 2 (apply ends_open_on_bind;
        [unfold Relay_open, Relay_close; pin_steps|intros _]).
  apply ends_open_on_bind;
    [apply only_pin_no_write, no_write_hold_wait|intros _].
  apply ends_open_on_open.
Qed.

Lemma ends_open_maintained (fuel : nat) (relay : Relay) (hold : option Q) :
  ends_open_on (pin (_cfg relay)) (cmd_maintained fuel relay hold).
Proof.
  unfold cmd_maintained.
  do 7 (apply ends_open_on_bind;
        [unfold Relay_open, Relay_close; pin_steps|intros _]).
  apply ends_open_on_bind;
    [apply only_pin_no_write, no_write_hold_wait|intros _].
  apply ends_open_on_open.
Qed.

Lemma settles_probe (pins : list Z) (al : bool) (pulse_ms : Z) (os : Q)
    (cs : option Q) (ps : Q) (dry : bool) :
  settles (cmd_probe pins al pulse_ms os cs ps dry).
Proof.
  unfold cmd_probe. destruct pins as [|p r].
  - apply settles_no_write, no_write_raise.
  - apply settles_bind; [apply settles_no_write, no_write_print|intros _].
    apply settles_for_each. intro x. unfold probe_one.
    apply settles_bind; [apply settles_no_write, no_write_init|intro relay].
    apply settles_bind; [apply settles_no_write, no_write_close_for|intro close_for].
    apply (ends_open_on_settles (pin (_cfg relay))).
    apply ends_open_on_bind;
      [unfold Relay_open; apply only_pin_relay_call|intros _].
    apply ends_open_on_bind;
      [apply only_pin_no_write, no_write_optional_wait|intros _].
    do 3 (apply ends_open_on_bind;
          [unfold Relay_open, Relay_close; pin_steps|intros _]).
    apply ends_open_on_then; [apply ends_open_on_open|].
    intros _. apply no_write_optional_wait.
Qed.

Lemma settles_open_if_present (r : option Relay) : settles (open_if_present r).
Proof.
  destruct r as [relay|]; cbn [open_if_present].
  - apply (ends_open_on_settles (pin (_cfg relay))), ends_open_on_open.
  - apply settles_no_write, no_write_ret.
Qed.

Lemma settles_asserted (r : option Relay) (k : Relay -> M Z) :
  (forall relay, settles (k relay)) -> settles (asserted r k).
Proof.
  intro H. destruct r; cbn [asserted];
    [apply H|apply settles_no_write, no_write_raise].
Qed.

Lemma settles_then_ret (m : M unit) : settles m -> settles (m ;; ret 0%Z).
Proof.
  intro H. apply settles_bind; [exact H|].
  intro. apply settles_no_write, no_write_ret.
Qed.

Lemma settles_main (fuel : nat) (args : Args.t) : settles (main fuel args).
Proof.
  unfold main.
  assert (Hpulse : forall relay,
             settles (cmd_pulse relay (Args.pulse_ms args) ;; ret 0%Z)).
  { intro relay. apply settles_then_ret.
    apply (ends_open_on_settles (pin (_cfg relay))), ends_open_pulse. }
  assert (Hhold : forall relay,
             settles (cmd_hold fuel relay (Args.hold_seconds args) ;; ret 0%Z)).
  { intro relay. apply settles_then_ret.
    apply (ends_open_on_settles (pin (_cfg relay))), ends_open_hold. }
  assert (Hopen : forall relay, settles (Relay_open relay ;; ret 0%Z)).
  { intro relay. apply settles_then_ret.
    apply (ends_open_on_settles (pin (_cfg relay))), ends_open_on_open. }
  assert (Hignite : forall relay,
             settles ((if Args.maintained args
                       then cmd_maintained fuel relay (Args.hold_seconds args)
                       else cmd_pulse relay (Args.pulse_ms args)) ;; ret 0%Z)).
  { intro relay. apply settles_then_ret.
    apply (ends_open_on_settles (pin (_cfg relay))).
    destruct (Args.maintained args);
      [apply ends_open_maintained|apply ends_open_pulse]. }
  assert (Hguard : forall c,
             settles (if guarded c
                      then _guard_after_boot (Args.boot_guard_seconds args)
                                             (Args.dry_run args)
                      else ret tt)).
  { intro c. apply settles_no_write.
    destruct (guarded c); [apply no_write_guard|apply no_write_ret]. }
  destruct (Args.cmd args).
  - apply settles_no_write.
    apply no_write_bind; [|intro; apply no_write_ret].
    destruct (Args.json args); [apply no_write_print|].
    apply no_write_bind; [apply no_write_print|intros _].
    apply no_write_bind; [|intro; apply no_write_print].
    induction (Text.sorted (keys KNOWN_RELAYS)) as [|x r IH]; cbn [for_each];
      [apply no_write_ret|].
    apply no_write_bind; [apply no_write_print|intros _; exact IH].
  - do 2 (apply settles_bind; [apply settles_no_write, no_write_lift|intro]).
    do 2 (apply settles_bind; [apply settles_no_write, no_write_select|intro]).
    do 2 (apply settles_bind; [apply settles_open_if_present|intro]).
    apply settles_bind; [apply Hguard|intro].
    apply settles_asserted. exact Hignite.
  - do 2 (apply settles_bind; [apply settles_no_write, no_write_lift|intro]).
    do 2 (apply settles_bind; [apply settles_no_write, no_write_select|intro]).
    do 2 (apply settles_bind; [apply settles_open_if_present|intro]).
    apply settles_bind; [apply Hguard|intro].
    apply settles_asserted. exact Hhold.
  - do 2 (apply settles_bind; [apply settles_no_write, no_write_lift|intro]).
    do 2 (apply settles_bind; [apply settles_no_write, no_write_select|intro]).
    do 2 (apply settles_bind; [apply settles_open_if_present|intro]).
    apply settles_bind; [apply Hguard|intro].
    apply settles_asserted. exact Hopen.
  - do 2 (apply settles_bind; [apply settles_no_write, no_write_lift|intro]).
    do 2 (apply settles_bind; [apply settles_no_write, no_write_select|intro]).
    do 2 (apply settles_bind; [apply settles_open_if_present|intro]).
    apply settles_bind; [apply Hguard|intro].
    apply settles_asserted. exact Hhold.
  - do 2 (apply settles_bind; [apply settles_no_write, no_write_lift|intro]).
    do 2 (apply settles_bind; [apply settles_no_write, no_write_select|intro]).
    do 2 (apply settles_bind; [apply settles_open_if_present|intro]).
    apply settles_bind; [apply Hguard|intro].
    apply settles_asserted. exact Hopen.
  - do 2 (apply settles_bind; [apply settles_no_write, no_write_lift|intro]).
    do 2 (apply settles_bind; [apply settles_no_write, no_write_select|intro]).
    do 2 (apply settles_bind; [apply settles_open_if_present|intro]).
    apply settles_bind; [apply Hguard|intro].
    apply settles_asserted. exact Hpulse.
  - apply settles_bind; [apply settles_no_write, no_write_parse_pins|intro ns].
    apply settles_then_ret, settles_probe.
Qed.

(** Whenever [main] returns, that is, on every run that ends neither by
    an exception nor in an unfinished hold, the last operation made on
    each relay channel it used is an open. *)
Theorem normal_return_leaves_relays_open :
  forall (fuel : nat) (args : Args.t) (w : world) (code : Z) (w' : world),
    main fuel args w = (Ret code, w') ->
    exists l,
      trace w' = trace w ++ l /\
      forall q, last_action q l <> Some CLOSE.
Proof.
  intros fuel args w code w' E. exact (settles_main fuel args w code w' E).
Qed.

Lemma normal_return_leaves_relays_open_witness :
  exists l,
    trace (snd (main 0 maintained_sim calm)) = trace calm ++ l /\
    forall q, last_action q l <> Some CLOSE.
Proof.
  apply (normal_return_leaves_relays_open 0 maintained_sim calm 0%Z
           (snd (main 0 maintained_sim calm))).
  vm_compute. reflexivity.
Defined.

(** ** No closure before the boot guard has elapsed *)

Lemma proc_uptime_advance d w : proc_uptime (advance d w) = proc_uptime w.
Proof. unfold advance. destruct (Qltb 0 d); reflexivity. Qed.

Lemma proc_uptime_interrupted w : proc_uptime (interrupted w) = proc_uptime w.
Proof. unfold interrupted. destruct (sigint w); reflexivity. Qed.

Lemma monotonic_interrupted_ge w : monotonic w <= monotonic (interrupted w).
Proof.
  unfold interrupted. destruct (sigint w) as [t|]; [|lra].
  cbn [monotonic clear_sigint set_clock]. rewrite Qred_correct. apply Q.le_max_l.
Qed.

Lemma stamped_same {A : Type} (m : M A) :
  (forall w o w', m w = (o, w') ->
     monotonic w' = monotonic w /\ proc_uptime w' = proc_uptime w /\
     trace w' = trace w) ->
  stamped m.
Proof.
  intros H w o w' E. destruct (H w o w' E) as (Hm & Hu & Ht).
  split; [rewrite Hm; lra|]. split; [exact Hu|].
  exists []. rewrite app_nil_r. split; [exact Ht|constructor].
Qed.

Lemma stamped_ret {A : Type} (a : A) : stamped (ret a).
Proof. apply stamped_same. intros w o w' E. inversion E; subst. repeat split. Qed.

Lemma stamped_raise {A : Type} (e : exn) : stamped (@raise A e).
Proof. apply stamped_same. intros w o w' E. inversion E; subst. repeat split. Qed.

Lemma stamped_print (l : line) : stamped (print l).
Proof. apply stamped_same. intros w o w' E. inversion E; subst. repeat split. Qed.

Lemma stamped_sleep (d : Q) : stamped (_sleep_with_sigint d).
Proof.
  intros w o w' E. rewrite _sleep_with_sigint_spec in E.
  destruct (Qltb 0 d && due w (monotonic w + d)); inversion E; subst.
  - split; [apply monotonic_interrupted_ge|].
    split; [apply proc_uptime_interrupted|].
    exists []. rewrite app_nil_r, trace_interrupted. split; [reflexivity|constructor].
  - split.
    + rewrite monotonic_advance. pose proof (Q.le_max_l 0 d). lra.
    + split; [apply proc_uptime_advance|].
      exists []. rewrite app_nil_r, trace_advance. split; [reflexivity|constructor].
Qed.

Lemma stamped_time_sleep (d : Q) : 0 <= d -> stamped (time_sleep d).
Proof.
  intros Hd w o w' E. unfold time_sleep in E. cbv zeta in E.
  pose proof (Qred_correct (monotonic w + d)) as Hwake.
  destruct (sigint w) as [t|]; [destruct (Qltb t (monotonic w + d))|];
    injection E as Ho Hw; subst o w';
    cbn [monotonic set_clock clear_sigint proc_uptime trace];
    (split; [|split; [reflexivity|];
              exists []; rewrite app_nil_r; split; [reflexivity|constructor]]).
  - rewrite Qred_correct. apply Q.le_max_l.
  - rewrite Hwake. lra.
  - rewrite Hwake. lra.
Qed.

Lemma stamped_bind {A B : Type} (m : M A) (k : A -> M B) :
  stamped m -> (forall a, stamped (k a)) -> stamped (bind m k).
Proof.
  intros Hm Hk w o w' E. unfold bind in E.
  destruct (m w) as [[a|e|] w1] eqn:Em;
    destruct (Hm w _ w1 Em) as (Hc & Hu & l & Hl & Ho).
  - destruct (Hk a w1 o w' E) as (Hc' & Hu' & l' & Hl' & Ho').
    split; [lra|]. split; [congruence|].
    exists (l ++ l'). rewrite app_assoc, <- Hl. split; [exact Hl'|].
    apply Forall_app. split; [exact Ho|].
    apply (Forall_impl _ (fun x (Hx : monotonic w1 <= op_at x) =>
                            Qle_trans _ _ _ Hc Hx) Ho').
  - inversion E; subst. split; [exact Hc|]. split; [exact Hu|].
    exists l. split; assumption.
  - inversion E; subst. split; [exact Hc|]. split; [exact Hu|].
    exists l. split; assumption.
Qed.

Lemma stamped_sleep_forever (fuel : nat) : stamped (sleep_forever fuel).
Proof.
  induction fuel as [|k IH].
  - apply stamped_same. intros w o w' E. inversion E; subst. repeat split.
  - cbn [sleep_forever]. apply stamped_bind; [|intros _; exact IH].
    apply stamped_time_sleep. lra.
Qed.

Lemma stamped_except (body : M unit) :
  stamped body -> stamped (except_KeyboardInterrupt_pass body).
Proof.
  intros H w o w' E. unfold except_KeyboardInterrupt_pass in E.
  destruct (body w) as [[a|e|] w1] eqn:Eb; pose proof (H w _ w1 Eb) as Hb;
    try (inversion E; subst; exact Hb).
  destruct e; inversion E; subst; exact Hb.
Qed.

Lemma relay_call_frame (r : Relay) (a : action) (w : world) (o : outcome unit) (w' : world) :
  relay_call r a w = (o, w') ->
  monotonic w' = monotonic w /\ proc_uptime w' = proc_uptime w.
Proof.
  intro E. unfold relay_call in E. destruct (_dry_run r).
  - inversion E; subst. split; reflexivity.
  - unfold device_write in E. cbn [write_fails writes add_op] in E.
    destruct (write_fails w (writes w)); inversion E; subst; split; reflexivity.
Qed.

Lemma stamped_relay_call (r : Relay) (a : action) : stamped (relay_call r a).
Proof.
  intros w o w' E. destruct (relay_call_frame r a w o w' E) as (Hm & Hu).
  split; [rewrite Hm; lra|]. split; [exact Hu|].
  eexists. split; [exact (relay_call_trace r a w o w' E)|].
  repeat constructor. cbn [op_at]. lra.
Qed.

Lemma stamped_hold_wait (fuel : nat) (l : line) (hold : option Q) :
  stamped (match hold with
           | None => print l ;; except_KeyboardInterrupt_pass (sleep_forever fuel)
           | Some h => _sleep_with_sigint h
           end).
Proof.
  destruct hold; [apply stamped_sleep|].
  apply stamped_bind; [apply stamped_print|intros _].
  apply stamped_except, stamped_sleep_forever.
Qed.

Lemma stamped_true_div (n : Z) (d : Q) : stamped (true_div n d).
Proof.
  unfold true_div. destruct (int_to_float n);
    [apply stamped_ret|apply stamped_raise].
Qed.

Ltac stamp_steps :=
  repeat first
    [ apply stamped_relay_call | apply stamped_sleep | apply stamped_print
    | apply stamped_true_div
    | apply stamped_ret | apply stamped_hold_wait
    | apply stamped_bind; [|intro] ].

Lemma stamped_pulse (relay : Relay) (pulse_ms : Z) : stamped (cmd_pulse relay pulse_ms).
Proof. unfold cmd_pulse, Relay_open, Relay_close. stamp_steps. Qed.

Lemma stamped_hold (fuel : nat) (relay : Relay) (hold : option Q) :
  stamped (cmd_hold fuel relay hold).
Proof.
  unfold cmd_hold, Relay_open, Relay_close.
  do 2 (apply stamped_bind; [apply stamped_relay_call|intros _]).
  apply stamped_bind; [apply stamped_hold_wait|intros _].
  apply stamped_relay_call.
Qed.

Lemma stamped_maintained (fuel : nat) (relay : Relay) (hold : option Q) :
  stamped (cmd_maintained fuel relay hold).
Proof.
  unfold cmd_maintained, Relay_open, Relay_close.
  do 7 (apply stamped_bind; [stamp_steps|intros _]).
  apply stamped_bind; [apply stamped_hold_wait|intros _].
  apply stamped_relay_call.
Qed.

Lemma stamped_asserted (r : option Relay) (k : Relay -> M Z) :
  (forall relay, stamped (k relay)) -> stamped (asserted r k).
Proof. intro H. destruct r; cbn [asserted]; [apply H|apply stamped_raise]. Qed.

(** If the guard returns, the clock has moved on by the deficit at least. *)
Lemma guard_waits (g : Q) (dry : bool) (w : world) (o : outcome unit) (w' : world) (up : Q) :
  _guard_after_boot g dry w = (o, w') ->
  proc_uptime w = Some up -> 0 <= up ->
  trace w' = trace w /\
  (o = Ret tt -> monotonic w + (g - up) <= monotonic w').
Proof.
  intros E Hup Hnn.
  split; [exact (proj2 (proj2 (no_write_guard g dry w o w' E)))|].
  intro Ho. subst o. unfold _guard_after_boot in E.
  destruct (Qle_bool g 0) eqn:Hg.
  - apply Qle_bool_iff in Hg. inversion E; subst. lra.
  - unfold bind at 1 in E. unfold _read_uptime_seconds in E. rewrite Hup in E.
    destruct (Qltb 0 (g - up)) eqn:Hrem.
    + rewrite bind_print, _sleep_with_sigint_spec in E.
      destruct (Qltb 0 (g - up) && _); inversion E; subst.
      rewrite monotonic_advance, monotonic_add_line.
      pose proof (Q.le_max_r 0 (g - up)). lra.
    + apply Qltb_false in Hrem. inversion E; subst. lra.
Qed.

Lemma closes_late_guard_then (g up : Q) (dry : bool) (k : M Z) :
  0 <= up -> stamped k ->
  closes_late g up (_guard_after_boot g dry ;; k).
Proof.
  intros Hnn Hk w o w' E Hup. unfold bind in E.
  destruct (_guard_after_boot g dry w) as [[[]|e|] w1] eqn:Eg;
    destruct (guard_waits g dry w _ w1 up Eg Hup Hnn) as (Htr & Hclock).
  - destruct (Hk w1 o w' E) as (_ & _ & l & Hl & Ho).
    exists l. rewrite <- Htr. split; [exact Hl|].
    specialize (Hclock eq_refl).
    apply (Forall_impl _ (fun x (Hx : monotonic w1 <= op_at x)
                            (_ : op_action x = CLOSE) =>
                            Qle_trans _ _ _ Hclock Hx) Ho).
  - inversion E; subst. exists []. rewrite app_nil_r. split; [exact Htr|constructor].
  - inversion E; subst. exists []. rewrite app_nil_r. split; [exact Htr|constructor].
Qed.

Lemma closes_late_prefix {A B : Type} (g up : Q) (m : M A) (k : A -> M B) :
  still_opens m -> (forall a, closes_late g up (k a)) ->
  closes_late g up (bind m k).
Proof.
  intros Hm Hk w o w' E Hup. unfold bind in E.
  assert (Hvac : forall l, Forall (fun x => op_action x = OPEN) l ->
            Forall (fun x => op_action x = CLOSE ->
                             monotonic w + (g - up) <= op_at x) l).
  { intros l H. apply (Forall_impl _ (fun x (Hx : op_action x = OPEN)
                         (Hc : op_action x = CLOSE) =>
                         False_ind _ (eq_ind OPEN (fun a => match a with
                            OPEN => True | CLOSE => False end) I CLOSE
                            (eq_trans (eq_sym Hx) Hc))) H). }
  destruct (m w) as [[a|e|] w1] eqn:Em;
    destruct (Hm w _ w1 Em) as (Hc & Hu & l & Hl & Ho).
  - destruct (Hk a w1 o w' E ltac:(congruence)) as (l' & Hl' & Ho').
    exists (l ++ l'). rewrite app_assoc, <- Hl. split; [exact Hl'|].
    apply Forall_app. split; [apply Hvac; exact Ho|].
    rewrite Hc in Ho'. exact Ho'.
  - inversion E; subst. exists l. split; [exact Hl|apply Hvac; exact Ho].
  - inversion E; subst. exists l. split; [exact Hl|apply Hvac; exact Ho].
Qed.

Lemma still_opens_same {A : Type} (m : M A) :
  (forall w o w', m w = (o, w') ->
     monotonic w' = monotonic w /\ proc_uptime w' = proc_uptime w /\
     trace w' = trace w) ->
  still_opens m.
Proof.
  intros H w o w' E. destruct (H w o w' E) as (Hm & Hu & Ht).
  split; [exact Hm|]. split; [exact Hu|].
  exists []. rewrite app_nil_r. split; [exact Ht|constructor].
Qed.

Lemma still_opens_lift {A : Type} (r : exits A) : still_opens (lift_exits r).
Proof.
  apply still_opens_same. intros w o w' E.
  destruct r; inversion E; subst; repeat split.
Qed.

Lemma still_opens_select (needed : bool) (p : option Z) (missing : string) (a : Args.t) :
  still_opens (select_relay needed p missing a).
Proof.
  apply still_opens_same. intros w o w' E. unfold select_relay in E.
  destruct needed; [destruct p as [n|]|].
  - unfold bind, Relay_init in E.
    destruct (Args.dry_run a);
      [|destruct (gpiozero w); [destruct (device_fails w (devices w))|]];
      inversion E; subst; repeat split.
  - inversion E; subst. repeat split.
  - inversion E; subst. repeat split.
Qed.

Lemma still_opens_open_if_present (r : option Relay) : still_opens (open_if_present r).
Proof.
  destruct r as [relay|]; cbn [open_if_present].
  - intros w o w' E. destruct (relay_call_frame relay OPEN w o w' E) as (Hm & Hu).
    split; [exact Hm|]. split; [exact Hu|].
    eexists. split; [exact (relay_call_trace relay OPEN w o w' E)|].
    repeat constructor.
  - apply still_opens_same. intros w o w' E. inversion E; subst. repeat split.
Qed.

Lemma closes_late_main (fuel : nat) (args : Args.t) (up : Q) :
  guarded (Args.cmd args) = true -> 0 <= up ->
  closes_late (Args.boot_guard_seconds args) up (main fuel args).
Proof.
  intros Hg Hnn. unfold main.
  destruct (Args.cmd args); try discriminate; cbn [guarded];
    do 2 (apply closes_late_prefix; [apply still_opens_lift|intro]);
    do 2 (apply closes_late_prefix; [apply still_opens_select|intro]);
    do 2 (apply closes_late_prefix; [apply still_opens_open_if_present|intro]);
    apply closes_late_guard_then; try exact Hnn;
    apply stamped_asserted; intro relay;
    (apply stamped_bind; [|intro; apply stamped_ret]).
  - destruct (Args.maintained args); [apply stamped_maintained|apply stamped_pulse].
  - apply stamped_hold.
  - apply stamped_relay_call.
Qed.

(** For [ignite], [on] and [off], when the uptime read is [up], no relay
    is closed before the clock has moved on by the guard's minimum less
    [up]: before the system is that long up.  This holds in every world,
    with the interrupt and failing writes included. *)
Theorem no_closure_before_boot_guard :
  forall (fuel : nat) (args : Args.t) (w : world) (up : Q),
    guarded (Args.cmd args) = true ->
    proc_uptime w = Some up ->
    0 <= up ->
    exists l,
      trace (snd (main fuel args w)) = trace w ++ l /\
      Forall (fun x => op_action x = CLOSE ->
                       monotonic w + (Args.boot_guard_seconds args - up) <= op_at x) l.
Proof.
  intros fuel args w up Hg Hup Hnn.
  apply (closes_late_main fuel args up Hg Hnn w (fst (main fuel args w)));
    [apply surjective_pairing|exact Hup].
Qed.

Lemma no_closure_before_boot_guard_witness :
  exists l,
    trace (snd (main 1 on_live rough_boot)) = trace rough_boot ++ l /\
    Forall (fun x => op_action x = CLOSE ->
                     monotonic rough_boot + (Args.boot_guard_seconds on_live - 5.0)
                     <= op_at x) l.
Proof.
  apply (no_closure_before_boot_guard 1 on_live rough_boot 5.0).
  - reflexivity.
  - reflexivity.
  - unfold Qle. cbn. lia.
Defined.

(** ** Numbers and names, there and back *)

Lemma digit_char_ok (d : Z) :
  (0 <= d < 10)%Z ->
  Text.is_digit (Show.digit_char d) = true /\
  Text.digit_value (Show.digit_char d) = d /\
  Text.is_space (Show.digit_char d) = false.
Proof.
  intro H.
  assert (Hd : (d = 0 \/ d = 1 \/ d = 2 \/ d = 3 \/ d = 4 \/
                d = 5 \/ d = 6 \/ d = 7 \/ d = 8 \/ d = 9)%Z) by lia.
  repeat (destruct Hd as [->|Hd]; [repeat split|]). subst d. repeat split.
Qed.

Lemma pos_digits_spec (f : nat) :
  forall n : Z,
    (0 <= n <= Z.of_nat (S f))%Z ->
    exists k : Z,
      (1 <= k)%Z /\ (n < 10 ^ k)%Z /\ ((1 < k)%Z -> (10 ^ (k - 1) <= n)%Z) /\
      (forall (rest : string) (a : Z) (b : bool),
          Text.digits a b (Show.pos_digits (S f) n rest)
          = Text.digits (a * 10 ^ k + n) true rest) /\
      (forall rest : string,
          Text.digit_count (Show.pos_digits (S f) n rest)
          = (k + Text.digit_count rest)%Z).
Proof.
  assert (Hone : forall n rest,
             (0 <= n < 10)%Z ->
             (forall (a : Z) (b : bool),
                 Text.digits a b (String (Show.digit_char (n mod 10)) rest)
                 = Text.digits (a * 10 ^ 1 + n) true rest) /\
             Text.digit_count (String (Show.digit_char (n mod 10)) rest)
             = (1 + Text.digit_count rest)%Z).
  { intros n rest Hn.
    assert (Hmod : (n mod 10 = n)%Z) by (apply Z.mod_small; lia).
    destruct (digit_char_ok (n mod 10)) as (Hd & Hv & _); [lia|].
    split.
    - intros a b. cbn [Text.digits]. rewrite Hd, Hv, Hmod. f_equal. lia.
    - cbn [Text.digit_count]. rewrite Hd. reflexivity. }
  induction f as [|f IH]; intros n Hn.
  - exists 1%Z. split; [lia|]. split; [change (10 ^ 1)%Z with 10%Z; lia|].
    split; [lia|].
    assert (E : forall rest, Show.pos_digits 1 n rest
                             = String (Show.digit_char (n mod 10)) rest).
    { intro rest. cbn [Show.pos_digits]. destruct (n <? 10)%Z; reflexivity. }
    split; [intros rest a b|intro rest]; rewrite E;
      apply (Hone n rest); lia.
  - assert (Hstep : forall rest,
               Show.pos_digits (S (S f)) n rest
               = if (n <? 10)%Z then String (Show.digit_char (n mod 10)) rest
                 else Show.pos_digits (S f) (n / 10)
                        (String (Show.digit_char (n mod 10)) rest))
      by reflexivity.
    destruct (n <? 10)%Z eqn:Hlt.
    + apply Z.ltb_lt in Hlt.
      exists 1%Z. split; [lia|]. split; [change (10 ^ 1)%Z with 10%Z; lia|].
      split; [lia|].
      split; [intros rest a b|intro rest]; rewrite Hstep;
        apply (Hone n rest); lia.
    + apply Z.ltb_ge in Hlt.
      assert (Hq : (0 <= n / 10 <= Z.of_nat (S f))%Z).
      { split; [apply Z.div_pos; lia|].
        apply Z.div_le_upper_bound; lia. }
      destruct (IH (n / 10)%Z Hq) as (k & Hk1 & Hup & Hlow & Hdig & Hcnt).
      pose proof (Z.div_mod n 10 ltac:(lia)) as Hdm.
      pose proof (Z.mod_pos_bound n 10 ltac:(lia)) as Hmb.
      assert (Hpow : (10 ^ (k + 1) = 10 * 10 ^ k)%Z).
      { rewrite Z.pow_add_r by lia. change (10 ^ 1)%Z with 10%Z. lia. }
      exists (k + 1)%Z. split; [lia|]. split; [rewrite Hpow; lia|].
      split.
      * intros _. replace (k + 1 - 1)%Z with k by lia.
        destruct (Z.eq_dec k 1) as [->|Hk].
        -- change (10 ^ 1)%Z with 10%Z. lia.
        -- specialize (Hlow ltac:(lia)).
           assert (Hp : (10 ^ k = 10 * 10 ^ (k - 1))%Z).
           { replace k with ((k - 1) + 1)%Z at 1 by lia.
             rewrite Z.pow_add_r by lia. change (10 ^ 1)%Z with 10%Z. lia. }
           rewrite Hp. lia.
      * destruct (digit_char_ok (n mod 10)) as (Hd & Hv & _); [lia|].
        split.
        -- intros rest a b. rewrite Hstep, Hdig. cbn [Text.digits].
           rewrite Hd, Hv. f_equal. rewrite Hpow. lia.
        -- intro rest. rewrite Hstep, Hcnt. cbn [Text.digit_count].
           rewrite Hd. lia.
Qed.

Lemma pos_digits_shape (f : nat) :
  forall (n : Z) (acc : string),
    (0 <= n)%Z -> spaceless acc = true ->
    spaceless (Show.pos_digits (S f) n acc) = true /\
    exists d r, (0 <= d < 10)%Z /\
                Show.pos_digits (S f) n acc = String (Show.digit_char d) r.
Proof.
  induction f as [|f IH]; intros n acc Hn Hacc.
  - cbn [Show.pos_digits].
    destruct (digit_char_ok (n mod 10)) as (_ & _ & Hs);
      [apply Z.mod_pos_bound; lia|].
    assert (E : (if (n <? 10)%Z
                 then String (Show.digit_char (n mod 10)) acc
                 else String (Show.digit_char (n mod 10)) acc)
                = String (Show.digit_char (n mod 10)) acc)
      by (destruct (n <? 10)%Z; reflexivity).
    rewrite E. cbn [spaceless]. rewrite Hs, Hacc. split; [reflexivity|].
    exists (n mod 10)%Z, acc. split; [apply Z.mod_pos_bound; lia|reflexivity].
  - change (Show.pos_digits (S (S f)) n acc)
      with (let acc' := String (Show.digit_char (n mod 10)) acc in
            if (n <? 10)%Z then acc' else Show.pos_digits (S f) (n / 10) acc').
    cbv zeta.
    destruct (digit_char_ok (n mod 10)) as (_ & _ & Hs);
      [apply Z.mod_pos_bound; lia|].
    assert (Hacc' : spaceless (String (Show.digit_char (n mod 10)) acc) = true).
    { cbn [spaceless]. rewrite Hs, Hacc. reflexivity. }
    destruct (n <? 10)%Z.
    + split; [exact Hacc'|].
      exists (n mod 10)%Z, acc. split; [apply Z.mod_pos_bound; lia|reflexivity].
    + apply IH; [apply Z.div_pos; lia|exact Hacc'].
Qed.

Lemma rstrip_spaceless (s : string) : spaceless s = true -> Text.rstrip s = s.
Proof.
  induction s as [|c r IH]; [reflexivity|].
  cbn [spaceless]. intro H. apply andb_true_iff in H. destruct H as (Hc & Hr).
  apply negb_true_iff in Hc. cbn [Text.rstrip]. rewrite (IH Hr).
  destruct r; [rewrite Hc|]; reflexivity.
Qed.

Lemma strip_spaceless (s : string) : spaceless s = true -> Text.strip s = s.
Proof.
  intro H. unfold Text.strip.
  assert (E : Text.lstrip s = s).
  { destruct s as [|c r]; [reflexivity|]. cbn [spaceless] in H.
    apply andb_true_iff in H. destruct H as (Hc & _).
    apply negb_true_iff in Hc. cbn [Text.lstrip]. rewrite Hc. reflexivity. }
  rewrite E. apply rstrip_spaceless. exact H.
Qed.

Lemma literal_digit_headed (d : Z) (r : string) :
  (0 <= d < 10)%Z ->
  Text.literal (String (Show.digit_char d) r)
  = Text.digits 0 false (String (Show.digit_char d) r).
Proof.
  intro H.
  assert (Hd : (d = 0 \/ d = 1 \/ d = 2 \/ d = 3 \/ d = 4 \/
                d = 5 \/ d = 6 \/ d = 7 \/ d = 8 \/ d = 9)%Z) by lia.
  repeat (destruct Hd as [->|Hd]; [reflexivity|]). subst d. reflexivity.
Qed.

Lemma show_int_shape (n : Z) :
  spaceless (Show.int n) = true /\
  ((0 <= n)%Z /\ exists f, Show.int n = Show.pos_digits (S f) n "" /\
                           (n <= Z.of_nat (S f))%Z) \/
  spaceless (Show.int n) = true /\
  ((n < 0)%Z /\ exists f, Show.int n = String "-" (Show.pos_digits (S f) (- n) "") /\
                          (- n <= Z.of_nat (S f))%Z).
Proof.
  unfold Show.int. destruct (n <? 0)%Z eqn:Hn.
  - right. apply Z.ltb_lt in Hn.
    assert (Hf : exists f, Z.to_nat (- n) = S f).
    { exists (pred (Z.to_nat (- n))). lia. }
    destruct Hf as (f & Hf). rewrite Hf.
    destruct (pos_digits_shape f (- n) "" ltac:(lia) eq_refl) as (Hsp & _).
    split; [cbn [spaceless]; rewrite Hsp; reflexivity|].
    split; [exact Hn|]. exists f. split; [reflexivity|lia].
  - left. apply Z.ltb_ge in Hn.
    destruct (pos_digits_shape (Z.to_nat n) n "" Hn eq_refl) as (Hsp & _).
    split; [exact Hsp|]. split; [exact Hn|].
    exists (Z.to_nat n). split; [reflexivity|lia].
Qed.

(** A number of [k] digits is within the limit exactly when it is below
    10^4300. *)
Lemma digit_count_limit (n k : Z) :
  (1 <= k)%Z -> (n < 10 ^ k)%Z -> ((1 < k)%Z -> (10 ^ (k - 1) <= n)%Z) ->
  (Text.int_max_str_digits <? k)%Z
  = negb (n <? 10 ^ Text.int_max_str_digits)%Z.
Proof.
  intros Hk Hup Hlow. unfold Text.int_max_str_digits.
  set (L := (10 ^ 4300)%Z).
  destruct (Z.ltb_spec 4300 k) as [Hbig|Hsmall];
    destruct (Z.ltb_spec n L) as [Hn|Hn]; cbn [negb]; try reflexivity; exfalso.
  - specialize (Hlow ltac:(lia)).
    assert (Hp : (L <= 10 ^ (k - 1))%Z).
    { unfold L. apply Z.pow_le_mono_r; lia. }
    lia.
  - assert (Hp : (10 ^ k <= L)%Z).
    { unfold L. apply Z.pow_le_mono_r; lia. }
    lia.
Qed.

(** [int] reads back what the decimal rendering wrote, as long as the
    numeral has no more than 4300 digits; beyond, it refuses. *)
Lemma int_show (n : Z) :
  Text.int (Show.int n)
  = if (Z.abs n <? 10 ^ Text.int_max_str_digits)%Z then Some n else None.
Proof.
  destruct (show_int_shape n) as [(Hsp & Hn & f & Hs & Hf)|(Hsp & Hn & f & Hs & Hf)];
    unfold Text.int; cbv zeta; rewrite (strip_spaceless _ Hsp), Hs.
  - destruct (pos_digits_spec f n ltac:(lia)) as (k & Hk & Hup & Hlow & Hdig & Hcnt).
    rewrite Hcnt. cbn [Text.digit_count]. rewrite Z.add_0_r.
    rewrite (digit_count_limit n k Hk Hup Hlow), Z.abs_eq by exact Hn.
    destruct (n <? 10 ^ Text.int_max_str_digits)%Z; [|reflexivity].
    cbn [negb].
    destruct (pos_digits_shape f n "" Hn eq_refl) as (_ & d & r & Hd & Hhead).
    rewrite Hhead, (literal_digit_headed d r Hd), <- Hhead, Hdig.
    cbn [Text.digits]. f_equal; lia.
  - destruct (pos_digits_spec f (- n) ltac:(lia))
      as (k & Hk & Hup & Hlow & Hdig & Hcnt).
    assert (Hc : Text.digit_count (String "-" (Show.pos_digits (S f) (- n) ""))
                 = k).
    { change (Text.digit_count (String "-" (Show.pos_digits (S f) (- n) "")))
        with (Text.digit_count (Show.pos_digits (S f) (- n) "")).
      rewrite Hcnt. cbn [Text.digit_count]. lia. }
    rewrite Hc, (digit_count_limit (- n) k Hk Hup Hlow), Z.abs_neq by lia.
    destruct (- n <? 10 ^ Text.int_max_str_digits)%Z; [|reflexivity].
    cbn [negb Text.literal]. rewrite Hdig.
    cbn [Text.digits option_map]. f_equal; lia.
Qed.

Lemma show_int_head (n : Z) :
  exists c r, Show.int n = String c r /\
              (c = "-"%char \/ exists d, (0 <= d < 10)%Z /\ c = Show.digit_char d).
Proof.
  destruct (show_int_shape n) as [(_ & Hn & f & Hs & _)|(_ & _ & f & Hs & _)].
  - destruct (pos_digits_shape f n "" Hn eq_refl) as (_ & d & r & Hd & Hhead).
    exists (Show.digit_char d), r. split; [congruence|].
    right. exists d. split; [exact Hd|reflexivity].
  - eexists _, _. split; [exact Hs|left; reflexivity].
Qed.

Lemma numeral_not_a_name (n : Z) :
  String.eqb (Show.int n) "" = false /\
  get RELAY_ALIASES (Show.int n) = None /\
  get KNOWN_RELAYS (Show.int n) = None.
Proof.
  destruct (show_int_head n) as (c & r & -> & [->|(d & Hd & ->)]).
  - repeat split.
  - assert (Hc : (d = 0 \/ d = 1 \/ d = 2 \/ d = 3 \/ d = 4 \/
                  d = 5 \/ d = 6 \/ d = 7 \/ d = 8 \/ d = 9)%Z) by lia.
    repeat (destruct Hc as [->|Hc]; [repeat split|]). subst d. repeat split.
Qed.

(** What the resolver makes of a number written in decimal. *)
Lemma resolve_numeral (n : Z) :
  _resolve_relay_ref (RStr (Show.int n))
  = if (Z.abs n <? 10 ^ Text.int_max_str_digits)%Z then Returns (Some n)
    else SystemExitMsg (unknown_relay_message (Show.int n)).
Proof.
  destruct (numeral_not_a_name n) as (Hne & Ha & Hk).
  assert (Hsp : spaceless (Show.int n) = true).
  { destruct (show_int_shape n) as [(H & _)|(H & _)]; exact H. }
  cbn [_resolve_relay_ref].
  rewrite (strip_spaceless _ Hsp), Hne, Ha, Hk, int_show.
  destruct (Z.abs n <? 10 ^ Text.int_max_str_digits)%Z; reflexivity.
Qed.

(** C6, as the code has it.  The resolver does not check the sign.  An
    integer argument is returned as given.  A string is stripped and then
    stands for the pin of the name its alias leads to, or for the pin of
    the name it is, or else for the integer it spells, sign included.  So
    a name or an alias resolves to one of the board's pins 4, 22, 6 and
    26, the decimal text of a number resolves to that number, and a
    negative identifier comes out exactly for a negative integer argument
    or a literal written with a leading minus sign. *)
Theorem C6_resolved_identifier :
  (forall n : Z, _resolve_relay_ref (RInt n) = Returns (Some n)) /\
  (forall n : Z,
      (Z.abs n < 10 ^ Text.int_max_str_digits)%Z ->
      _resolve_relay_ref (RStr (Show.int n)) = Returns (Some n)) /\
  (forall (v : string) (n : Z),
      _resolve_relay_ref (RStr v) = Returns (Some n) <->
      Text.strip v <> ""%string /\
      match get RELAY_ALIASES (Text.strip v) with
      | Some c => get KNOWN_RELAYS c = Some n
      | None =>
          match get KNOWN_RELAYS (Text.strip v) with
          | Some p => p = n
          | None => Text.int (Text.strip v) = Some n
          end
      end) /\
  (forall (r : relay_ref) (n : Z),
      _resolve_relay_ref r = Returns (Some n) ->
      ((n < 0)%Z ->
         r = RInt n \/
         exists v rest, r = RStr v /\ Text.strip v = String "-" rest) /\
      (forall v, r = RStr v ->
         get RELAY_ALIASES (Text.strip v) <> None \/
         get KNOWN_RELAYS (Text.strip v) <> None ->
         In n canonical_pins)).
Proof.
  split; [reflexivity|]. split; [|split].
  - intros n Hn. rewrite resolve_numeral.
    apply Z.ltb_lt in Hn. rewrite Hn. reflexivity.
  - intros v n. cbn [_resolve_relay_ref].
    set (s := Text.strip v).
    destruct (String.eqb s "") eqn:Hne.
    + apply String.eqb_eq in Hne. split; [discriminate|].
      intros (H & _). contradiction.
    + apply String.eqb_neq in Hne.
      destruct (get RELAY_ALIASES s) as [c|] eqn:Ha.
      * destruct (alias_target_resolves s c Ha) as (p & Hp & _). rewrite Hp.
        split.
        -- intro H. inversion H; subst. split; [exact Hne|reflexivity].
        -- intros (_ & H). inversion H; subst. reflexivity.
      * destruct (get KNOWN_RELAYS s) as [p|] eqn:Hk.
        -- split.
           ++ intro H. inversion H; subst. split; [exact Hne|reflexivity].
           ++ intros (_ & H). subst. reflexivity.
        -- destruct (Text.int s) as [k|] eqn:Hi.
           ++ split.
              ** intro H. inversion H; subst. split; [exact Hne|reflexivity].
              ** intros (_ & H). inversion H; subst. reflexivity.
           ++ split; [discriminate|]. intros (_ & H). discriminate.
  - intros r n H. destruct r as [|k|v]; cbn [_resolve_relay_ref] in H.
    + discriminate.
    + inversion H; subst. split; [intros _; left; reflexivity|].
      intros v Hv. discriminate.
    + set (s := Text.strip v) in *.
      destruct (String.eqb s "") eqn:Hne; [discriminate|].
      destruct (get RELAY_ALIASES s) as [c|] eqn:Ha.
      * destruct (alias_target_resolves s c Ha) as (p & Hp & _).
        rewrite Hp in H. inversion H; subst.
        pose proof (known_relay_pin c n Hp) as Hpin.
        split.
        -- intro Hneg. exfalso. cbn in Hpin.
           destruct Hpin as [<-|[<-|[<-|[<-|[]]]]]; lia.
        -- intros v' _ _. exact Hpin.
      * destruct (get KNOWN_RELAYS s) as [p|] eqn:Hk.
        -- inversion H; subst.
           pose proof (known_relay_pin s n Hk) as Hpin.
           split.
           ++ intro Hneg. exfalso. cbn in Hpin.
              destruct Hpin as [<-|[<-|[<-|[<-|[]]]]]; lia.
           ++ intros v' _ _. exact Hpin.
        -- destruct (Text.int s) as [k|] eqn:Hi; [|discriminate].
           inversion H; subst. split.
           ++ intro Hneg. right.
              destruct (int_negative s n Hi Hneg) as (rest & Hr).
              unfold s in Hr. rewrite strip_idem in Hr.
              exists v, rest. split; [reflexivity|exact Hr].
           ++ intros v' Hv [Hx|Hx]; inversion Hv; subst v'; fold s in Hx;
                congruence.
Qed.

Lemma C6_resolved_identifier_witness :
  _resolve_relay_ref (RStr (Show.int 17)) = Returns (Some 17%Z) /\
  _resolve_relay_ref (RStr " gpio22 ") = Returns (Some 22%Z) /\
  (RStr "-5" = RInt (-5)%Z \/
   exists v rest, RStr "-5" = RStr v /\ Text.strip v = String "-" rest) /\
  In 4%Z canonical_pins.
Proof.
  destruct C6_resolved_identifier as (_ & Hnum & Hstr & Hsign).
  split; [|split; [|split]].
  - apply (Hnum 17%Z). reflexivity.
  - apply (proj2 (Hstr " gpio22 "%string 22%Z)). split.
    + vm_compute. discriminate.
    + reflexivity.
  - apply (proj1 (Hsign (RStr "-5") (-5)%Z eq_refl)). lia.
  - apply (proj2 (Hsign (RStr "main") 4%Z eq_refl) "main"%string eq_refl).
    left. vm_compute. discriminate.
Defined.

(** C6 as stated fails: the literal "-5" resolves to the negative
    identifier -5. *)
Lemma C6_negative_identifier :
  ~ (forall (r : relay_ref) (n : Z),
        _resolve_relay_ref r = Returns (Some n) -> (0 <= n)%Z).
Proof.
  intro H. specialize (H (RStr "-5") (-5)%Z eq_refl). lia.
Qed.

(** A channel number written in decimal, negative ones included, resolves
    to that number, as the same number given to the legacy integer
    options does, and [_parse_pin] reads it back as well; this as long as
    the numeral has at most 4300 digits.  A longer one is refused by
    [int], hence by the resolver and by [_parse_pin]. *)
Theorem decimal_reference_resolves :
  forall n : Z,
    ((Z.abs n < 10 ^ Text.int_max_str_digits)%Z ->
       _resolve_relay_ref (RStr (Show.int n)) = Returns (Some n) /\
       _resolve_relay_ref (RStr (Show.int n)) = _resolve_relay_ref (RInt n) /\
       forall w, _parse_pin (Show.int n) w = (Ret n, w)) /\
    ((10 ^ Text.int_max_str_digits <= Z.abs n)%Z ->
       _resolve_relay_ref (RStr (Show.int n))
       = SystemExitMsg (unknown_relay_message (Show.int n)) /\
       forall w, _parse_pin (Show.int n) w = (Raise pin_type_error, w)).
Proof.
  intro n. pose proof (resolve_numeral n) as Hres. pose proof (int_show n) as Hint.
  split; intro H.
  - apply Z.ltb_lt in H. rewrite H in Hres, Hint.
    split; [exact Hres|]. split; [exact Hres|].
    intro w. unfold _parse_pin. rewrite Hint. reflexivity.
  - apply Z.ltb_ge in H. rewrite H in Hres, Hint.
    split; [exact Hres|].
    intro w. unfold _parse_pin. rewrite Hint. reflexivity.
Qed.

Lemma decimal_reference_resolves_witness :
  (_resolve_relay_ref (RStr (Show.int (-17))) = Returns (Some (-17)%Z) /\
   _resolve_relay_ref (RStr (Show.int (-17))) = _resolve_relay_ref (RInt (-17)) /\
   forall w, _parse_pin (Show.int (-17)) w = (Ret (-17)%Z, w)) /\
  _resolve_relay_ref (RStr (Show.int (10 ^ 4300)))
  = SystemExitMsg (unknown_relay_message (Show.int (10 ^ 4300))).
Proof.
  split.
  - apply (proj1 (decimal_reference_resolves (-17)%Z)). reflexivity.
  - apply (proj2 (decimal_reference_resolves (10 ^ 4300)%Z)).
    vm_compute. discriminate.
Defined.

Lemma get_in {V : Type} (d : dict V) (k : string) (v : V) :
  get d k = Some v -> In (k, v) d.
Proof.
  induction d as [|[k' v'] r IH]; cbn [get]; [discriminate|].
  destruct (String.eqb k k') eqn:E.
  - apply String.eqb_eq in E. intro H. inversion H; subst. left. reflexivity.
  - intro H. right. exact (IH H).
Qed.

Lemma name_outside_table (p : Z) :
  ~ In p canonical_pins ->
  _relay_name_for_pin p = ("gpio" ++ Show.int p)%string.
Proof.
  intro H. unfold _relay_name_for_pin, KNOWN_RELAYS. cbn [find snd].
  unfold canonical_pins, KNOWN_RELAYS in H. cbn [map snd In] in H.
  repeat match goal with
         | |- context [Z.eqb ?k p] =>
             destruct (Z.eqb_spec k p); [exfalso; apply H; tauto|]
         end.
  reflexivity.
Qed.

(** The name shown for a channel leads back to the channel exactly when
    the channel is in the table: the four known channels are shown under
    their canonical names, which resolve to them, while any other channel
    is shown as "gpio" followed by its number, a form the resolver does
    not accept. *)
Theorem displayed_name_round_trip :
  (forall (name : string) (p : Z),
      In (name, p) KNOWN_RELAYS ->
      _relay_name_for_pin p = name /\
      _resolve_relay_ref (RStr (_relay_name_for_pin p)) = Returns (Some p)) /\
  (forall p : Z,
      ~ In p canonical_pins ->
      _relay_name_for_pin p = ("gpio" ++ Show.int p)%string /\
      _resolve_relay_ref (RStr (_relay_name_for_pin p))
      = SystemExitMsg (unknown_relay_message ("gpio" ++ Show.int p))).
Proof.
  split.
  - intros name p H. unfold KNOWN_RELAYS in H. cbn [In] in H.
    repeat (destruct H as [H|H]; [inversion H; subst; split; reflexivity|]).
    destruct H.
  - intros p Hout. rewrite (name_outside_table p Hout).
    split; [reflexivity|].
    set (X := Show.int p).
    assert (Hsp : spaceless ("gpio" ++ X) = true).
    { cbn [append spaceless]. unfold X.
      destruct (show_int_shape p) as [(H & _)|(H & _)]; rewrite H; reflexivity. }
    assert (Hpins : forall k, In k canonical_pins -> Text.int X = Some k -> False).
    { intros k Hk E. unfold X in E. rewrite int_show in E.
      destruct (Z.abs p <? 10 ^ Text.int_max_str_digits)%Z; [|discriminate].
      inversion E; subst. exact (Hout Hk). }
    assert (Ha : get RELAY_ALIASES ("gpio" ++ X) = None).
    { destruct (get RELAY_ALIASES ("gpio" ++ X)) as [c|] eqn:E; [|reflexivity].
      exfalso. apply get_in in E. unfold RELAY_ALIASES in E.
      cbn [In append] in E.
      repeat (destruct E as [E|E]; [inversion E; subst|]); try contradiction.
      - apply (Hpins 4%Z); [cbn; tauto|].
        match goal with H : _ = X |- _ => rewrite <- H end. reflexivity.
      - apply (Hpins 22%Z); [cbn; tauto|].
        match goal with H : _ = X |- _ => rewrite <- H end. reflexivity.
      - apply (Hpins 6%Z); [cbn; tauto|].
        match goal with H : _ = X |- _ => rewrite <- H end. reflexivity.
      - apply (Hpins 26%Z); [cbn; tauto|].
        match goal with H : _ = X |- _ => rewrite <- H end. reflexivity. }
    assert (Hk : get KNOWN_RELAYS ("gpio" ++ X) = None) by reflexivity.
    cbn [_resolve_relay_ref]. rewrite (strip_spaceless _ Hsp), Ha, Hk.
    assert (Hn : Text.int ("gpio" ++ X) = None).
    { unfold Text.int. cbv zeta. rewrite (strip_spaceless _ Hsp).
      destruct (Text.int_max_str_digits <? Text.digit_count ("gpio" ++ X))%Z;
        reflexivity. }
    rewrite Hn. reflexivity.
Qed.

Lemma displayed_name_round_trip_witness :
  _relay_name_for_pin 17 = ("gpio" ++ Show.int 17)%string /\
  _resolve_relay_ref (RStr (_relay_name_for_pin 17))
  = SystemExitMsg (unknown_relay_message ("gpio" ++ Show.int 17)).
Proof.
  apply (proj2 displayed_name_round_trip 17%Z).
  cbn. intros [H|[H|[H|[H|[]]]]]; discriminate.
Defined.

Lemma lstrip_blank (a x : string) :
  blank a = true -> Text.lstrip (a ++ x) = Text.lstrip x.
Proof.
  induction a as [|c r IH]; [reflexivity|].
  cbn [blank]. intro H. apply andb_true_iff in H. destruct H as (Hc & Hr).
  cbn [append Text.lstrip]. rewrite Hc. exact (IH Hr).
Qed.

Lemma rstrip_blank (b : string) : blank b = true -> Text.rstrip b = EmptyString.
Proof.
  induction b as [|c r IH]; [reflexivity|].
  cbn [blank]. intro H. apply andb_true_iff in H. destruct H as (Hc & Hr).
  cbn [Text.rstrip]. rewrite (IH Hr), Hc. reflexivity.
Qed.

Lemma rstrip_app_blank (x b : string) :
  blank b = true -> Text.rstrip (x ++ b) = Text.rstrip x.
Proof.
  intro Hb. induction x as [|c r IH].
  - cbn [append]. rewrite (rstrip_blank b Hb). reflexivity.
  - cbn [append Text.rstrip]. rewrite IH. reflexivity.
Qed.

Lemma strip_padding (a v b : string) :
  blank a = true -> blank b = true ->
  Text.strip (a ++ v ++ b) = Text.strip v.
Proof.
  intros Ha Hb. unfold Text.strip. rewrite (lstrip_blank a _ Ha).
  induction v as [|c r IH].
  - cbn [append Text.lstrip].
    assert (E : Text.lstrip b = EmptyString).
    { clear -Hb. induction b as [|c r IH]; [reflexivity|].
      cbn [blank] in Hb. apply andb_true_iff in Hb. destruct Hb as (Hc & Hr).
      cbn [Text.lstrip]. rewrite Hc. exact (IH Hr). }
    rewrite E. reflexivity.
  - cbn [append Text.lstrip]. destruct (Text.is_space c); [exact IH|].
    change (String c (r ++ b)) with (String c r ++ b)%string.
    apply rstrip_app_blank. exact Hb.
Qed.

(** White space around a reference is ignored, for names, aliases and
    numbers alike: padding it on either side changes neither what it
    resolves to nor, when it is unknown, the message. *)
Theorem padding_is_ignored :
  forall a v b : string,
    blank a = true -> blank b = true ->
    _resolve_relay_ref (RStr (a ++ v ++ b)) = _resolve_relay_ref (RStr v).
Proof.
  intros a v b Ha Hb. cbn [_resolve_relay_ref].
  rewrite (strip_padding a v b Ha Hb). reflexivity.
Qed.

Lemma padding_is_ignored_witness :
  _resolve_relay_ref (RStr ("  " ++ "main" ++ " ")) = _resolve_relay_ref (RStr "main").
Proof.
  apply (padding_is_ignored "  " "main" " "); reflexivity.
Defined.

(** ** Ctrl+C during the boot guard *)

Lemma main_on_main_relay (fuel : nat) (args : Args.t) (w : world)
    (p : Z) (hp : option Z) :
  guarded (Args.cmd args) = true ->
  resolve_or (str_ref (Args.main_relay args)) (int_ref (Args.pin_main args))
    = Returns (Some p) ->
  resolve_or (str_ref (Args.high_relay args)) (int_ref (Args.pin_high args))
    = Returns hp ->
  hardware_ok (Args.dry_run args) w ->
  main fuel args w
  = (_guard_after_boot (Args.boot_guard_seconds args) (Args.dry_run args) ;;
     pattern fuel args (handle p (Args.active_low args) (Args.dry_run args)))
      (did (handle p (Args.active_low args) (Args.dry_run args)) OPEN
           (built (Args.dry_run args) w)).
Proof.
  intros Hg Hm Hh Hhw.
  set (r := handle p (Args.active_low args) (Args.dry_run args)).
  assert (Hok : relay_ok r (built (Args.dry_run args) w)).
  { apply relay_ok_built, hardware_ok_relay. exact Hhw. }
  unfold main, pattern.
  destruct (Args.cmd args); try discriminate;
    rewrite Hm, Hh;
    cbn [lift_exits needs_main needs_high select_relay guarded];
    rewrite !bind_ret, bind_bind, bind_init by exact Hhw;
    fold r; rewrite !bind_ret; cbn [open_if_present asserted];
    unfold Relay_open at 1; rewrite bind_relay by exact Hok;
    rewrite bind_ret; reflexivity.
Qed.

Lemma main_on_high_relay (fuel : nat) (args : Args.t) (w : world)
    (mp : option Z) (p : Z) :
  needs_high (Args.cmd args) = true ->
  resolve_or (str_ref (Args.main_relay args)) (int_ref (Args.pin_main args))
    = Returns mp ->
  resolve_or (str_ref (Args.high_relay args)) (int_ref (Args.pin_high args))
    = Returns (Some p) ->
  hardware_ok (Args.dry_run args) w ->
  main fuel args w
  = pattern fuel args (handle p (Args.active_low args) (Args.dry_run args))
      (did (handle p (Args.active_low args) (Args.dry_run args)) OPEN
           (built (Args.dry_run args) w)).
Proof.
  intros Hg Hm Hh Hhw.
  set (r := handle p (Args.active_low args) (Args.dry_run args)).
  assert (Hok : relay_ok r (built (Args.dry_run args) w)).
  { apply relay_ok_built, hardware_ok_relay. exact Hhw. }
  unfold main, pattern.
  destruct (Args.cmd args); try discriminate;
    rewrite Hm, Hh;
    cbn [lift_exits needs_main needs_high select_relay guarded];
    rewrite !bind_ret, bind_bind, bind_init by exact Hhw;
    fold r; rewrite !bind_ret; cbn [open_if_present asserted];
    rewrite !bind_ret;
    unfold Relay_open at 1; rewrite bind_relay by exact Hok;
    rewrite !bind_ret; reflexivity.
Qed.

(** The boot guard when the system is not long enough up: it announces
    the wait and sleeps, unless the interrupt comes first. *)
Lemma guard_run {B : Type} (min : Q) (dry : bool) (k : unit -> M B)
    (w : world) (up : Q) :
  0 < min -> proc_uptime w = Some up -> up < min ->
  bind (_guard_after_boot min dry) k w
  = if due w (monotonic w + (min - up))
    then (Raise KeyboardInterrupt,
          interrupted (add_line (GuardWaiting (min - up)) w))
    else k tt (advance (min - up) (add_line (GuardWaiting (min - up)) w)).
Proof.
  intros Hmin Hup Hlt. unfold _guard_after_boot.
  apply Qle_bool_false in Hmin. rewrite Hmin.
  rewrite bind_bind. unfold bind at 1. unfold _read_uptime_seconds. rewrite Hup.
  assert (E : Qltb 0 (min - up) = true) by (apply Qltb_true; lra).
  rewrite E, bind_bind, bind_print, bind_sleep, E. cbn [andb].
  rewrite due_add_line, monotonic_add_line. reflexivity.
Qed.

(** The boot guard when the system is long enough up. *)
Lemma guard_elapsed {B : Type} (min : Q) (dry : bool) (k : unit -> M B)
    (w : world) (up : Q) :
  proc_uptime w = Some up -> min <= up ->
  bind (_guard_after_boot min dry) k w = k tt w.
Proof.
  intros Hup Hle. unfold _guard_after_boot.
  destruct (Qle_bool min 0); [reflexivity|].
  rewrite bind_bind. unfold bind at 1. unfold _read_uptime_seconds. rewrite Hup.
  assert (E : Qltb 0 (min - up) = false) by (apply Qltb_false; lra).
  rewrite E. reflexivity.
Qed.

Lemma guard_interrupted {B : Type} (min : Q) (dry : bool) (k : unit -> M B)
    (w : world) (up t : Q) :
  0 < min -> proc_uptime w = Some up -> up < min ->
  sigint w = Some t -> t < monotonic w + (min - up) ->
  bind (_guard_after_boot min dry) k w
  = (Raise KeyboardInterrupt,
     interrupted (add_line (GuardWaiting (min - up)) w)).
Proof.
  intros Hmin Hup Hlt Hsig Ht. unfold _guard_after_boot.
  apply Qle_bool_false in Hmin. rewrite Hmin.
  rewrite bind_bind. unfold bind at 1. unfold _read_uptime_seconds. rewrite Hup.
  assert (E : Qltb 0 (min - up) = true) by (apply Qltb_true; lra).
  rewrite E, bind_bind, bind_print, bind_sleep, E. cbn [andb].
  unfold due. rewrite sigint_add_line, Hsig, monotonic_add_line.
  apply Qltb_true in Ht. rewrite Ht. reflexivity.
Qed.

(** Ctrl+C while [ignite], [on] or [off] is still waiting in the boot
    guard ends the command with status 130 at that instant: the relay
    has had its fail-safe open and nothing else, so it was never closed. *)
Theorem interrupt_during_boot_guard :
  forall (fuel : nat) (args : Args.t) (w : world)
         (p : Z) (hp : option Z) (up t : Q),
    guarded (Args.cmd args) = true ->
    resolve_or (str_ref (Args.main_relay args)) (int_ref (Args.pin_main args))
      = Returns (Some p) ->
    resolve_or (str_ref (Args.high_relay args)) (int_ref (Args.pin_high args))
      = Returns hp ->
    hardware_ok (Args.dry_run args) w ->
    proc_uptime w = Some up ->
    0 < Args.boot_guard_seconds args ->
    up < Args.boot_guard_seconds args ->
    sigint w = Some t ->
    t < monotonic w + (Args.boot_guard_seconds args - up) ->
    fst (__main__ fuel args w) = Exited 130 /\
    trace (snd (__main__ fuel args w)) = trace w ++ [Op (monotonic w) p OPEN] /\
    monotonic (snd (__main__ fuel args w)) == Qmax (monotonic w) t.
Proof.
  intros fuel args w p hp up t Hg Hm Hh Hhw Hup Hpos Hlt Hsig Ht.
  set (g := Args.boot_guard_seconds args) in *.
  set (r := handle p (Args.active_low args) (Args.dry_run args)).
  set (w0 := built (Args.dry_run args) w).
  assert (Hmain : main fuel args w
                  = (Raise KeyboardInterrupt,
                     interrupted (add_line (GuardWaiting (g - up)) (did r OPEN w0)))).
  { rewrite (main_on_main_relay fuel args w p hp Hg Hm Hh Hhw).
    fold r w0 g.
    apply (guard_interrupted g _ _ _ up t Hpos);
      unfold w0;
      rewrite ?proc_uptime_did, ?sigint_did, ?monotonic_did,
        ?proc_uptime_built, ?sigint_built, ?monotonic_built; assumption. }
  unfold __main__. rewrite Hmain. cbn [fst snd].
  split; [reflexivity|]. split.
  - change (trace (add_line Interrupted ?x)) with (trace x).
    rewrite trace_interrupted, trace_add_line, trace_did.
    unfold w0. rewrite trace_built, monotonic_built. reflexivity.
  - change (monotonic (add_line Interrupted ?x)) with (monotonic x).
    rewrite (monotonic_interrupted _ t)
      by (rewrite sigint_add_line, sigint_did; unfold w0;
          rewrite sigint_built; exact Hsig).
    rewrite monotonic_add_line, monotonic_did. unfold w0.
    rewrite monotonic_built. reflexivity.
Qed.

Lemma interrupt_during_boot_guard_witness :
  fst (__main__ 0 ignite_sim early_ctrl_c) = Exited 130 /\
  trace (snd (__main__ 0 ignite_sim early_ctrl_c))
  = trace early_ctrl_c ++ [Op (monotonic early_ctrl_c) 4 OPEN] /\
  monotonic (snd (__main__ 0 ignite_sim early_ctrl_c))
  == Qmax (monotonic early_ctrl_c) 3.0.
Proof.
  apply (interrupt_during_boot_guard 0 ignite_sim early_ctrl_c 4%Z None 5.0 3.0);
    try reflexivity.
  left. reflexivity.
Defined.

(** ** The commands the boot guard holds back *)

(** Each guarded pattern begins by opening its relay, and stamps the rest
    of its operations no earlier. *)
Lemma pattern_first_op (fuel : nat) (args : Args.t) (r : Relay) (w : world)
    (o : outcome Z) (w' : world) :
  guarded (Args.cmd args) = true ->
  relay_ok r w ->
  pattern fuel args r w = (o, w') ->
  exists l,
    trace w' = trace w ++ Op (monotonic w) (pin (_cfg r)) OPEN :: l /\
    Forall (fun x => monotonic w <= op_at x) l.
Proof.
  intros Hg Hok E.
  assert (Hrest : forall k : M Z,
             stamped k -> k (did r OPEN w) = (o, w') ->
             exists l,
               trace w' = trace w ++ Op (monotonic w) (pin (_cfg r)) OPEN :: l /\
               Forall (fun x => monotonic w <= op_at x) l).
  { intros k Hk Ek. destruct (Hk _ _ _ Ek) as (_ & _ & l & Hl & Hall).
    exists l. rewrite Hl, trace_did, <- app_assoc. split; [reflexivity|].
    rewrite monotonic_did in Hall. exact Hall. }
  unfold pattern in E. destruct (Args.cmd args); try discriminate.
  - destruct (Args.maintained args).
    + unfold cmd_maintained, Relay_open at 1 in E.
      rewrite bind_bind, bind_relay in E by exact Hok.
      refine (Hrest _ _ E). unfold Relay_open, Relay_close. stamp_steps.
    + unfold cmd_pulse, Relay_open at 1 in E.
      rewrite bind_bind, bind_relay in E by exact Hok.
      refine (Hrest _ _ E). unfold Relay_open, Relay_close. stamp_steps.
  - unfold cmd_hold, Relay_open at 1 in E.
    rewrite bind_bind, bind_relay in E by exact Hok.
    refine (Hrest _ _ E). unfold Relay_open, Relay_close. stamp_steps.
  - unfold Relay_open in E. rewrite bind_relay in E by exact Hok.
    refine (Hrest _ _ E). stamp_steps.
Qed.

Lemma guarded_run (fuel : nat) (args : Args.t) (w : world)
    (p : Z) (hp : option Z) (up : Q) :
  guarded (Args.cmd args) = true ->
  resolve_or (str_ref (Args.main_relay args)) (int_ref (Args.pin_main args))
    = Returns (Some p) ->
  resolve_or (str_ref (Args.high_relay args)) (int_ref (Args.pin_high args))
    = Returns hp ->
  hardware_ok (Args.dry_run args) w ->
  proc_uptime w = Some up ->
  0 < Args.boot_guard_seconds args ->
  up < Args.boot_guard_seconds args ->
  exists l,
    trace (snd (main fuel args w)) = trace w ++ Op (monotonic w) p OPEN :: l /\
    Forall (fun x => monotonic w + (Args.boot_guard_seconds args - up) <= op_at x) l /\
    (due w (monotonic w + (Args.boot_guard_seconds args - up)) = true ->
       l = [] /\ fst (main fuel args w) = Raise KeyboardInterrupt) /\
    (due w (monotonic w + (Args.boot_guard_seconds args - up)) = false ->
       exists t1 rest,
         l = Op t1 p OPEN :: rest /\
         t1 == monotonic w + (Args.boot_guard_seconds args - up)).
Proof.
  intros Hg Hm Hh Hhw Hup Hpos Hlt.
  set (g := Args.boot_guard_seconds args) in *.
  set (r := handle p (Args.active_low args) (Args.dry_run args)).
  set (w1 := did r OPEN (built (Args.dry_run args) w)).
  assert (Hm1 : monotonic w1 = monotonic w).
  { unfold w1. rewrite monotonic_did. apply monotonic_built. }
  assert (Ht1 : trace w1 = trace w ++ [Op (monotonic w) p OPEN]).
  { unfold w1. rewrite trace_did, trace_built, monotonic_built. reflexivity. }
  assert (Hd1 : forall x, due w1 x = due w x).
  { intro x. unfold w1. rewrite due_did. apply due_built. }
  assert (Hok1 : relay_ok r w1).
  { unfold w1. apply relay_ok_did, relay_ok_built, hardware_ok_relay. exact Hhw. }
  rewrite (main_on_main_relay fuel args w p hp Hg Hm Hh Hhw). fold r w1 g.
  rewrite (guard_run g _ _ w1 up Hpos);
    [|unfold w1; rewrite proc_uptime_did, proc_uptime_built; exact Hup|exact Hlt].
  rewrite Hd1, Hm1.
  destruct (due w (monotonic w + (g - up))) eqn:Hdue.
  - exists []. cbn [fst snd].
    rewrite trace_interrupted, trace_add_line, Ht1.
    split; [reflexivity|]. split; [constructor|].
    split; [intros _; split; reflexivity|discriminate].
  - set (w2 := advance (g - up) (add_line (GuardWaiting (g - up)) w1)).
    assert (Hm2 : monotonic w2 == monotonic w + (g - up)).
    { unfold w2. rewrite monotonic_advance, monotonic_add_line, Hm1.
      rewrite Q.max_r by lra. reflexivity. }
    assert (Hok2 : relay_ok r w2) by (unfold w2; auto with relay).
    destruct (pattern fuel args r w2) as [o w'] eqn:E.
    destruct (pattern_first_op fuel args r w2 o w' Hg Hok2 E) as (l & Hl & Hall).
    exists (Op (monotonic w2) p OPEN :: l). cbn [fst snd].
    split; [|split; [|split]].
    + rewrite Hl. unfold w2 at 1. rewrite trace_advance, trace_add_line, Ht1.
      rewrite <- app_assoc. reflexivity.
    + constructor; [cbn [op_at]; rewrite Hm2; lra|].
      assert (Hge : monotonic w + (g - up) <= monotonic w2) by (rewrite Hm2; lra).
      apply (Forall_impl _ (fun x (Hx : monotonic w2 <= op_at x) =>
                              Qle_trans _ _ _ Hge Hx) Hall).
    + discriminate.
    + intros _. exists (monotonic w2), l. split; [reflexivity|exact Hm2].
Qed.

Lemma off_guarded_run (fuel : nat) (args : Args.t) (w : world)
    (p : Z) (hp : option Z) (up : Q) :
  Args.cmd args = Off ->
  resolve_or (str_ref (Args.main_relay args)) (int_ref (Args.pin_main args))
    = Returns (Some p) ->
  resolve_or (str_ref (Args.high_relay args)) (int_ref (Args.pin_high args))
    = Returns hp ->
  hardware_ok (Args.dry_run args) w ->
  sigint w = None ->
  proc_uptime w = Some up ->
  0 < Args.boot_guard_seconds args ->
  up < Args.boot_guard_seconds args ->
  exists w',
    main fuel args w = (Ret 0%Z, w') /\
    trace_eq (trace w')
      (trace w ++
         [ Op (monotonic w) p OPEN;
           Op (monotonic w + (Args.boot_guard_seconds args - up)) p OPEN ]) /\
    In (GuardWaiting (Args.boot_guard_seconds args - up)) (stdout w').
Proof.
  intros Hcmd Hm Hh Hhw Hq Hup Hpos Hlt.
  set (g := Args.boot_guard_seconds args) in *.
  set (r := handle p (Args.active_low args) (Args.dry_run args)).
  set (w1 := did r OPEN (built (Args.dry_run args) w)).
  assert (Hok1 : relay_ok r w1).
  { unfold w1. apply relay_ok_did, relay_ok_built, hardware_ok_relay. exact Hhw. }
  rewrite (main_on_main_relay fuel args w p hp
             ltac:(rewrite Hcmd; reflexivity) Hm Hh Hhw).
  fold r w1 g.
  rewrite (guard_blocks g _ _ w1 up Hpos);
    [|unfold w1; rewrite proc_uptime_did, proc_uptime_built; exact Hup
     |exact Hlt
     |unfold w1; rewrite sigint_did, sigint_built; exact Hq].
  unfold pattern. rewrite Hcmd. unfold Relay_open.
  rewrite bind_relay by auto with relay.
  eexists. split; [reflexivity|]. split.
  - rewrite trace_did, trace_advance, trace_add_line. unfold w1 at 1.
    rewrite trace_did, trace_built, monotonic_built.
    rewrite <- app_assoc. cbn [app].
    apply trace_eq_app; [apply trace_eq_refl|].
    repeat constructor; cbn [op_at].
    rewrite monotonic_advance, monotonic_add_line. unfold w1.
    rewrite monotonic_did, monotonic_built.
    rewrite Q.max_r by lra. reflexivity.
  - destruct (stdout_did r OPEN
                (advance (g - up) (add_line (GuardWaiting (g - up)) w1)))
      as (l & ->).
    rewrite stdout_advance. cbn [stdout add_line].
    apply in_or_app. left. apply in_or_app. right. left. reflexivity.
Qed.

(** C3, as the code has it.  The boot guard is applied to exactly the
    commands that address the main channel: [ignite], [on] and [off].
    For each of the three, when the system is not yet long enough up,
    nothing but the fail-safe open happens before the guard has run out:
    the pattern starts at that instant, or not at all when the interrupt
    comes first.  [off] only ever opens the relay, yet it is held back
    like the other two.  The remaining commands never consult the guard:
    its setting changes nothing in what they do. *)
Theorem C3_boot_guard_scope :
  forall (fuel : nat) (args : Args.t) (w : world),
    (guarded (Args.cmd args) = true <->
       Args.cmd args = Ignite \/ Args.cmd args = On \/ Args.cmd args = Off) /\
    (guarded (Args.cmd args) = true ->
       forall (p : Z) (hp : option Z) (up : Q),
         resolve_or (str_ref (Args.main_relay args))
                    (int_ref (Args.pin_main args)) = Returns (Some p) ->
         resolve_or (str_ref (Args.high_relay args))
                    (int_ref (Args.pin_high args)) = Returns hp ->
         hardware_ok (Args.dry_run args) w ->
         (forall t, sigint w = Some t -> monotonic w < t) ->
         proc_uptime w = Some up ->
         0 < Args.boot_guard_seconds args ->
         up < Args.boot_guard_seconds args ->
         exists l,
           trace (snd (main fuel args w))
           = trace w ++ Op (monotonic w) p OPEN :: l /\
           Forall (fun x => monotonic w + (Args.boot_guard_seconds args - up)
                            <= op_at x) l /\
           (due w (monotonic w + (Args.boot_guard_seconds args - up)) = true ->
              l = [] /\ fst (main fuel args w) = Raise KeyboardInterrupt) /\
           (due w (monotonic w + (Args.boot_guard_seconds args - up)) = false ->
              exists t1 rest,
                l = Op t1 p OPEN :: rest /\
                t1 == monotonic w + (Args.boot_guard_seconds args - up))) /\
    (guarded (Args.cmd args) = false ->
       forall g, main fuel (Args.with_boot_guard g args) w = main fuel args w) /\
    (Args.cmd args = Off ->
       (exists l, trace (snd (main fuel args w)) = trace w ++ l /\
                  Forall (fun x => op_action x = OPEN) l) /\
       (forall (p : Z) (hp : option Z) (up : Q),
           resolve_or (str_ref (Args.main_relay args))
                      (int_ref (Args.pin_main args)) = Returns (Some p) ->
           resolve_or (str_ref (Args.high_relay args))
                      (int_ref (Args.pin_high args)) = Returns hp ->
           hardware_ok (Args.dry_run args) w ->
           sigint w = None ->
           proc_uptime w = Some up ->
           0 < Args.boot_guard_seconds args ->
           up < Args.boot_guard_seconds args ->
           exists w',
             main fuel args w = (Ret 0%Z, w') /\
             trace_eq (trace w')
               (trace w ++
                  [ Op (monotonic w) p OPEN;
                    Op (monotonic w + (Args.boot_guard_seconds args - up)) p OPEN ]) /\
             In (GuardWaiting (Args.boot_guard_seconds args - up)) (stdout w'))).
Proof.
  intros fuel args w. split; [|split; [|split]].
  - destruct (Args.cmd args); cbn [guarded]; split; intro H;
      try discriminate; try tauto;
      destruct H as [H|[H|H]]; discriminate.
  - intros Hg p hp up Hm Hh Hhw _.
    exact (guarded_run fuel args w p hp up Hg Hm Hh Hhw).
  - intros H g. apply main_ignores_guard_when_unguarded. exact H.
  - intro Hcmd. split.
    + apply (off_only_opens fuel args Hcmd w (fst (main fuel args w))).
      apply surjective_pairing.
    + intros p hp up. apply off_guarded_run. exact Hcmd.
Qed.

Lemma C3_boot_guard_scope_witness :
  (exists l,
      trace (snd (main 0 ignite_sim just_booted))
      = trace just_booted ++ Op (monotonic just_booted) 4 OPEN :: l /\
      Forall (fun x => monotonic just_booted
                       + (Args.boot_guard_seconds ignite_sim - 5.0) <= op_at x) l /\
      (due just_booted
           (monotonic just_booted + (Args.boot_guard_seconds ignite_sim - 5.0)) = true ->
         l = [] /\ fst (main 0 ignite_sim just_booted) = Raise KeyboardInterrupt) /\
      (due just_booted
           (monotonic just_booted + (Args.boot_guard_seconds ignite_sim - 5.0)) = false ->
         exists t1 rest,
           l = Op t1 4 OPEN :: rest /\
           t1 == monotonic just_booted + (Args.boot_guard_seconds ignite_sim - 5.0))) /\
  (exists w',
      main 0 off_sim just_booted = (Ret 0%Z, w') /\
      trace_eq (trace w')
        (trace just_booted ++
           [ Op (monotonic just_booted) 4 OPEN;
             Op (monotonic just_booted + (Args.boot_guard_seconds off_sim - 5.0))
                4 OPEN ]) /\
      In (GuardWaiting (Args.boot_guard_seconds off_sim - 5.0)) (stdout w')).
Proof.
  split.
  - apply (proj1 (proj2 (C3_boot_guard_scope 0 ignite_sim just_booted)) eq_refl
             4%Z None 5.0); try reflexivity.
    + left. reflexivity.
    + intros t H. discriminate H.
  - apply (proj2 (proj2 (proj2 (proj2 (C3_boot_guard_scope 0 off_sim just_booted)))
                    eq_refl)
             4%Z None 5.0); try reflexivity.
    left. reflexivity.
Defined.

(** C3 as stated fails: [off] is guarded although it can only open. *)
Lemma C3_off_is_guarded :
  ~ (forall c : command,
        guarded c = true ->
        exists fuel args w o,
          Args.cmd args = c /\
          In o (trace (snd (main fuel args w))) /\
          ~ In o (trace w) /\
          op_action o = CLOSE).
Proof.
  intro H. destruct (H Off eq_refl) as (fuel & args & w & o & Hc & Hin & Hnew & Ha).
  destruct (off_only_opens fuel args Hc w _ _ (surjective_pairing _))
    as (l & Hl & Hall).
  rewrite Hl in Hin. apply in_app_or in Hin. destruct Hin as [Hin|Hin].
  - exact (Hnew Hin).
  - rewrite Forall_forall in Hall. specialize (Hall o Hin). congruence.
Qed.

(** ** Where the interrupt strikes *)

Lemma stable_relay_ok (r : Relay) : stable (relay_ok r).
Proof.
  intros w w' (_ & _ & Hw) [Hd|H]; [left; exact Hd|right].
  rewrite Hw. exact H.
Qed.

Lemma stable_hardware_ok (dry : bool) : stable (hardware_ok dry).
Proof. intros w w' Hs. apply hardware_ok_same. exact Hs. Qed.

Section Timed.

Variable ok : world -> Prop.
Hypothesis ok_stable : stable ok.

Lemma timed_compat (d d' : Q) (m : M unit) :
  d == d' -> timed ok d m -> timed ok d' m.
Proof.
  intros E H w t Hok Hsig Hle. destruct (H w t Hok Hsig Hle) as (Hb & Hc).
  split.
  - intro Hlt. apply Hb. lra.
  - intro Hge. destruct Hc as (w' & Hr & Hm & Hs & Ho); [lra|].
    exists w'. split; [exact Hr|]. split; [rewrite Hm; lra|].
    split; assumption.
Qed.

Lemma timed_ret : timed ok 0 (ret tt).
Proof.
  intros w t Hok Hsig Hle. split; [intro; exfalso; lra|].
  intros _. exists w. split; [reflexivity|]. split; [lra|]. split; assumption.
Qed.

Lemma timed_print (l : line) : timed ok 0 (print l).
Proof.
  intros w t Hok Hsig Hle. split; [intro; exfalso; lra|].
  intros _. exists (add_line l w). split; [reflexivity|].
  split; [rewrite monotonic_add_line; lra|]. split; [exact Hsig|].
  apply (ok_stable w); [apply same_hardware_add_line|exact Hok].
Qed.

Lemma timed_relay_call (r : Relay) (a : action) :
  (forall w, ok w -> relay_ok r w) -> timed ok 0 (relay_call r a).
Proof.
  intros Hr w t Hok Hsig Hle. split; [intro; exfalso; lra|].
  intros _. exists (did r a w). split; [apply relay_call_ok, Hr, Hok|].
  split; [rewrite monotonic_did; lra|].
  split; [rewrite sigint_did; exact Hsig|].
  apply (ok_stable w); [apply same_hardware_did|exact Hok].
Qed.

Lemma timed_sleep (d : Q) : timed ok (Qmax 0 d) (_sleep_with_sigint d).
Proof.
  intros w t Hok Hsig Hle. rewrite _sleep_with_sigint_spec. split.
  - intro Hlt.
    assert (Hd : 0 < d).
    { destruct (Qlt_le_dec 0 d) as [H|H]; [exact H|].
      rewrite Q.max_l in Hlt by exact H. lra. }
    rewrite (Qmax_0_pos d Hd) in Hlt.
    apply Qltb_true in Hd. rewrite Hd. unfold due. rewrite Hsig.
    apply Qltb_true in Hlt. rewrite Hlt. reflexivity.
  - intro Hge.
    assert (E : Qltb 0 d && due w (monotonic w + d) = false).
    { destruct (Qltb 0 d) eqn:Hd; [|reflexivity]. cbn [andb].
      apply Qltb_true in Hd. unfold due. rewrite Hsig. apply Qltb_false.
      rewrite (Qmax_0_pos d Hd) in Hge. exact Hge. }
    rewrite E. exists (advance d w). split; [reflexivity|].
    split; [apply monotonic_advance|].
    split; [rewrite sigint_advance; exact Hsig|].
    apply (ok_stable w); [apply same_hardware_advance|exact Hok].
Qed.

Lemma timed_seq (d1 d2 : Q) (m k : M unit) :
  0 <= d2 -> timed ok d1 m -> timed ok d2 k -> timed ok (d1 + d2) (m ;; k).
Proof.
  intros Hd2 Hm Hk w t Hok Hsig Hle.
  destruct (Hm w t Hok Hsig Hle) as (Hb & Hc).
  destruct (Qlt_le_dec t (monotonic w + d1)) as [Hearly|Hlate].
  - split; [|intro; exfalso; lra].
    intros _. specialize (Hb Hearly). revert Hb. unfold bind.
    destruct (m w) as [[[]|e|] w1]; cbn [fst]; intro Hb; try discriminate.
    exact Hb.
  - destruct (Hc Hlate) as (w1 & Hr & Hm1 & Hs1 & Hok1).
    assert (Hle1 : monotonic w1 <= t) by (rewrite Hm1; exact Hlate).
    destruct (Hk w1 t Hok1 Hs1 Hle1) as (Hb2 & Hc2).
    unfold bind. rewrite Hr. split.
    + intro Hlt. apply Hb2. rewrite Hm1. lra.
    + intro Hge. destruct Hc2 as (w2 & Hr2 & Hm2 & Hs2 & Hok2);
        [rewrite Hm1; lra|].
      exists w2. split; [exact Hr2|]. split; [rewrite Hm2, Hm1; lra|].
      split; assumption.
Qed.

Lemma timed_optional_wait (l : line) (d : Q) :
  timed ok (Qmax 0 d)
    (if Qltb 0 d then print l ;; _sleep_with_sigint d else ret tt).
Proof.
  destruct (Qltb 0 d) eqn:Hd.
  - apply (timed_compat (0 + Qmax 0 d)); [ring|].
    apply timed_seq; [apply Q.le_max_l|apply timed_print|apply timed_sleep].
  - apply Qltb_false in Hd.
    apply (timed_compat 0); [rewrite Q.max_l by exact Hd; reflexivity|].
    apply timed_ret.
Qed.

Lemma timed_breaks (d : Q) (m : M unit) : timed ok d m -> breaks ok d m.
Proof.
  intros H w t Hok Hsig Hle. exact (proj1 (H w t Hok Hsig Hle)).
Qed.

Lemma breaks_none {A : Type} (m : M A) : breaks ok 0 m.
Proof. intros w t Hok Hsig Hle Hlt. exfalso. lra. Qed.

Lemma breaks_compat {A : Type} (d d' : Q) (m : M A) :
  d == d' -> breaks ok d m -> breaks ok d' m.
Proof.
  intros E H w t Hok Hsig Hle Hlt. apply (H w t Hok Hsig Hle). lra.
Qed.

Lemma breaks_seq {A : Type} (d1 d2 : Q) (m : M unit) (k : M A) :
  timed ok d1 m -> breaks ok d2 k -> breaks ok (d1 + d2) (m ;; k).
Proof.
  intros Hm Hk w t Hok Hsig Hle Hlt.
  destruct (Hm w t Hok Hsig Hle) as (Hb & Hc).
  destruct (Qlt_le_dec t (monotonic w + d1)) as [Hearly|Hlate].
  - specialize (Hb Hearly). revert Hb. unfold bind.
    destruct (m w) as [[[]|e|] w1]; cbn [fst]; intro Hb; try discriminate.
    inversion Hb. reflexivity.
  - destruct (Hc Hlate) as (w1 & Hr & Hm1 & Hs1 & Hok1).
    unfold bind. rewrite Hr.
    apply (Hk w1 t Hok1 Hs1); rewrite Hm1; [exact Hlate|lra].
Qed.

End Timed.

(** The timed maintained call gives way to the interrupt at any moment
    of its 1.5 s and of its hold. *)
Lemma timed_maintained (fuel : nat) (relay : Relay) (h : Q) :
  timed (relay_ok relay) (1.0 + 0.250 + 0.250 + Qmax 0 h)
    (cmd_maintained fuel relay (Some h)).
Proof.
  pose proof (stable_relay_ok relay) as Hst.
  pose proof (Q.le_max_l 0 h) as Hh.
  assert (E1 : Qmax 0 1.0 == 1.0) by reflexivity.
  assert (E2 : Qmax 0 0.250 == 0.250) by reflexivity.
  apply (timed_compat _
           (0 + (Qmax 0 1.0 + (0 + (Qmax 0 0.250 + (0 + (Qmax 0 0.250
              + (0 + (Qmax 0 h + 0)))))))));
    [rewrite E1, E2; ring|].
  unfold cmd_maintained, Relay_open, Relay_close.
  repeat (apply timed_seq;
          [ rewrite ?E1, ?E2; lra
          | first [ apply timed_relay_call; [exact Hst|exact (fun w H => H)]
                  | apply timed_sleep; exact Hst ]
          | ]).
  apply timed_relay_call; [exact Hst|exact (fun w H => H)].
Qed.

(** The maintained call without a duration gives way to it as long as
    the hold has not begun. *)
Lemma breaks_maintained (fuel : nat) (relay : Relay) :
  breaks (relay_ok relay) (1.0 + 0.250 + 0.250)
    (cmd_maintained fuel relay None).
Proof.
  pose proof (stable_relay_ok relay) as Hst.
  assert (E1 : Qmax 0 1.0 == 1.0) by reflexivity.
  assert (E2 : Qmax 0 0.250 == 0.250) by reflexivity.
  apply (breaks_compat _
           (0 + (Qmax 0 1.0 + (0 + (Qmax 0 0.250 + (0 + (Qmax 0 0.250 + 0)))))));
    [rewrite E1, E2; ring|].
  unfold cmd_maintained, Relay_open, Relay_close.
  do 6 (apply breaks_seq;
        [ first [ apply timed_relay_call; [exact Hst|exact (fun w H => H)]
                | apply timed_sleep; exact Hst ]
        | ]).
  apply breaks_none.
Qed.

(** The indefinite hold of the maintained call absorbs the interrupt. *)
Lemma maintained_forever_run (fuel : nat) (relay : Relay) (w : world) (t : Q) :
  relay_ok relay w ->
  sigint w = Some t ->
  monotonic w + 1.0 + 0.250 + 0.250 <= t ->
  t < monotonic w + 1.0 + 0.250 + 0.250 + inject_Z (Z.of_nat fuel) ->
  exists w',
    cmd_maintained fuel relay None w = (Ret tt, w') /\
    trace_eq (trace w')
      (trace w ++
         [ Op (monotonic w) (pin (_cfg relay)) OPEN;
           Op (monotonic w + 1.0) (pin (_cfg relay)) CLOSE;
           Op (monotonic w + 1.0 + 0.250) (pin (_cfg relay)) OPEN;
           Op (monotonic w + 1.0 + 0.250 + 0.250) (pin (_cfg relay)) CLOSE;
           Op t (pin (_cfg relay)) OPEN ]).
Proof.
  intros Hok Hsig Hle Hlt.
  pose proof (maintained_prefix_clock relay w) as Hclock.
  pose proof (maintained_prefix_trace relay w) as Htrace.
  assert (Hok4 : relay_ok relay (maintained_prefix relay w)).
  { unfold maintained_prefix. auto 10 with relay. }
  assert (Hsig4 : sigint (maintained_prefix relay w) = sigint w).
  { unfold maintained_prefix.
    repeat (rewrite ?sigint_did, ?sigint_advance). reflexivity. }
  unfold cmd_maintained.
  rewrite maintained_prefix_run; [|exact Hok|].
  2:{ unfold due. rewrite Hsig. apply Qltb_false. exact Hle. }
  set (w4 := maintained_prefix relay w) in *.
  rewrite bind_bind, bind_print.
  rewrite (bind_hold_forever fuel _ _ t).
  2:{ rewrite sigint_add_line, Hsig4. exact Hsig. }
  2:{ rewrite monotonic_add_line, Hclock. exact Hlt. }
  2:{ rewrite monotonic_add_line, Hclock. exact Hle. }
  unfold Relay_open. rewrite relay_call_ok by auto with relay.
  eexists. split; [reflexivity|].
  rewrite trace_did, trace_interrupted, trace_add_line.
  change (trace w ++
            [ Op (monotonic w) (pin (_cfg relay)) OPEN;
              Op (monotonic w + 1.0) (pin (_cfg relay)) CLOSE;
              Op (monotonic w + 1.0 + 0.250) (pin (_cfg relay)) OPEN;
              Op (monotonic w + 1.0 + 0.250 + 0.250) (pin (_cfg relay)) CLOSE;
              Op t (pin (_cfg relay)) OPEN ])
    with (trace w ++
            ([ Op (monotonic w) (pin (_cfg relay)) OPEN;
               Op (monotonic w + 1.0) (pin (_cfg relay)) CLOSE;
               Op (monotonic w + 1.0 + 0.250) (pin (_cfg relay)) OPEN;
               Op (monotonic w + 1.0 + 0.250 + 0.250) (pin (_cfg relay)) CLOSE ]
             ++ [ Op t (pin (_cfg relay)) OPEN ])).
  rewrite app_assoc. apply trace_eq_app; [exact Htrace|].
  constructor; [|constructor]. repeat split. cbn [op_at].
  rewrite (monotonic_interrupted _ t)
    by (rewrite sigint_add_line, Hsig4; exact Hsig).
  rewrite monotonic_add_line, Hclock. apply Q.max_r. exact Hle.
Qed.

(** The pulse and the timed hold, interrupted: the relay is closed, and
    nothing follows. *)
Lemma pulse_interrupted (relay : Relay) (pulse_ms : Z) (w : world) (t : Q) :
  relay_ok relay w -> sigint w = Some t -> monotonic w < t ->
  fits_float pulse_ms ->
  t < monotonic w + inject_Z pulse_ms / 1000.0 ->
  cmd_pulse relay pulse_ms w
  = (Raise KeyboardInterrupt, interrupted (did relay CLOSE (did relay OPEN w))).
Proof.
  intros Hok Hsig Hgt Hfit Hlt. unfold cmd_pulse, Relay_open, Relay_close.
  rewrite bind_relay by exact Hok.
  rewrite bind_relay by auto with relay.
  rewrite bind_true_div by exact Hfit.
  rewrite bind_sleep.
  assert (Hd : Qltb 0 (inject_Z pulse_ms / 1000.0) = true)
    by (apply Qltb_true; lra).
  rewrite Hd. cbn [andb]. unfold due.
  rewrite !sigint_did, Hsig, !monotonic_did.
  apply Qltb_true in Hlt. rewrite Hlt. reflexivity.
Qed.

Lemma hold_interrupted (fuel : nat) (relay : Relay) (h : Q) (w : world) (t : Q) :
  relay_ok relay w -> sigint w = Some t -> monotonic w < t ->
  t < monotonic w + h ->
  cmd_hold fuel relay (Some h) w
  = (Raise KeyboardInterrupt, interrupted (did relay CLOSE (did relay OPEN w))).
Proof.
  intros Hok Hsig Hgt Hlt. unfold cmd_hold, Relay_open, Relay_close.
  rewrite bind_relay by exact Hok.
  rewrite bind_relay by auto with relay.
  rewrite bind_sleep.
  assert (Hd : Qltb 0 h = true) by (apply Qltb_true; lra).
  rewrite Hd. cbn [andb]. unfold due.
  rewrite !sigint_did, Hsig, !monotonic_did.
  apply Qltb_true in Hlt. rewrite Hlt. reflexivity.
Qed.

(** The probe sweep gives way to the interrupt at any moment. *)
Lemma probe_one_body (al : bool) (pulse_ms : Z) (os : Q) (cs : option Q)
    (ps : Q) (dry : bool) (p : Z) (w : world) :
  hardware_ok dry w -> close_for_ok pulse_ms cs ->
  probe_one al pulse_ms os cs ps dry p w
  = probe_body (handle p al dry) p os (close_for pulse_ms cs) ps (built dry w).
Proof.
  intros Hhw Hcf. unfold probe_one. rewrite bind_init by exact Hhw.
  unfold bind at 1. rewrite (close_for_run pulse_ms cs _ Hcf). reflexivity.
Qed.

Lemma timed_probe_body (dry al : bool) (p : Z) (os cf ps : Q) :
  timed (hardware_ok dry) (Qmax 0 os + Qmax 0 cf + Qmax 0 ps)
    (probe_body (handle p al dry) p os cf ps).
Proof.
  pose proof (stable_hardware_ok dry) as Hst.
  pose proof (Q.le_max_l 0 os) as Hos.
  pose proof (Q.le_max_l 0 cf) as Hcf.
  pose proof (Q.le_max_l 0 ps) as Hps.
  assert (Hr : forall w, hardware_ok dry w -> relay_ok (handle p al dry) w)
    by (intro w; apply hardware_ok_relay).
  apply (timed_compat _
           (0 + (Qmax 0 os + (0 + (0 + (Qmax 0 cf + (0 + Qmax 0 ps)))))));
    [ring|].
  unfold probe_body, Relay_open, Relay_close. cbv zeta.
  repeat (apply timed_seq;
          [ lra
          | first [ apply timed_relay_call; [exact Hst|exact Hr]
                  | apply timed_optional_wait; exact Hst
                  | apply timed_print; exact Hst
                  | apply timed_sleep; exact Hst ]
          | ]).
  apply timed_optional_wait. exact Hst.
Qed.

Lemma timed_probe_one (al : bool) (pulse_ms : Z) (os : Q) (cs : option Q)
    (ps : Q) (dry : bool) (p : Z) :
  close_for_ok pulse_ms cs ->
  timed (hardware_ok dry)
    (Qmax 0 os + Qmax 0 (close_for pulse_ms cs) + Qmax 0 ps)
    (probe_one al pulse_ms os cs ps dry p).
Proof.
  intros Hcf w t Hok Hsig Hle. rewrite (probe_one_body _ _ _ _ _ _ _ _ Hok Hcf).
  assert (Hok0 : hardware_ok dry (built dry w)).
  { apply (stable_hardware_ok dry w); [apply same_hardware_built|exact Hok]. }
  pose proof (timed_probe_body dry al p os (close_for pulse_ms cs) ps
                (built dry w) t Hok0) as H.
  rewrite sigint_built, monotonic_built in H. exact (H Hsig Hle).
Qed.

Lemma sweep_seconds_nonneg (n : nat) (os cf ps : Q) :
  0 <= sweep_seconds n os cf ps.
Proof.
  unfold sweep_seconds.
  pose proof (Q.le_max_l 0 os). pose proof (Q.le_max_l 0 cf).
  pose proof (Q.le_max_l 0 ps). pose proof (inject_nat_nonneg n).
  apply Qmult_le_0_compat; lra.
Qed.

Lemma timed_sweep (al : bool) (pulse_ms : Z) (os : Q) (cs : option Q)
    (ps : Q) (dry : bool) (pins : list Z) :
  close_for_ok pulse_ms cs ->
  timed (hardware_ok dry)
    (sweep_seconds (length pins) os (close_for pulse_ms cs) ps)
    (for_each pins (probe_one al pulse_ms os cs ps dry)).
Proof.
  intro Hcf. pose proof (stable_hardware_ok dry) as Hst.
  induction pins as [|p rest IH]; cbn [for_each length].
  - apply (timed_compat _ 0); [|apply timed_ret].
    unfold sweep_seconds. change (inject_Z (Z.of_nat 0)) with 0. ring.
  - apply (timed_compat _
             (Qmax 0 os + Qmax 0 (close_for pulse_ms cs) + Qmax 0 ps
              + sweep_seconds (length rest) os (close_for pulse_ms cs) ps));
      [rewrite sweep_seconds_succ; reflexivity|].
    apply timed_seq;
      [apply sweep_seconds_nonneg|apply timed_probe_one; exact Hcf|exact IH].
Qed.

Lemma probe_interrupted (al : bool) (pulse_ms : Z) (os : Q) (cs : option Q)
    (ps : Q) (dry : bool) (pins : list Z) (w : world) (t : Q) :
  pins <> [] -> hardware_ok dry w -> close_for_ok pulse_ms cs ->
  sigint w = Some t -> monotonic w < t ->
  t < monotonic w + sweep_seconds (length pins) os (close_for pulse_ms cs) ps ->
  fst (cmd_probe pins al pulse_ms os cs ps dry w) = Raise KeyboardInterrupt.
Proof.
  intros Hne Hhw Hcf Hsig Hgt Hlt.
  unfold cmd_probe. destruct pins as [|p rest]; [contradiction|].
  rewrite bind_print.
  apply (proj1 (timed_sweep al pulse_ms os cs ps dry (p :: rest) Hcf
                  (add_line Probing w) t Hhw Hsig (Qlt_le_weak _ _ Hgt))).
  exact Hlt.
Qed.

Lemma guard_wait_interrupted (min : Q) (dry : bool) (w : world) (up t : Q) :
  0 < min -> proc_uptime w = Some up -> up < min ->
  sigint w = Some t -> t < monotonic w + (min - up) ->
  _guard_after_boot min dry w
  = (Raise KeyboardInterrupt,
     interrupted (add_line (GuardWaiting (min - up)) w)).
Proof.
  intros Hmin Hup Hlt Hsig Ht.
  pose proof (guard_run min dry (fun _ => ret tt) w up Hmin Hup Hlt) as H.
  assert (Hdue : due w (monotonic w + (min - up)) = true).
  { unfold due. rewrite Hsig. apply Qltb_true. exact Ht. }
  rewrite Hdue in H. unfold bind in H.
  destruct (_guard_after_boot min dry w) as [[[]|e|] w1]; inversion H; reflexivity.
Qed.

Lemma trace_eq_rev (a b : list op) : trace_eq a b -> trace_eq (rev a) (rev b).
Proof.
  intro H. induction H as [|x y l l' Hxy Hl IH]; [constructor|].
  cbn [rev]. apply trace_eq_app; [exact IH|]. constructor; [exact Hxy|constructor].
Qed.

(** The last call on a channel does not depend on the time stamps. *)
Lemma last_action_trace_eq (p : Z) (a b : list op) :
  trace_eq a b -> last_action p a = last_action p b.
Proof.
  intro H. apply trace_eq_rev in H. unfold last_action.
  induction H as [|x y l l' (_ & Hp & Ha) Hl IH]; [reflexivity|].
  cbn [filter]. rewrite Hp. destruct (Z.eqb (op_pin y) p); [|exact IH].
  rewrite Ha. reflexivity.
Qed.

(** The process, with the boot guard behind it: how [ignite] and [on]
    end when the interrupt strikes their wait. *)
Lemma main_after_guard (fuel : nat) (args : Args.t) (w : world)
    (p : Z) (hp : option Z) (up : Q) :
  guarded (Args.cmd args) = true ->
  resolve_or (str_ref (Args.main_relay args)) (int_ref (Args.pin_main args))
    = Returns (Some p) ->
  resolve_or (str_ref (Args.high_relay args)) (int_ref (Args.pin_high args))
    = Returns hp ->
  hardware_ok (Args.dry_run args) w ->
  proc_uptime w = Some up ->
  Args.boot_guard_seconds args <= up ->
  main fuel args w
  = pattern fuel args (handle p (Args.active_low args) (Args.dry_run args))
      (did (handle p (Args.active_low args) (Args.dry_run args)) OPEN
           (built (Args.dry_run args) w)).
Proof.
  intros Hg Hm Hh Hhw Hup Hle.
  rewrite (main_on_main_relay fuel args w p hp Hg Hm Hh Hhw).
  rewrite (guard_elapsed _ _ _ _ up);
    [reflexivity
    |rewrite proc_uptime_did, proc_uptime_built; exact Hup
    |exact Hle].
Qed.

Lemma process_interrupted (fuel : nat) (args : Args.t) (w : world)
    (p : Z) (hp : option Z) (up t : Q) :
  resolve_or (str_ref (Args.main_relay args)) (int_ref (Args.pin_main args))
    = Returns (Some p) ->
  resolve_or (str_ref (Args.high_relay args)) (int_ref (Args.pin_high args))
    = Returns hp ->
  hardware_ok (Args.dry_run args) w ->
  proc_uptime w = Some up ->
  Args.boot_guard_seconds args <= up ->
  sigint w = Some t -> monotonic w < t ->
  (Args.cmd args = Ignite -> Args.maintained args = false ->
   fits_float (Args.pulse_ms args) ->
   t < monotonic w + inject_Z (Args.pulse_ms args) / 1000.0 ->
   fst (__main__ fuel args w) = Exited 130 /\
   last_action p (trace (snd (__main__ fuel args w))) = Some CLOSE) /\
  (forall h : Q,
      Args.cmd args = On -> Args.hold_seconds args = Some h ->
      t < monotonic w + h ->
      fst (__main__ fuel args w) = Exited 130 /\
      last_action p (trace (snd (__main__ fuel args w))) = Some CLOSE) /\
  (Args.cmd args = On -> Args.hold_seconds args = None ->
   t < monotonic w + inject_Z (Z.of_nat fuel) ->
   fst (__main__ fuel args w) = Exited 0 /\
   last_action p (trace (snd (__main__ fuel args w))) = Some OPEN).
Proof.
  intros Hm Hh Hhw Hup Hle Hsig Hgt.
  set (r := handle p (Args.active_low args) (Args.dry_run args)).
  set (w1 := did r OPEN (built (Args.dry_run args) w)).
  assert (Hok1 : relay_ok r w1).
  { unfold w1. apply relay_ok_did, relay_ok_built, hardware_ok_relay. exact Hhw. }
  assert (Hs1 : sigint w1 = Some t).
  { unfold w1. rewrite sigint_did, sigint_built. exact Hsig. }
  assert (Hm1 : monotonic w1 = monotonic w).
  { unfold w1. rewrite monotonic_did. apply monotonic_built. }
  assert (Hclosed :
    last_action p (trace (add_line Interrupted
                            (interrupted (did r CLOSE (did r OPEN w1)))))
    = Some CLOSE).
  { change (trace (add_line Interrupted ?x)) with (trace x).
    rewrite trace_interrupted, trace_did. apply last_action_snoc. }
  split; [|split].
  - intros Hc Hmt Hfit Hlt. unfold __main__.
    rewrite (main_after_guard fuel args w p hp up
               ltac:(rewrite Hc; reflexivity) Hm Hh Hhw Hup Hle).
    fold r w1. unfold pattern. rewrite Hc, Hmt. unfold bind.
    rewrite (pulse_interrupted r _ w1 t Hok1 Hs1) by (rewrite ?Hm1; assumption).
    cbn [fst snd]. split; [reflexivity|exact Hclosed].
  - intros h Hc Hhs Hlt. unfold __main__.
    rewrite (main_after_guard fuel args w p hp up
               ltac:(rewrite Hc; reflexivity) Hm Hh Hhw Hup Hle).
    fold r w1. unfold pattern. rewrite Hc, Hhs. unfold bind.
    rewrite (hold_interrupted fuel r h w1 t Hok1 Hs1) by (rewrite ?Hm1; assumption).
    cbn [fst snd]. split; [reflexivity|exact Hclosed].
  - intros Hc Hhs Hlt. unfold __main__.
    rewrite (main_after_guard fuel args w p hp up
               ltac:(rewrite Hc; reflexivity) Hm Hh Hhw Hup Hle).
    fold r w1. unfold pattern. rewrite Hc, Hhs.
    destruct (hold_forever_run fuel r w1 t Hok1 Hs1) as (w' & Hrun & Htr);
      [rewrite Hm1; apply Qlt_le_weak; exact Hgt|rewrite Hm1; exact Hlt|].
    unfold bind. rewrite Hrun. unfold ret. cbn [fst snd].
    split; [reflexivity|].
    rewrite (last_action_trace_eq p _ _ Htr).
    change [ Op (monotonic w1) (pin (_cfg r)) OPEN;
             Op (monotonic w1) (pin (_cfg r)) CLOSE;
             Op t (pin (_cfg r)) OPEN ]
      with ([ Op (monotonic w1) (pin (_cfg r)) OPEN;
              Op (monotonic w1) (pin (_cfg r)) CLOSE ]
            ++ [ Op t p OPEN ]).
    rewrite app_assoc. apply last_action_snoc.
Qed.



